(** * NodeMation Automation: workflow state manager, validator, tool surface
      and generation loop

    A shallow embedding of the TypeScript sources

      - [src/workflow/types.ts], [src/workflow/state.ts]
      - [src/workflow/validator.ts]
      - [src/tools/n8n-api.ts], [src/tools/index.ts]
      - [src/agent/workflow-builder.ts], [src/config/env.ts]

    Conventions of the embedding.

      - JavaScript strings are [string]s, a character standing for the code
        unit of its number.  [toLowerCase] is the folding of the ASCII
        capitals; on strings of ASCII characters it is what
        [String.prototype.toLowerCase] does, and the properties that depend on
        it are stated for such strings ([Js.isAscii]).
      - A JavaScript number is a [number]: an integer, or an integer plus a
        proper binary fraction.  These are the finite doubles, without their
        bounds on size and precision; [NaN] and the infinities, which no JSON
        text denotes, are outside the model.  Quantities the program computes
        itself and that are integers by construction (counters, grid
        positions, HTTP status codes) are in [Z].
      - A JavaScript [Map] is an association list kept in insertion order with
        unique keys ([JsMap]); [set] on a present key replaces the value in
        place, on an absent key it appends.  Plain objects used as string-keyed
        records are modelled the same way (the special enumeration order of
        integer-like keys and the [__proto__] setter are not modelled; the
        properties that depend on the keys of such an object are stated for
        states without a node named [__proto__]).
      - Code that may throw returns a [Completion]; methods of the state
        manager thread the manager's state explicitly. *)

From Stdlib Require Import ZArith List String Ascii Bool Lia DecimalString FinFun.
From Stdlib Require DecimalZ DecimalPos.
Import ListNotations.

Local Open Scope string_scope.
Local Open Scope Z_scope.

Set Implicit Arguments.

(** ** JavaScript strings *)

Module Js.

(** The double quote character, as a one-character string. *)
Definition dq : string := String (ascii_of_nat 34) EmptyString.

(** The line feed used by [errors.join('\n')]. *)
Definition nl : string := String (ascii_of_nat 10) EmptyString.

(** [quoted s] is [s] between double quotes, as in a template literal
    [`"${s}"`]. *)
Definition quoted (s : string) : string := dq ++ s ++ dq.

Definition lower_ascii (c : ascii) : ascii :=
  let n := nat_of_ascii c in
  if (Nat.leb 65 n && Nat.leb n 90)%bool then ascii_of_nat (n + 32) else c.

(** [String.prototype.toLowerCase] *)
Fixpoint toLowerCase (s : string) : string :=
  match s with
  | EmptyString => EmptyString
  | String c s' => String (lower_ascii c) (toLowerCase s')
  end.

(** The strings of ASCII characters. *)
Fixpoint isAscii (s : string) : bool :=
  match s with
  | EmptyString => true
  | String c s' => (Nat.ltb (nat_of_ascii c) 128 && isAscii s')%bool
  end.

(** [String.prototype.startsWith] *)
Definition startsWith (s pre : string) : bool := String.prefix pre s.

(** [String.prototype.includes] *)
Fixpoint includes (s sub : string) : bool :=
  (startsWith s sub ||
   match s with
   | EmptyString => false
   | String _ s' => includes s' sub
   end)%bool.

(** [String.prototype.endsWith] *)
Fixpoint endsWith (s suf : string) : bool :=
  (String.eqb s suf ||
   match s with
   | EmptyString => false
   | String _ s' => endsWith s' suf
   end)%bool.

(** [Array.prototype.join] *)
Definition join (sep : string) (l : list string) : string :=
  String.concat sep l.

(** Decimal rendering of an integer, as template literals and
    [String(n)] produce it. *)
Definition showZ (z : Z) : string := NilZero.string_of_int (Z.to_int z).

End Js.

(** ** JavaScript numbers

    [Int z] is the integer [z].  [Frac z p] is the number strictly between
    [z] and [z + 1] whose binary fraction has the digits of [p], read from
    the outermost constructor inwards, the final [xH] being the last digit
    1: [Frac 1 xH] is 1.5, [Frac 4 (xO xH)] is 4.25, [Frac (-2) (xI xH)] is
    -1.25.  Every number has one representation, so [===] is equality. *)

Inductive number :=
| Int (z : Z)
| Frac (floor : Z) (fraction : positive).

Coercion Int : Z >-> number.

Module Number.

(** [Number.isInteger] *)
Definition isInteger (n : number) : bool :=
  match n with
  | Int _ => true
  | Frac _ _ => false
  end.

(** [Math.floor] *)
Definition floor (n : number) : Z :=
  match n with
  | Int z => z
  | Frac z _ => z
  end.

(** [a === b], also the key equality of a [Map] *)
Definition eqb (a b : number) : bool :=
  match a, b with
  | Int x, Int y => x =? y
  | Frac x p, Frac y q => ((x =? y) && Pos.eqb p q)%bool
  | _, _ => false
  end.

(** Comparison of two binary fractions, digit by digit. *)
Fixpoint compare_fraction (p q : positive) : comparison :=
  match p, q with
  | xH, xH => Eq
  | xH, xO _ => Gt
  | xH, xI _ => Lt
  | xO _, xH => Lt
  | xI _, xH => Gt
  | xO p', xO q' => compare_fraction p' q'
  | xI p', xI q' => compare_fraction p' q'
  | xO _, xI _ => Lt
  | xI _, xO _ => Gt
  end.

Definition compare (a b : number) : comparison :=
  match a, b with
  | Int x, Int y => x ?= y
  | Int x, Frac y _ => if x <=? y then Lt else Gt
  | Frac x _, Int y => if x <? y then Lt else Gt
  | Frac x p, Frac y q =>
      match x ?= y with
      | Eq => compare_fraction p q
      | c => c
      end
  end.

(** [a < b] *)
Definition ltb (a b : number) : bool :=
  match compare a b with Lt => true | _ => false end.

(** [a <= b] *)
Definition leb (a b : number) : bool :=
  match compare a b with Gt => false | _ => true end.

(** [Math.max(a, b)] *)
Definition max (a b : number) : number :=
  if ltb a b then b else a.

End Number.

(** ** JavaScript maps in insertion order *)

Class KeyEq (K : Type) := {
  key_eqb : K -> K -> bool;
  key_eqb_spec : forall a b : K, reflect (a = b) (key_eqb a b)
}.

#[global] Instance string_KeyEq : KeyEq string :=
  {| key_eqb := String.eqb; key_eqb_spec := String.eqb_spec |}.

#[global] Instance Z_KeyEq : KeyEq Z :=
  {| key_eqb := Z.eqb; key_eqb_spec := Z.eqb_spec |}.

#[global, refine] Instance number_KeyEq : KeyEq number :=
  {| key_eqb := Number.eqb |}.
Proof.
  intros [x | x p] [y | y q]; simpl.
  - destruct (Z.eqb_spec x y) as [-> | Hne];
      constructor; [reflexivity | congruence].
  - constructor; discriminate.
  - constructor; discriminate.
  - destruct (Z.eqb_spec x y) as [-> | Hne]; simpl;
      [| constructor; congruence].
    destruct (Pos.eqb_spec p q) as [-> | Hne];
      constructor; [reflexivity | congruence].
Defined.

Module JsMap.
Section Ops.
Context {K V : Type} `{KeyEq K}.

Definition t : Type := list (K * V).

Definition empty : t := [].

Fixpoint get (k : K) (m : t) : option V :=
  match m with
  | [] => None
  | (k', v) :: m' => if key_eqb k' k then Some v else get k m'
  end.

Definition has (k : K) (m : t) : bool :=
  match get k m with Some _ => true | None => false end.

Fixpoint set (k : K) (v : V) (m : t) : t :=
  match m with
  | [] => [(k, v)]
  | (k', v') :: m' =>
      if key_eqb k' k then (k', v) :: m' else (k', v') :: set k v m'
  end.

Definition delete (k : K) (m : t) : t :=
  filter (fun e => negb (key_eqb (fst e) k)) m.

Definition size (m : t) : nat := List.length m.

Definition keys (m : t) : list K := map fst m.

Definition values (m : t) : list V := map snd m.

Definition entries (m : t) : list (K * V) := m.

End Ops.
Arguments t : clear implicits.
End JsMap.

(** ** Data model ([src/workflow/types.ts]) *)

(** Values of type [unknown] that travel through node parameters and tool
    arguments. *)
#[warnings="-register-all"]
Inductive JsValue : Type :=
| JUndefined
| JNull
| JBool (b : bool)
| JNum (n : number)
| JStr (s : string)
| JArr (l : list JsValue)
| JObj (fields : list (string * JsValue)).

(** [Record<string, unknown>] *)
Definition JsRecord : Type := JsMap.t string JsValue.

Record N8nCredentialReference := {
  cred_id : string;
  cred_name : string
}.

Record N8nNode := {
  node_id : string;
  node_name : string;
  node_type : string;
  typeVersion : number;
  position : Z * Z;
  parameters : JsRecord;
  credentials : option (JsMap.t string N8nCredentialReference)
}.

Inductive N8nConnectionType := main | ai_tool | ai_languageModel | ai_memory.

Record N8nConnectionTarget := {
  ct_node : string;
  ct_type : N8nConnectionType;
  ct_index : number
}.

Record N8nNodeConnections := {
  nc_main : list (list N8nConnectionTarget)
}.

(** [{ [sourceNodeName: string]: N8nNodeConnections }] *)
Definition N8nConnections : Type := JsMap.t string N8nNodeConnections.

Record N8nWorkflowSettings := {
  executionOrder : string
}.

Record N8nWorkflow := {
  wf_name : string;
  wf_nodes : list N8nNode;
  wf_connections : N8nConnections;
  wf_settings : N8nWorkflowSettings
}.

Record AddNodeInput := {
  in_type : string;
  in_typeVersion : number;
  in_name : string;
  in_parameters : option JsRecord;
  in_credentials : option (JsMap.t string N8nCredentialReference)
}.

Record ConnectNodesInput := {
  in_sourceNode : string;
  in_targetNode : string;
  in_sourceOutput : option number;
  in_targetInput : option number;
  in_connectionType : option N8nConnectionType
}.

(** ** Completions: a normal result or a thrown [Error] *)

Inductive Completion (A : Type) : Type :=
| Normal (a : A)
| Throw (message : string).
Arguments Normal {A} a.
Arguments Throw {A} message.

(** ** The state manager ([src/workflow/state.ts]) *)

Record InternalConnection := {
  target : string;
  sourceOutput : number;
  targetInput : number;
  connectionType : N8nConnectionType
}.

Module WorkflowStateManager.

Record State := {
  nodes : JsMap.t string N8nNode;
  connections : JsMap.t string (list InternalConnection);
  nodeCounter : Z
}.

(** [new WorkflowStateManager()] *)
Definition init : State :=
  {| nodes := JsMap.empty; connections := JsMap.empty; nodeCounter := 0 |}.

(** The grid cell of index [nodeIndex]: four per row, steps 250 and 150
    from (100, 100). *)
Definition grid (nodeIndex : Z) : Z * Z :=
  (100 + (nodeIndex mod 4) * 250, 100 + (nodeIndex / 4) * 150).

Definition duplicate_name_message (name : string) : string :=
  "Node with name " ++ Js.quoted name ++ " already exists".

Definition addNode (st : State) (input : AddNodeInput)
  : Completion N8nNode * State :=
  if JsMap.has (in_name input) (nodes st) then
    (Throw (duplicate_name_message (in_name input)), st)
  else
    let counter := nodeCounter st + 1 in
    let id := "node_" ++ Js.showZ counter in
    let nodeIndex := Z.of_nat (JsMap.size (nodes st)) in
    let node :=
      {| node_id := id;
         node_name := in_name input;
         node_type := in_type input;
         typeVersion := in_typeVersion input;
         position := grid nodeIndex;
         parameters :=
           match in_parameters input with
           | Some p => p
           | None => JsMap.empty
           end;
         credentials := in_credentials input |} in
    (Normal node,
     {| nodes := JsMap.set (in_name input) node (nodes st);
        connections := connections st;
        nodeCounter := counter |}).

(** One turn of the loop over the connection map in [removeNode]: the
    entry of [source] is replaced by its filtered list, or deleted when
    nothing is left. *)
Definition prune_entry (name : string)
    (m : JsMap.t string (list InternalConnection))
    (entry : string * list InternalConnection)
  : JsMap.t string (list InternalConnection) :=
  let '(source, conns) := entry in
  let filtered :=
    filter (fun c => negb (String.eqb (target c) name)) conns in
  if Nat.eqb (List.length filtered) 0 then JsMap.delete source m
  else JsMap.set source filtered m.

(** The loop visits every entry of the map once; a turn only touches the
    entry it is visiting, so the visit order is that of the map at loop
    entry. *)
Definition removeNode (st : State) (name : string) : bool * State :=
  if negb (JsMap.has name (nodes st)) then (false, st)
  else
    let nodes1 := JsMap.delete name (nodes st) in
    let conns1 := JsMap.delete name (connections st) in
    let conns2 :=
      fold_left (prune_entry name) (JsMap.entries conns1) conns1 in
    (true,
     {| nodes := nodes1; connections := conns2;
        nodeCounter := nodeCounter st |}).

(** [x || 0] on an optional number: of the numbers only 0 is falsy. *)
Definition or0 (x : option number) : number :=
  match x with Some n => n | None => Int 0 end.

Definition connectNodes (st : State) (input : ConnectNodesInput)
  : Completion unit * State :=
  match JsMap.get (in_sourceNode input) (nodes st),
        JsMap.get (in_targetNode input) (nodes st) with
  | None, _ =>
      (Throw ("Source node " ++ Js.quoted (in_sourceNode input)
                ++ " not found"), st)
  | Some _, None =>
      (Throw ("Target node " ++ Js.quoted (in_targetNode input)
                ++ " not found"), st)
  | Some _, Some _ =>
      let existing :=
        match JsMap.get (in_sourceNode input) (connections st) with
        | Some l => l
        | None => []
        end in
      let duplicate :=
        find (fun c =>
                String.eqb (target c) (in_targetNode input)
                && Number.eqb (sourceOutput c) (or0 (in_sourceOutput input))
                && Number.eqb (targetInput c) (or0 (in_targetInput input)))%bool
             existing in
      match duplicate with
      | Some _ =>
          (Throw ("Connection from " ++ Js.quoted (in_sourceNode input)
                    ++ " to " ++ Js.quoted (in_targetNode input)
                    ++ " already exists"), st)
      | None =>
          let pushed :=
            List.app existing
            [{| target := in_targetNode input;
                sourceOutput := or0 (in_sourceOutput input);
                targetInput := or0 (in_targetInput input);
                connectionType :=
                  match in_connectionType input with
                  | Some t => t
                  | None => main
                  end |}] in
          (Normal tt,
           {| nodes := nodes st;
              connections :=
                JsMap.set (in_sourceNode input) pushed (connections st);
              nodeCounter := nodeCounter st |})
      end
  end.

(** Object spread [{ ...a, ...b }]. *)
Definition spread (a b : JsRecord) : JsRecord :=
  fold_left (fun acc kv => JsMap.set (fst kv) (snd kv) acc) b a.

Definition updateNodeParameters (st : State) (name : string)
    (params : JsRecord) : Completion unit * State :=
  match JsMap.get name (nodes st) with
  | None => (Throw ("Node " ++ Js.quoted name ++ " not found"), st)
  | Some node =>
      let node' :=
        {| node_id := node_id node;
           node_name := node_name node;
           node_type := node_type node;
           typeVersion := typeVersion node;
           position := position node;
           parameters := spread (parameters node) params;
           credentials := credentials node |} in
      (Normal tt,
       {| nodes := JsMap.set name node' (nodes st);
          connections := connections st;
          nodeCounter := nodeCounter st |})
  end.

Definition getNode (st : State) (name : string) : option N8nNode :=
  JsMap.get name (nodes st).

Definition getNodes (st : State) : list N8nNode :=
  JsMap.values (nodes st).

(** Grouping of a source's edges by output index, as the inner loop of
    [toN8nWorkflow] builds [outputGroups]. *)
Definition group_step
    (outputGroups : JsMap.t number (list InternalConnection))
    (conn : InternalConnection)
  : JsMap.t number (list InternalConnection) :=
  let group :=
    match JsMap.get (sourceOutput conn) outputGroups with
    | Some g => g
    | None => []
    end in
  JsMap.set (sourceOutput conn) (List.app group [conn]) outputGroups.

Definition outputGroups (conns : list InternalConnection)
  : JsMap.t number (list InternalConnection) :=
  fold_left group_step conns JsMap.empty.

(** [Math.max(...keys)]; [None] stands for the [-Infinity] of an empty
    argument list. *)
Definition Math_max (l : list number) : option number :=
  fold_left (fun acc k =>
               match acc with
               | None => Some k
               | Some m => Some (Number.max m k)
               end) l None.

Definition to_target (c : InternalConnection) : N8nConnectionTarget :=
  {| ct_node := target c; ct_type := connectionType c;
     ct_index := targetInput c |}.

(** The indices the sizing loop [for (let i = 0; i <= maxOutput; i++)]
    runs through: the integers from 0 up to [maxOutput], that is up to its
    floor. *)
Definition slot_indices (maxOutput : option number) : list Z :=
  match maxOutput with
  | None => []
  | Some m => map Z.of_nat (seq 0 (Z.to_nat (Number.floor m + 1)))
  end.

Definition mainConnections (conns : list InternalConnection)
  : list (list N8nConnectionTarget) :=
  let groups := outputGroups conns in
  let maxOutput := Math_max (JsMap.keys groups) in
  map (fun i =>
         let group :=
           match JsMap.get (Int i) groups with
           | Some g => g
           | None => []
           end in
         map to_target group)
      (slot_indices maxOutput).

Definition toN8nWorkflow (st : State) (name : string) : N8nWorkflow :=
  let conns :=
    fold_left
      (fun (acc : N8nConnections) (entry : string * list InternalConnection) =>
         JsMap.set (fst entry)
           {| nc_main := mainConnections (snd entry) |} acc)
      (JsMap.entries (connections st)) JsMap.empty in
  {| wf_name := name;
     wf_nodes := JsMap.values (nodes st);
     wf_connections := conns;
     wf_settings := {| executionOrder := "v1" |} |}.

Definition reset (st : State) : State := init.

(** *** Sequences of operations *)

Inductive Op :=
| OpAddNode (input : AddNodeInput)
| OpRemoveNode (name : string)
| OpConnectNodes (input : ConnectNodesInput)
| OpUpdateNodeParameters (name : string) (params : JsRecord)
| OpReset.

Definition step (st : State) (op : Op) : State :=
  match op with
  | OpAddNode input => snd (addNode st input)
  | OpRemoveNode name => snd (removeNode st name)
  | OpConnectNodes input => snd (connectNodes st input)
  | OpUpdateNodeParameters name params =>
      snd (updateNodeParameters st name params)
  | OpReset => reset st
  end.

Definition run (ops : list Op) (st : State) : State :=
  fold_left step ops st.

(** The states a fresh manager can be driven to. *)
Definition reachable (st : State) : Prop :=
  exists ops, run ops init = st.

(** The nodes returned by the successful [addNode] calls of a run, in call
    order. *)
Fixpoint added (ops : list Op) (st : State) : list N8nNode :=
  match ops with
  | [] => []
  | op :: ops' =>
      (match op with
      | OpAddNode input =>
          match fst (addNode st input) with
          | Normal node => [node]
          | Throw _ => []
          end
      | _ => []
      end ++ added ops' (step st op))%list
  end.

End WorkflowStateManager.

(** ** JavaScript sets of strings, in insertion order *)

Module JsSet.

Definition t : Type := list string.

Definition empty : t := [].

Definition has (x : string) (s : t) : bool := existsb (String.eqb x) s.

Definition add (x : string) (s : t) : t :=
  if has x s then s else List.app s [x].

(** [new Set(iterable)] *)
Definition of_list (l : list string) : t :=
  fold_left (fun s x => add x s) l empty.

Definition size (s : t) : nat := List.length s.

End JsSet.

(** ** The validator ([src/workflow/validator.ts]) *)

Module Validator.

(** *** The zod schemas

    A schema is modelled by the list of issues zod reports for a value of
    the TypeScript type the schema is applied to, in zod's order: an object
    is visited field by field in the order of the schema's shape, an array
    reports its own length check before its elements, and every check of a
    string or number adds its own issue ([int] before [positive] or
    [min]).  The checks on the JavaScript type
    of a field (a string where a string is declared, a pair of numbers for
    [position], the closed set of connection types) hold by typing and
    report nothing. *)

Inductive PathSeg :=
| Key (k : string)
| Index (i : nat).

Record ZodIssue := {
  path : list PathSeg;
  message : string
}.

Definition show_seg (p : PathSeg) : string :=
  match p with
  | Key k => k
  | Index i => Js.showZ (Z.of_nat i)
  end.

(** [`${issue.path.join('.')}: ${issue.message}`] *)
Definition format_issue (i : ZodIssue) : string :=
  Js.join "." (map show_seg (path i)) ++ ": " ++ message i.

Definition issue_if (failed : bool) (p : list PathSeg) (msg : string)
  : list ZodIssue :=
  if failed then [{| path := p; message := msg |}] else [].

(** [z.string().min(1, msg)] *)
Definition string_min1 (msg : string) (p : list PathSeg) (s : string)
  : list ZodIssue :=
  issue_if (Nat.ltb (String.length s) 1) p msg.

(** [for (i, x) of l.entries()], collecting what [f] reports. *)
Fixpoint flat_mapi {A B : Type} (f : nat -> A -> list B) (i : nat)
    (l : list A) : list B :=
  match l with
  | [] => []
  | x :: l' => List.app (f i x) (flat_mapi f (S i) l')
  end.

Definition type_prefix_ok (ty : string) : bool :=
  (Js.startsWith ty "n8n-nodes-base."
   || Js.startsWith ty "@n8n/n8n-nodes-langchain.")%bool.

Definition n8nNodeSchema (p : list PathSeg) (n : N8nNode) : list ZodIssue :=
  List.app (string_min1 "Node ID is required" (List.app p [Key "id"]) (node_id n))
 (List.app (string_min1 "Node name is required" (List.app p [Key "name"])
              (node_name n))
 (List.app (string_min1 "String must contain at least 1 character(s)"
              (List.app p [Key "type"]) (node_type n))
 (List.app (issue_if (negb (type_prefix_ok (node_type n)))
              (List.app p [Key "type"])
              "Node type must start with 'n8n-nodes-base.' or '@n8n/n8n-nodes-langchain.'")
 (List.app (issue_if (negb (Number.isInteger (typeVersion n)))
              (List.app p [Key "typeVersion"])
              "Expected integer, received float")
           (issue_if (Number.leb (typeVersion n) 0)
              (List.app p [Key "typeVersion"])
              "typeVersion must be a positive integer"))))).

Definition n8nConnectionTargetSchema (p : list PathSeg)
    (c : N8nConnectionTarget) : list ZodIssue :=
  List.app (string_min1 "Target node name is required"
              (List.app p [Key "node"]) (ct_node c))
 (List.app (issue_if (negb (Number.isInteger (ct_index c)))
              (List.app p [Key "index"])
              "Expected integer, received float")
           (issue_if (Number.ltb (ct_index c) 0) (List.app p [Key "index"])
              "Number must be greater than or equal to 0")).

Definition n8nConnectionsSchema (p : list PathSeg) (c : N8nConnections)
  : list ZodIssue :=
  flat_map
    (fun entry : string * N8nNodeConnections =>
       let p1 := List.app p [Key (fst entry); Key "main"] in
       flat_mapi
         (fun i outputConnections =>
            flat_mapi
              (fun j conn =>
                 n8nConnectionTargetSchema
                   (List.app p1 [Index i; Index j]) conn)
              0%nat outputConnections)
         0%nat (nc_main (snd entry)))
    (JsMap.entries c).

Definition n8nWorkflowSchema (w : N8nWorkflow) : list ZodIssue :=
  List.app (string_min1 "Workflow name is required" [Key "name"] (wf_name w))
 (List.app (issue_if (Nat.ltb (List.length (wf_nodes w)) 1) [Key "nodes"]
              "Workflow must have at least one node")
 (List.app (flat_mapi (fun i n => n8nNodeSchema [Key "nodes"; Index i] n)
              0%nat (wf_nodes w))
 (List.app (n8nConnectionsSchema [Key "connections"] (wf_connections w))
           (issue_if
              (negb (String.eqb (executionOrder (wf_settings w)) "v1"))
              [Key "settings"; Key "executionOrder"]
              ("Invalid literal value, expected " ++ Js.quoted "v1"))))).

(** *** The validation result *)

Record ValidationResult := {
  valid : bool;
  errors : list string;
  warnings : list string
}.

(** The loop reporting every node whose name was seen before. *)
Fixpoint duplicate_name_errors (seen : JsSet.t) (ns : list N8nNode)
  : list string :=
  match ns with
  | [] => []
  | node :: ns' =>
      List.app
        (if JsSet.has (node_name node) seen
         then ["Duplicate node name: " ++ Js.quoted (node_name node)]
         else [])
        (duplicate_name_errors (JsSet.add (node_name node) seen) ns')
  end.

(** The loop over [Object.entries(workflow.connections)]. *)
Definition connection_errors (nodeNames : JsSet.t) (c : N8nConnections)
  : list string :=
  flat_map
    (fun entry : string * N8nNodeConnections =>
       let sourceName := fst entry in
       List.app
         (if negb (JsSet.has sourceName nodeNames)
          then ["Connection source " ++ Js.quoted sourceName
                  ++ " does not exist as a node"]
          else [])
         (flat_map
            (fun outputConnections =>
               flat_map
                 (fun conn =>
                    if negb (JsSet.has (ct_node conn) nodeNames)
                    then ["Connection target " ++ Js.quoted (ct_node conn)
                            ++ " (from " ++ Js.quoted sourceName
                            ++ ") does not exist as a node"]
                    else [])
                 outputConnections)
            (nc_main (snd entry))))
    (JsMap.entries c).

Definition isTriggerNode (type : string) : bool :=
  let lowerType := Js.toLowerCase type in
  (Js.includes lowerType "trigger"
   || Js.includes lowerType "webhook"
   || Js.endsWith lowerType ".cron")%bool.

Definition no_trigger_warning : string :=
  "Workflow has no trigger node. It can only be executed manually via API.".

(** The set of all connection targets. *)
Definition connectedNodes (c : N8nConnections) : JsSet.t :=
  fold_left
    (fun acc (connections : N8nNodeConnections) =>
       fold_left
         (fun acc1 outputConnections =>
            fold_left (fun acc2 conn => JsSet.add (ct_node conn) acc2)
              outputConnections acc1)
         (nc_main connections) acc)
    (JsMap.values c) JsSet.empty.

Definition orphan_warnings (w : N8nWorkflow) : list string :=
  let connected := connectedNodes (wf_connections w) in
  flat_map
    (fun node =>
       let isTrigger := isTriggerNode (node_type node) in
       let isConnected := JsSet.has (node_name node) connected in
       if (negb isTrigger && negb isConnected
           && Nat.ltb 1 (List.length (wf_nodes w)))%bool
       then ["Node " ++ Js.quoted (node_name node)
               ++ " has no incoming connections"]
       else [])
    (wf_nodes w).

Definition semantic_errors (w : N8nWorkflow) : list string :=
  let nodeNames := JsSet.of_list (map node_name (wf_nodes w)) in
  let nodeIds := JsSet.of_list (map node_id (wf_nodes w)) in
  List.app
    (if negb (Nat.eqb (JsSet.size nodeNames) (List.length (wf_nodes w)))
     then duplicate_name_errors JsSet.empty (wf_nodes w)
     else [])
 (List.app
    (if negb (Nat.eqb (JsSet.size nodeIds) (List.length (wf_nodes w)))
     then ["Duplicate node IDs detected"]
     else [])
    (connection_errors nodeNames (wf_connections w))).

Definition semantic_warnings (w : N8nWorkflow) : list string :=
  let hasTrigger := existsb (fun n => isTriggerNode (node_type n)) (wf_nodes w) in
  List.app
    (if negb hasTrigger then [no_trigger_warning] else [])
    (orphan_warnings w).

Definition validateWorkflow (w : N8nWorkflow) : ValidationResult :=
  let issues := n8nWorkflowSchema w in
  if negb (Nat.eqb (List.length issues) 0) then
    {| valid := false; errors := map format_issue issues; warnings := [] |}
  else
    let errs := semantic_errors w in
    {| valid := Nat.eqb (List.length errs) 0;
       errors := errs;
       warnings := semantic_warnings w |}.

End Validator.

(** ** Configuration ([src/config/env.ts]) *)

Record Env := {
  ANTHROPIC_API_KEY : string;
  N8N_API_KEY : option string;
  N8N_BASE_URL : string;
  CLAUDE_MODEL : string;
  MAX_VALIDATION_RETRIES : Z
}.

(** The value [envSchema] gives [MAX_VALIDATION_RETRIES] when the variable
    is not set. *)
Definition default_MAX_VALIDATION_RETRIES : Z := 3.

(** ** The n8n API client ([src/tools/n8n-api.ts])

    The remote service is a pair of functions giving the outcome of the two
    requests the tools cause; what the service stores is not modelled. *)

Inductive ErrorType :=
| AUTHENTICATION | VALIDATION | NOT_FOUND | RATE_LIMIT | SERVER_ERROR | NETWORK.

Record N8nApiError := {
  statusCode : Z;
  api_message : string;
  errorType : ErrorType;
  recoverable : bool;
  details : option JsValue
}.

Record CreateWorkflowResponse := {
  resp_id : string;
  resp_name : string;
  resp_active : bool
}.

(** What a rejected request carries: the client throws plain [N8nApiError]
    objects (from [request] and [parseError]); anything else that escapes
    is an [Error] instance without a [statusCode] property. *)
Inductive Thrown :=
| ThrownObject (e : N8nApiError)
| ThrownError (message : string).

Inductive Settled (A : Type) : Type :=
| Resolved (a : A)
| Rejected (reason : Thrown).
Arguments Resolved {A} a.
Arguments Rejected {A} reason.

(** [createWorkflow] resolves to the body of the response, read at the
    declared type; [None] is the body [null], which has no properties. *)
Record N8nApiClient := {
  createWorkflow : N8nWorkflow -> Settled (option CreateWorkflowResponse);
  deleteWorkflow : string -> Settled unit
}.

(** The message of the [TypeError] of a property access on [null]. *)
Definition null_property_error (property : string) : string :=
  "Cannot read properties of null (reading '" ++ property ++ "')".

Record ApiValidationResult := {
  api_valid : bool;
  api_error : option N8nApiError
}.

Definition validateByCreation (client : N8nApiClient) (workflow : N8nWorkflow)
  : ApiValidationResult :=
  match createWorkflow client workflow with
  | Resolved (Some created) =>
      (* the outcome of the deletion is logged and otherwise ignored *)
      let _ := deleteWorkflow client (resp_id created) in
      {| api_valid := true; api_error := None |}
  | Resolved None =>
      (* [created.id] throws in the inner [try] and again in the message
         its [catch] builds; the outer [catch] sees a [TypeError] *)
      {| api_valid := false;
         api_error :=
           Some {| statusCode := 0;
                   api_message := null_property_error "id";
                   errorType := NETWORK;
                   recoverable := true;
                   details := None |} |}
  | Rejected error =>
      {| api_valid := false;
         api_error :=
           Some {| statusCode := 0;
                   api_message :=
                     match error with
                     | ThrownError m => m
                     | ThrownObject _ => "Unknown error"
                     end;
                   errorType := NETWORK;
                   recoverable := true;
                   details := None |} |}
  end.

Definition createN8nApiClient (service : N8nApiClient) (apiKey : option string)
  : option N8nApiClient :=
  match apiKey with
  | None => None
  | Some k =>
      if (String.eqb k EmptyString || String.eqb k "your-n8n-api-key"
          || Nat.ltb (String.length k) 10)%bool
      then None
      else Some service
  end.

(** ** The tool surface ([src/tools/index.ts]) *)

Module Tools.

Import WorkflowStateManager.

Inductive ToolData :=
| DataNode (node : N8nNode)
| DataWorkflow (workflow : N8nWorkflow)
| DataValidatedAt (validatedAt : string)
| DataValidationError (error : option N8nApiError)
| DataCreated (id name url : string) (active : bool).

Record ToolResult := {
  success : bool;
  message : string;
  data : option ToolData
}.

Definition failure (msg : string) : ToolResult :=
  {| success := false; message := msg; data := None |}.

Inductive ToolName :=
| add_node
| connect_nodes
| get_current_workflow
| update_node_parameters
| validate_workflow_with_n8n
| create_workflow_in_n8n.

Definition tool_names : list (string * ToolName) :=
  [ ("add_node", add_node);
    ("connect_nodes", connect_nodes);
    ("get_current_workflow", get_current_workflow);
    ("update_node_parameters", update_node_parameters);
    ("validate_workflow_with_n8n", validate_workflow_with_n8n);
    ("create_workflow_in_n8n", create_workflow_in_n8n) ].

(** The properties every object literal inherits from [Object.prototype]. *)
Definition Object_prototype_members : list string :=
  [ "constructor"; "__defineGetter__"; "__defineSetter__"; "hasOwnProperty";
    "__lookupGetter__"; "__lookupSetter__"; "isPrototypeOf";
    "propertyIsEnumerable"; "toString"; "valueOf"; "__proto__";
    "toLocaleString" ].

(** What the property read [toolSchemas[toolName]] evaluates to: one of
    the six declared schemas, a member inherited from [Object.prototype]
    (a function or object, hence truthy, and without a [safeParse]
    method), or [undefined]. *)
Inductive SchemaLookup :=
| OwnSchema (tool : ToolName)
| InheritedMember
| Undefined.

Definition toolSchemas_lookup (toolName : string) : SchemaLookup :=
  match JsMap.get toolName tool_names with
  | Some tool => OwnSchema tool
  | None =>
      if existsb (String.eqb toolName) Object_prototype_members
      then InheritedMember
      else Undefined
  end.

(** [asyncTools.has(toolName)] *)
Definition asyncTools (tool : ToolName) : bool :=
  match tool with
  | validate_workflow_with_n8n | create_workflow_in_n8n => true
  | _ => false
  end.

(** *** Parsed arguments ([toolSchemas]) *)

Record AddNodeArgs := {
  a_type : string;
  a_typeVersion : number;
  a_name : string;
  a_parameters : option JsRecord
}.

Record ConnectNodesArgs := {
  a_sourceNode : string;
  a_targetNode : string;
  a_sourceOutput : number;
  a_targetInput : number
}.

Record UpdateArgs := {
  a_nodeName : string;
  a_newParameters : JsRecord
}.

Inductive ParsedArgs :=
| PAddNode (a : AddNodeArgs)
| PConnectNodes (a : ConnectNodesArgs)
| PGetCurrentWorkflow (name : string)
| PUpdateNodeParameters (a : UpdateArgs)
| PValidate (workflowName : string)
| PCreate (workflowName : string).

(** The value of property [k] of an argument object. *)
Definition prop (k : string) (fields : list (string * JsValue)) : JsValue :=
  match JsMap.get k fields with
  | Some v => v
  | None => JUndefined
  end.

(** [z.number().default(0)] *)
Definition number_default0 (v : JsValue) : option number :=
  match v with
  | JUndefined => Some (Int 0)
  | JNum n => Some n
  | _ => None
  end.

(** [schema.safeParse(args)]: the parsed data, or [None] when zod
    reports issues. *)
Definition safeParse (tool : ToolName) (args : JsValue) : option ParsedArgs :=
  match args with
  | JObj fields =>
      match tool with
      | add_node =>
          match prop "type" fields, prop "typeVersion" fields,
                prop "name" fields, prop "parameters" fields with
          | JStr ty, JNum v, JStr nm, JUndefined =>
              Some (PAddNode {| a_type := ty; a_typeVersion := v;
                                a_name := nm; a_parameters := None |})
          | JStr ty, JNum v, JStr nm, JObj r =>
              Some (PAddNode {| a_type := ty; a_typeVersion := v;
                                a_name := nm; a_parameters := Some r |})
          | _, _, _, _ => None
          end
      | connect_nodes =>
          match prop "sourceNode" fields, prop "targetNode" fields,
                number_default0 (prop "sourceOutput" fields),
                number_default0 (prop "targetInput" fields) with
          | JStr s, JStr t, Some so, Some ti =>
              Some (PConnectNodes
                      {| a_sourceNode := s; a_targetNode := t;
                         a_sourceOutput := so; a_targetInput := ti |})
          | _, _, _, _ => None
          end
      | get_current_workflow =>
          match prop "name" fields with
          | JStr n => Some (PGetCurrentWorkflow n)
          | _ => None
          end
      | update_node_parameters =>
          match prop "nodeName" fields, prop "parameters" fields with
          | JStr n, JObj r =>
              Some (PUpdateNodeParameters
                      {| a_nodeName := n; a_newParameters := r |})
          | _, _ => None
          end
      | validate_workflow_with_n8n =>
          match prop "workflowName" fields with
          | JStr n => Some (PValidate n)
          | _ => None
          end
      | create_workflow_in_n8n =>
          match prop "workflowName" fields with
          | JStr n => Some (PCreate n)
          | _ => None
          end
      end
  | _ => None
  end.

(** *** The tools

    The module-level variables are the shared [workflowState] and
    [n8nClient]; a tool returns its result and the state it leaves. *)

Section Implementations.

(** [env], the text of a [ZodError] for rejected arguments and the
    clock read by [new Date().toISOString()]. *)
Variable env : Env.
Variable zod_error_message : ToolName -> JsValue -> string.
Variable now : string.

Variable n8nClient : option N8nApiClient.

Definition impl_add_node (st : State) (args : AddNodeArgs)
  : ToolResult * State :=
  match addNode st
          {| in_type := a_type args; in_typeVersion := a_typeVersion args;
             in_name := a_name args; in_parameters := a_parameters args;
             in_credentials := None |} with
  | (Normal node, st') =>
      ({| success := true;
          message := "Added node " ++ Js.quoted (a_name args) ++ " ("
                       ++ a_type args ++ ") with ID: " ++ node_id node;
          data := Some (DataNode node) |}, st')
  | (Throw msg, st') => (failure ("Error adding node: " ++ msg), st')
  end.

Definition impl_connect_nodes (st : State) (args : ConnectNodesArgs)
  : ToolResult * State :=
  match connectNodes st
          {| in_sourceNode := a_sourceNode args;
             in_targetNode := a_targetNode args;
             in_sourceOutput := Some (a_sourceOutput args);
             in_targetInput := Some (a_targetInput args);
             in_connectionType := None |} with
  | (Normal _, st') =>
      ({| success := true;
          message := "Connected " ++ Js.quoted (a_sourceNode args)
                       ++ " -> " ++ Js.quoted (a_targetNode args);
          data := None |}, st')
  | (Throw msg, st') => (failure ("Error connecting nodes: " ++ msg), st')
  end.

Definition impl_get_current_workflow (st : State) (name : string)
  : ToolResult * State :=
  ({| success := true; message := "Current workflow state:";
      data := Some (DataWorkflow (toN8nWorkflow st name)) |}, st).

Definition impl_update_node_parameters (st : State) (args : UpdateArgs)
  : ToolResult * State :=
  match updateNodeParameters st (a_nodeName args) (a_newParameters args) with
  | (Normal _, st') =>
      ({| success := true;
          message := "Updated parameters for node "
                       ++ Js.quoted (a_nodeName args);
          data := None |}, st')
  | (Throw msg, st') =>
      (failure ("Error updating parameters: " ++ msg), st')
  end.

Definition impl_validate_workflow_with_n8n (st : State)
    (workflowName : string) : ToolResult * State :=
  match n8nClient with
  | None =>
      (failure "n8n API is not configured. Set N8N_API_KEY environment variable to enable n8n validation.", st)
  | Some client =>
      let workflow := toN8nWorkflow st workflowName in
      let result := validateByCreation client workflow in
      if api_valid result then
        ({| success := true;
            message := "Workflow validated successfully against n8n API.";
            data := Some (DataValidatedAt now) |}, st)
      else
        ({| success := false;
            message :=
              "n8n validation failed: " ++
              match api_error result with
              | Some e =>
                  if String.eqb (api_message e) EmptyString
                  then "Unknown error" else api_message e
              | None => "Unknown error"
              end;
            data := Some (DataValidationError (api_error result)) |}, st)
  end.

Definition impl_create_workflow_in_n8n (st : State)
    (workflowName : string) : ToolResult * State :=
  match n8nClient with
  | None =>
      (failure "n8n API is not configured. Set N8N_API_KEY environment variable to enable n8n integration.", st)
  | Some client =>
      let workflow := toN8nWorkflow st workflowName in
      match createWorkflow client workflow with
      | Resolved None =>
          (* [response.id] throws a [TypeError] inside the [try] *)
          (failure ("Error creating workflow in n8n: "
                      ++ null_property_error "id"), st)
      | Resolved (Some response) =>
          ({| success := true;
              message := "Workflow created successfully in n8n.";
              data :=
                Some (DataCreated (resp_id response) (resp_name response)
                        (N8N_BASE_URL env ++ "/workflow/"
                           ++ resp_id response)
                        (resp_active response)) |}, st)
      | Rejected error =>
          let errorMessage :=
            match error with
            | ThrownError m => m
            | ThrownObject _ => "Unknown error"
            end in
          (failure ("Error creating workflow in n8n: " ++ errorMessage), st)
      end
  end.

(** [toolImplementations[toolName](parsed.data)] *)
Definition implementation (st : State) (parsed : ParsedArgs)
  : ToolResult * State :=
  match parsed with
  | PAddNode a => impl_add_node st a
  | PConnectNodes a => impl_connect_nodes st a
  | PGetCurrentWorkflow n => impl_get_current_workflow st n
  | PUpdateNodeParameters a => impl_update_node_parameters st a
  | PValidate n => impl_validate_workflow_with_n8n st n
  | PCreate n => impl_create_workflow_in_n8n st n
  end.

(** The [TypeError] of the call [schema.safeParse(args)] when [schema]
    has no such method. *)
Definition safeParse_not_a_function : string :=
  "schema.safeParse is not a function".

Definition executeTool (st : State) (toolName : string) (args : JsValue)
  : Completion ToolResult * State :=
  match toolSchemas_lookup toolName with
  | Undefined => (Normal (failure ("Unknown tool: " ++ toolName)), st)
  | InheritedMember => (Throw safeParse_not_a_function, st)
  | OwnSchema tool =>
      if asyncTools tool then
        (Normal (failure ("Tool " ++ toolName
                            ++ " is async. Use executeToolAsync instead.")),
         st)
      else
        match safeParse tool args with
        | None =>
            (Normal (failure ("Invalid arguments: "
                                ++ zod_error_message tool args)), st)
        | Some parsed =>
            let '(result, st') := implementation st parsed in
            (Normal result, st')
        end
  end.

(** The completion of the promise [executeToolAsync] returns; [Throw]
    is a rejection. *)
Definition executeToolAsync (st : State) (toolName : string)
    (args : JsValue) : Completion ToolResult * State :=
  match toolSchemas_lookup toolName with
  | Undefined => (Normal (failure ("Unknown tool: " ++ toolName)), st)
  | InheritedMember => (Throw safeParse_not_a_function, st)
  | OwnSchema tool =>
      match safeParse tool args with
      | None =>
          (Normal (failure ("Invalid arguments: "
                              ++ zod_error_message tool args)), st)
      | Some parsed =>
          let '(result, st') := implementation st parsed in
          (Normal result, st')
      end
  end.

End Implementations.

End Tools.

(** ** The generation loop ([src/agent/workflow-builder.ts]) *)

Module Builder.

Import WorkflowStateManager.

Definition MAX_TURNS : nat := 20.

(** *** Messages exchanged with the model *)

Inductive ContentBlock :=
| TextBlock (text : string)
| ToolUseBlock (id name : string) (input : JsValue)
| OtherBlock.

Record Response := {
  content : list ContentBlock;
  stop_reason : option string
}.

Record ToolResultBlock := {
  tool_use_id : string;
  result_content : string
}.

Inductive Message :=
| UserText (text : string)
| AssistantContent (blocks : list ContentBlock)
| UserToolResults (results : list ToolResultBlock).

(** The outcome of [client.messages.create]: a response, or a rejection
    whose reason is an [Error] with a message ([Some]) or some other value
    ([None]). *)
Inductive ApiOutcome :=
| ApiResponds (response : Response)
| ApiRejects (errorMessage : option string).

Record BuildResult := {
  success : bool;
  workflow : option N8nWorkflow;
  error : option string;
  validationWarnings : option (list string);
  conversationLog : list string;
  model : string;
  validationAttempts : option Z;
  requiresHumanInput : option bool;
  humanInputReason : option string
}.

(** *** Classification of validation errors *)

Record Analysis := {
  recoverable : bool;
  suggestedAction : option string
}.

Definition analyzeValidationError (errorMessage : string) : Analysis :=
  let lowerMessage := Js.toLowerCase errorMessage in
  if (Js.includes lowerMessage "credential"
      || Js.includes lowerMessage "oauth"
      || Js.includes lowerMessage "api key"
      || Js.includes lowerMessage "authentication")%bool
  then
    {| recoverable := false;
       suggestedAction :=
         Some "Credentials need to be configured in n8n. Please set up the required credentials in your n8n instance." |}
  else if (Js.includes lowerMessage "required"
           || Js.includes lowerMessage "missing"
           || Js.includes lowerMessage "parameter")%bool
  then
    {| recoverable := true;
       suggestedAction :=
         Some "Add the missing required parameter using update_node_parameters." |}
  else if (Js.includes lowerMessage "invalid"
           || Js.includes lowerMessage "unknown node")%bool
  then
    {| recoverable := true;
       suggestedAction :=
         Some "Check the node type or parameter value. Use list_available_nodes to see valid options." |}
  else if (Js.includes lowerMessage "connection"
           || Js.includes lowerMessage "not found")%bool
  then
    {| recoverable := true;
       suggestedAction :=
         Some "Check node names and ensure they exist before connecting." |}
  else
    {| recoverable := true;
       suggestedAction := Some "Review the error message and fix the issue." |}.

Definition buildRetryPrompt (errorMessage : string) (analysis : Analysis)
  : string :=
  Js.nl ++ "The workflow validation failed with the following error:"
  ++ Js.nl ++ errorMessage ++ Js.nl
  ++ Js.nl
  ++ match suggestedAction analysis with
     | Some a =>
         if String.eqb a EmptyString then EmptyString
         else "Suggested action: " ++ a
     | None => EmptyString
     end
  ++ Js.nl
  ++ Js.nl ++ "Please analyze the error and fix the workflow. You may need to:"
  ++ Js.nl ++ "1. Update node parameters using update_node_parameters"
  ++ Js.nl ++ "2. Remove and re-add nodes if the type is wrong"
  ++ Js.nl ++ "3. Fix connections between nodes"
  ++ Js.nl
  ++ Js.nl ++ "After making corrections, call get_current_workflow to verify the fix."
  ++ Js.nl.

(** *** The loop *)

Section Loop.

(** The environment of a run: configuration, the resolved model id, the
    model behind [client.messages.create] (a function of the message
    history it is sent), the n8n service, the clock, and the renderings
    of [JSON.stringify] and of a [ZodError].  The progress events written
    to the console are not modelled. *)
Variable env : Env.
Variable modelId : string.
Variable messages_create : list Message -> ApiOutcome.
Variable service : N8nApiClient.
Variable now : string.
Variable zod_error_message : Tools.ToolName -> JsValue -> string.
Variable stringify_value : JsValue -> string.
Variable stringify_result : Tools.ToolResult -> string.
Variable stringify_data : Tools.ToolData -> string.

(** [initializeN8nClient()] *)
Definition n8nClient : option N8nApiClient :=
  createN8nApiClient service (N8N_API_KEY env).

Definition maxRetries : Z := MAX_VALIDATION_RETRIES env.

(** The variables of [buildWorkflow] that change from turn to turn,
    with the shared [workflowState]. *)
Record Vars := {
  messages : list Message;
  log : list string;
  attempts : Z;
  workflowState : State
}.

(** The first loop over [response.content]. *)
Fixpoint read_blocks (blocks : list ContentBlock)
    (log0 : list string) (assistantContent : list ContentBlock)
    (hasToolUse : bool) : list string * list ContentBlock * bool :=
  match blocks with
  | [] => (log0, assistantContent, hasToolUse)
  | TextBlock text :: rest =>
      read_blocks rest (List.app log0 ["Assistant: " ++ text])
        (List.app assistantContent [TextBlock text]) hasToolUse
  | ToolUseBlock id name input :: rest =>
      read_blocks rest
        (List.app log0
           ["Tool: " ++ name ++ "(" ++ stringify_value input ++ ")"])
        (List.app assistantContent [ToolUseBlock id name input]) true
  | OtherBlock :: rest =>
      read_blocks rest log0 assistantContent hasToolUse
  end.

(** The second loop over [response.content]: the tool calls in order;
    a rejected call leaves the loop with what was done so far. *)
Fixpoint run_tools (blocks : list ContentBlock) (log0 : list string)
    (toolResults : list ToolResultBlock) (st : State)
  : Completion (list ToolResultBlock) * list string * State :=
  match blocks with
  | [] => (Normal toolResults, log0, st)
  | ToolUseBlock id name input :: rest =>
      match Tools.executeToolAsync env zod_error_message now n8nClient
              st name input with
      | (Throw msg, st') => (Throw msg, log0, st')
      | (Normal result, st') =>
          let resultContent :=
            match Tools.data result with
            | Some d => stringify_data d
            | None => Tools.message result
            end in
          run_tools rest
            (List.app log0 ["Result: " ++ stringify_result result])
            (List.app toolResults
               [{| tool_use_id := id; result_content := resultContent |}])
            st'
      end
  | _ :: rest => run_tools rest log0 toolResults st
  end.

Inductive Step :=
| Continue (v : Vars)
| Return (r : BuildResult).

(** The branch taken when the model asked for no tool or ended its
    turn. *)
Definition finalize (v : Vars) : Step :=
  let nodes := getNodes (workflowState v) in
  if Nat.ltb 0 (List.length nodes) then
    let workflow := toN8nWorkflow (workflowState v) "Generated Workflow" in
    let validation := Validator.validateWorkflow workflow in
    if negb (Validator.valid validation) then
      let validationAttempts := attempts v + 1 in
      let errorMsg := Js.join Js.nl (Validator.errors validation) in
      let analysis := analyzeValidationError errorMsg in
      if (recoverable analysis && (validationAttempts <? maxRetries))%bool
      then
        Continue
          {| messages :=
               List.app (messages v)
                 [UserText (buildRetryPrompt errorMsg analysis)];
             log := log v;
             attempts := validationAttempts;
             workflowState := workflowState v |}
      else
        Return
          {| success := false;
             workflow := None;
             error := Some ("Generated workflow is invalid:" ++ Js.nl
                              ++ errorMsg);
             validationWarnings := None;
             conversationLog := log v;
             model := modelId;
             validationAttempts := Some validationAttempts;
             requiresHumanInput := Some (negb (recoverable analysis));
             humanInputReason := suggestedAction analysis |}
    else
      Return
        {| success := true;
           workflow := Some workflow;
           error := None;
           validationWarnings := Some (Validator.warnings validation);
           conversationLog := log v;
           model := modelId;
           validationAttempts := Some (attempts v);
           requiresHumanInput := None;
           humanInputReason := None |}
  else
    Return
      {| success := false;
         workflow := None;
         error := Some "No workflow was created. Please try a more specific request.";
         validationWarnings := None;
         conversationLog := log v;
         model := modelId;
         validationAttempts := Some (attempts v);
         requiresHumanInput := None;
         humanInputReason := None |}.

(** The [catch] clause of [buildWorkflow]. *)
Definition caught (errorMessage : string) (log0 : list string)
    (attempts0 : Z) : BuildResult :=
  {| success := false;
     workflow := None;
     error := Some errorMessage;
     validationWarnings := None;
     conversationLog := log0;
     model := modelId;
     validationAttempts := Some attempts0;
     requiresHumanInput := None;
     humanInputReason := None |}.

(** The code after the loop: the turn limit was reached. *)
Definition max_turns_reached (v : Vars) : BuildResult :=
  let nodes := getNodes (workflowState v) in
  if Nat.ltb 0 (List.length nodes) then
    let workflow := toN8nWorkflow (workflowState v) "Generated Workflow" in
    let validation := Validator.validateWorkflow workflow in
    if negb (Validator.valid validation) then
      {| success := false;
         workflow := None;
         error := Some ("Generated workflow is invalid:" ++ Js.nl
                          ++ Js.join Js.nl (Validator.errors validation));
         validationWarnings := None;
         conversationLog := log v;
         model := modelId;
         validationAttempts := Some (attempts v);
         requiresHumanInput := Some true;
         humanInputReason :=
           Some "Maximum turns reached. Please simplify your request or provide more specific instructions." |}
    else
      {| success := true;
         workflow := Some workflow;
         error := None;
         validationWarnings := Some (Validator.warnings validation);
         conversationLog := log v;
         model := modelId;
         validationAttempts := Some (attempts v);
         requiresHumanInput := None;
         humanInputReason := None |}
  else
    {| success := false;
       workflow := None;
       error := Some "Max turns reached without completing the workflow.";
       validationWarnings := None;
       conversationLog := log v;
       model := modelId;
       validationAttempts := Some (attempts v);
       requiresHumanInput := Some true;
       humanInputReason :=
         Some "Unable to complete the workflow within the turn limit. Please try a simpler request." |}.

(** One turn of the [while] loop. *)
Definition turn (v : Vars) : Step * State :=
  match messages_create (messages v) with
  | ApiRejects e =>
      (Return (caught match e with
                      | Some m => m
                      | None => "Unknown error"
                      end (log v) (attempts v)),
       workflowState v)
  | ApiResponds response =>
      let '(log1, assistantContent, hasToolUse) :=
        read_blocks (content response) (log v) [] false in
      let messages1 :=
        List.app (messages v) [AssistantContent assistantContent] in
      let ended :=
        match stop_reason response with
        | Some r => String.eqb r "end_turn"
        | None => false
        end in
      if (negb hasToolUse || ended)%bool then
        (finalize {| messages := messages1; log := log1;
                     attempts := attempts v;
                     workflowState := workflowState v |},
         workflowState v)
      else
        match run_tools (content response) log1 [] (workflowState v) with
        | (Throw msg, log2, st') =>
            (Return (caught msg log2 (attempts v)), st')
        | (Normal toolResults, log2, st') =>
            (Continue
               {| messages :=
                    List.app messages1 [UserToolResults toolResults];
                  log := log2;
                  attempts := attempts v;
                  workflowState := st' |},
             st')
        end
  end.

(** [while (turnCount < MAX_TURNS)], by recursion on the turns left. *)
Fixpoint loop (turnsLeft : nat) (v : Vars) : BuildResult * State :=
  match turnsLeft with
  | O => (max_turns_reached v, workflowState v)
  | S turnsLeft' =>
      match turn v with
      | (Return r, st') => (r, st')
      | (Continue v', _) => loop turnsLeft' v'
      end
  end.

(** [buildWorkflow(userPrompt, { continueFrom })], started with the
    shared state manager in state [st]. *)
Definition buildWorkflow (st : State) (userPrompt : string)
    (continueFrom : option (list string)) : BuildResult * State :=
  loop MAX_TURNS
    {| messages := [UserText userPrompt];
       log := match continueFrom with Some l => l | None => [] end;
       attempts := 0;
       workflowState :=
         match continueFrom with Some _ => st | None => reset st end |}.

End Loop.

End Builder.

(** ** The rest of the validator ([src/workflow/validator.ts]) *)

(** [validateAndClean]: the workflow itself when it is valid (the
    warnings go to the console), an [Error] listing the errors
    otherwise. *)
Definition validateAndClean (workflow : N8nWorkflow)
  : Completion N8nWorkflow :=
  let result := Validator.validateWorkflow workflow in
  if negb (Validator.valid result) then
    Throw ("Invalid workflow:" ++ Js.nl
             ++ Js.join Js.nl (Validator.errors result))
  else Normal workflow.

(** ** The n8n client over HTTP ([src/tools/n8n-api.ts])

    [N8nApiClient] above is the client as the tools see it.  Here are its
    methods as the source writes them over [fetch]; [fetch], the renderings
    [JSON.stringify] and [String], the reading of a response body at its
    declared type and the message of the [SyntaxError] of a body that is
    not JSON are parameters. *)

Module N8nApi.

Record N8nApiConfig := {
  baseUrl : string;
  apiKey : string
}.

Record Request := {
  url : string;
  method : string;
  header_X_N8N_API_KEY : string;
  body : option string
}.

(** A response: [json] is what [response.json()] resolves to, [None]
    when the body is not JSON and the call rejects. *)
Record Response := {
  status : Z;
  statusText : string;
  json : option JsValue
}.

(** What [fetch] settles to: a response, or a rejection whose reason is
    an [Error] with a message ([Some]) or some other value. *)
Inductive FetchOutcome :=
| Fetched (response : Response)
| FetchFailed (errorMessage : option string).

(** [response.ok] *)
Definition ok (r : Response) : bool :=
  ((200 <=? status r) && (status r <=? 299))%bool.

(** [s.replace(/\/$/, '')] *)
Fixpoint strip_trailing_slash (s : string) : string :=
  match s with
  | EmptyString => EmptyString
  | String c EmptyString =>
      if Ascii.eqb c "/"%char then EmptyString else s
  | String c s' => String c (strip_trailing_slash s')
  end.

(** JavaScript truthiness of a parsed body. *)
Definition truthy (v : JsValue) : bool :=
  match v with
  | JUndefined | JNull => false
  | JBool b => b
  | JNum n => negb (Number.eqb n 0)
  | JStr s => negb (String.eqb s EmptyString)
  | JArr _ | JObj _ => true
  end.

Definition isRecoverableValidationError (message : string) : bool :=
  let lowerMessage := Js.toLowerCase message in
  if (Js.includes lowerMessage "credential"
      || Js.includes lowerMessage "authentication"
      || Js.includes lowerMessage "oauth"
      || Js.includes lowerMessage "api key")%bool
  then false
  else
    existsb (fun pattern => Js.includes lowerMessage pattern)
      [ "required"; "missing"; "invalid"; "unknown"; "not found";
        "parameter"; "property"; "type"; "connection"; "trigger" ].

Section Client.

Variable fetch : Request -> FetchOutcome.
Variable stringify_workflow : N8nWorkflow -> string.
Variable stringify_json : JsValue -> string.
Variable String_of : JsValue -> string.
Variable as_CreateWorkflowResponse : JsValue -> CreateWorkflowResponse.
Variable syntax_error_message : string.

Variable config : N8nApiConfig.

(** The fields the constructor sets. *)
Definition this_baseUrl : string := strip_trailing_slash (baseUrl config).
Definition this_apiKey : string := apiKey config.

Definition request (path method : string) (body : option string)
  : Settled Response :=
  match fetch {| url := this_baseUrl ++ path;
                 method := method;
                 header_X_N8N_API_KEY := this_apiKey;
                 body := body |} with
  | Fetched response => Resolved response
  | FetchFailed error =>
      Rejected
        (ThrownObject
           {| statusCode := 0;
              api_message :=
                "Network error: "
                ++ match error with
                   | Some m => m
                   | None => "Failed to connect to n8n"
                   end;
              errorType := NETWORK;
              recoverable := true;
              details := None |})
  end.

Definition extractValidationMessage (body : option JsValue) : string :=
  match body with
  | None => "Unknown validation error"
  | Some v =>
      if negb (truthy v) then "Unknown validation error"
      else
        match v with
        | JObj fields =>
            match JsMap.get "message" fields with
            | Some (JStr m) => m
            | _ =>
                match JsMap.get "error" fields with
                | Some (JStr e) => e
                | _ =>
                    match JsMap.get "errors" fields with
                    | Some (JArr (e :: es)) =>
                        Js.join "; " (map String_of (e :: es))
                    | _ => stringify_json v
                    end
                end
            end
        | JArr _ => stringify_json v
        | _ => "Unknown validation error"
        end
  end.

Definition parseError (response : Response) : N8nApiError :=
  let body := json response in
  if ((status response =? 401) || (status response =? 403))%bool then
    {| statusCode := status response;
       api_message := "n8n API authentication failed. Check N8N_API_KEY.";
       errorType := AUTHENTICATION;
       recoverable := false;
       details := body |}
  else if ((status response =? 400) || (status response =? 422))%bool then
    let message := extractValidationMessage body in
    {| statusCode := status response;
       api_message := "Workflow validation failed: " ++ message;
       errorType := VALIDATION;
       recoverable := isRecoverableValidationError message;
       details := body |}
  else if (status response =? 404) then
    {| statusCode := 404;
       api_message := "Workflow not found";
       errorType := NOT_FOUND;
       recoverable := false;
       details := body |}
  else if (status response =? 429) then
    {| statusCode := 429;
       api_message := "Rate limit exceeded. Please wait before retrying.";
       errorType := RATE_LIMIT;
       recoverable := true;
       details := body |}
  else
    {| statusCode := status response;
       api_message := "n8n server error: " ++ statusText response;
       errorType := SERVER_ERROR;
       recoverable := true;
       details := body |}.

Definition createWorkflow (workflow : N8nWorkflow)
  : Settled (option CreateWorkflowResponse) :=
  match request "/api/v1/workflows" "POST"
          (Some (stringify_workflow workflow)) with
  | Rejected reason => Rejected reason
  | Resolved response =>
      if negb (ok response) then
        Rejected (ThrownObject (parseError response))
      else
        match json response with
        | Some JNull => Resolved None
        | Some v => Resolved (Some (as_CreateWorkflowResponse v))
        | None => Rejected (ThrownError syntax_error_message)
        end
  end.

Definition deleteWorkflow (id : string) : Settled unit :=
  match request ("/api/v1/workflows/" ++ id) "DELETE" None with
  | Rejected reason => Rejected reason
  | Resolved response =>
      if negb (ok response) then
        Rejected (ThrownObject (parseError response))
      else Resolved tt
  end.

Definition healthCheck : bool :=
  match request "/api/v1/workflows?limit=1" "GET" None with
  | Resolved response => ok response
  | Rejected _ => false
  end.

(** [new N8nApiClient(config)], as the tools use it. *)
Definition client : N8nApiClient :=
  Build_N8nApiClient createWorkflow deleteWorkflow.

End Client.

End N8nApi.

(** ** Model names ([src/config/env.ts]) *)

Module Config.

Definition CLAUDE_MODELS : JsMap.t string string :=
  [ ("haiku", "claude-haiku-4-5-20251001");
    ("sonnet", "claude-sonnet-4-5-20250929");
    ("opus", "claude-opus-4-5-20251101") ].

Definition MODEL_IDS : list string := JsMap.values CLAUDE_MODELS.

(** What [resolveModelId] returns: a model id, or, for a name that the
    [in] operator finds among the members [CLAUDE_MODELS] inherits from
    [Object.prototype], that member, which is no string. *)
Inductive Resolution :=
| ModelId (id : string)
| InheritedValue.

Definition resolveModelId (model : string) : Resolution :=
  match JsMap.get model CLAUDE_MODELS with
  | Some id => ModelId id
  | None =>
      if existsb (String.eqb model) Tools.Object_prototype_members
      then InheritedValue
      else if existsb (String.eqb model) MODEL_IDS then ModelId model
      else ModelId "claude-haiku-4-5-20251001"
  end.

End Config.

(** ** The tool definitions sent to the model ([src/tools/index.ts]) *)

Module ToolCatalog.

Inductive JsonType := TString | TNumber | TObject.

Record ToolDefinition := {
  name : string;
  properties : list (string * JsonType);
  required : list string
}.

(** [getToolDefinitions()], without the descriptions. *)
Definition getToolDefinitions : list ToolDefinition :=
  [ {| name := "add_node";
       properties := [ ("type", TString); ("typeVersion", TNumber);
                       ("name", TString); ("parameters", TObject) ];
       required := ["type"; "typeVersion"; "name"] |};
    {| name := "connect_nodes";
       properties := [ ("sourceNode", TString); ("targetNode", TString);
                       ("sourceOutput", TNumber); ("targetInput", TNumber) ];
       required := ["sourceNode"; "targetNode"] |};
    {| name := "get_current_workflow";
       properties := [ ("name", TString) ];
       required := ["name"] |};
    {| name := "update_node_parameters";
       properties := [ ("nodeName", TString); ("parameters", TObject) ];
       required := ["nodeName"; "parameters"] |};
    {| name := "validate_workflow_with_n8n";
       properties := [ ("workflowName", TString) ];
       required := ["workflowName"] |};
    {| name := "create_workflow_in_n8n";
       properties := [ ("workflowName", TString) ];
       required := ["workflowName"] |} ].

End ToolCatalog.

(** * Specification vocabulary and sample inputs *)

Unset Implicit Arguments.

Import WorkflowStateManager.
Import Validator.

(** What holds of the two maps in every state a manager goes through: keys
    are unique, a node is stored under its own name, and no source is kept
    with an empty edge list. *)
Record Inv (st : State) : Prop := {
  inv_nodes_nodup : NoDup (JsMap.keys (nodes st));
  inv_nodes_names : forall k n, In (k, n) (nodes st) -> node_name n = k;
  inv_conns_nodup : NoDup (JsMap.keys (connections st));
  inv_conns_nonempty :
    forall k conns, In (k, conns) (connections st) -> conns <> []
}.

(** What is left of one entry of the connection map once the edges to
    [name] are gone: nothing, or the entry with the remaining edges. *)
Definition pruned (name : string) (entry : string * list InternalConnection)
  : list (string * list InternalConnection) :=
  let filtered := filter (fun c => negb (String.eqb (target c) name)) (snd entry) in
  if Nat.eqb (List.length filtered) 0 then [] else [(fst entry, filtered)].

(** The edges of [conns] leaving output [k], in insertion order. *)
Definition edges_of_output (k : number) (conns : list InternalConnection)
  : list InternalConnection :=
  filter (fun c => Number.eqb (sourceOutput c) k) conns.

(** The serialized form of one entry of the connection map. *)
Definition serialize_entry (entry : string * list InternalConnection)
  : string * N8nNodeConnections :=
  (fst entry, {| nc_main := mainConnections (snd entry) |}).

(** Operations that never take a node away. *)
Definition grow_only (op : Op) : Prop :=
  match op with
  | OpRemoveNode _ | OpReset => False
  | _ => True
  end.

(** The grid cells of [count] consecutive indices from [first]. *)
Definition grid_cells (first count : nat) : list (Z * Z) :=
  map (fun i => grid (Z.of_nat i)) (seq first count).

(** Sample inputs. *)
Definition plain_node (type name : string) : AddNodeInput :=
  {| in_type := type; in_typeVersion := 1; in_name := name;
     in_parameters := None; in_credentials := None |}.

Definition edge (source target : string) (output : Z) : ConnectNodesInput :=
  {| in_sourceNode := source; in_targetNode := target;
     in_sourceOutput := Some (Int output); in_targetInput := None;
     in_connectionType := None |}.

(** Add A, add B, remove A, add C. *)
Definition remove_then_add : list Op :=
  [ OpAddNode (plain_node "n8n-nodes-base.webhook" "A");
    OpAddNode (plain_node "n8n-nodes-base.set" "B");
    OpRemoveNode "A";
    OpAddNode (plain_node "n8n-nodes-base.slack" "C") ].

(** Two nodes and one edge leaving output -2. *)
Definition negative_output : list Op :=
  [ OpAddNode (plain_node "n8n-nodes-base.webhook" "A");
    OpAddNode (plain_node "n8n-nodes-base.set" "B");
    OpConnectNodes (edge "A" "B" (-2)) ].

(** A branching source: outputs 0 and 1 of A go to B and C. *)
Definition branching : list Op :=
  [ OpAddNode (plain_node "n8n-nodes-base.if" "A");
    OpAddNode (plain_node "n8n-nodes-base.set" "B");
    OpAddNode (plain_node "n8n-nodes-base.slack" "C");
    OpConnectNodes (edge "A" "B" 0);
    OpConnectNodes (edge "A" "C" 1) ].

Definition one_node : list Op :=
  [ OpAddNode (plain_node "n8n-nodes-base.webhook" "A") ].

(** A chain Start -> Middle -> End. *)
Definition chain : list Op :=
  [ OpAddNode (plain_node "n8n-nodes-base.webhook" "Start");
    OpAddNode (plain_node "n8n-nodes-base.set" "Middle");
    OpAddNode (plain_node "n8n-nodes-base.slack" "End");
    OpConnectNodes (edge "Start" "Middle" 0);
    OpConnectNodes (edge "Middle" "End" 0) ].

Definition connection_target (node : string) (type : N8nConnectionType)
    (index : Z) : N8nConnectionTarget :=
  {| ct_node := node; ct_type := type; ct_index := index |}.

Definition internal_edge (target : string) (output input : Z)
    (type : N8nConnectionType) : InternalConnection :=
  {| target := target; sourceOutput := output; targetInput := input;
     connectionType := type |}.

(** Two nodes and one edge leaving output 1.5. *)
Definition fractional_output : list Op :=
  [ OpAddNode (plain_node "n8n-nodes-base.webhook" "A");
    OpAddNode (plain_node "n8n-nodes-base.set" "B");
    OpConnectNodes
      {| in_sourceNode := "A"; in_targetNode := "B";
         in_sourceOutput := Some (Frac 1 1); in_targetInput := None;
         in_connectionType := None |} ].

(** The letters of the alphabet, each capital with its small letter. *)
Definition letters : list (ascii * ascii) :=
  combine (list_ascii_of_string "ABCDEFGHIJKLMNOPQRSTUVWXYZ")
          (list_ascii_of_string "abcdefghijklmnopqrstuvwxyz").

(** [c] and [d] are the same character up to the case of a letter. *)
Definition same_letter (c d : ascii) : Prop :=
  c = d \/ In (c, d) letters \/ In (d, c) letters.

(** [s] and [t] are the same string up to the case of their letters. *)
Inductive equal_ci : string -> string -> Prop :=
| equal_ci_empty : equal_ci EmptyString EmptyString
| equal_ci_char (c d : ascii) (s t : string) :
    same_letter c d -> equal_ci s t -> equal_ci (String c s) (String d t).

(** [s] has a substring that is [pat] up to the case of its letters. *)
Definition contains_ci (s pat : string) : Prop :=
  exists pre mid post, s = pre ++ mid ++ post /\ equal_ci mid pat.

(** [s] ends in a suffix that is [pat] up to the case of its letters. *)
Definition ends_with_ci (s pat : string) : Prop :=
  exists pre suf, s = pre ++ suf /\ equal_ci suf pat.

Definition trigger_like (type : string) : Prop :=
  contains_ci type "trigger" \/ contains_ci type "webhook"
  \/ ends_with_ci type ".cron".


(** The error the schema reports for an empty [nodes] array. *)
Definition at_least_one_node_error : string :=
  "nodes: Workflow must have at least one node".

(** A single node that is no trigger. *)
Definition lonely_node : list Op :=
  [ OpAddNode (plain_node "n8n-nodes-base.set" "Set") ].


(** A configuration without n8n credentials and with the default retry
    budget. *)
Definition default_env : Env :=
  {| ANTHROPIC_API_KEY := "sk-ant-test";
     N8N_API_KEY := None;
     N8N_BASE_URL := "http://localhost:5678";
     CLAUDE_MODEL := "haiku";
     MAX_VALIDATION_RETRIES := default_MAX_VALIDATION_RETRIES |}.

(** A service that cannot be reached. *)
Definition unreachable_service : N8nApiClient :=
  {| createWorkflow := fun _ => Rejected (ThrownError "fetch failed");
     deleteWorkflow := fun _ => Rejected (ThrownError "fetch failed") |}.

Definition slack_without_namespace : JsValue :=
  JObj [ ("type", JStr "slack"); ("typeVersion", JNum 1);
         ("name", JStr "Slack") ].

(** A model that adds one node whose type lacks the namespace prefix and
    from then on answers every message, retry prompts included, with text
    only. *)
Definition stubborn_model (messages : list Builder.Message)
  : Builder.ApiOutcome :=
  match messages with
  | [Builder.UserText _] =>
      Builder.ApiResponds
        {| Builder.content :=
             [Builder.ToolUseBlock "toolu_1" "add_node" slack_without_namespace];
           Builder.stop_reason := Some "tool_use" |}
  | _ =>
      Builder.ApiResponds
        {| Builder.content := [Builder.TextBlock "The workflow is ready."];
           Builder.stop_reason := Some "end_turn" |}
  end.

Definition plain_zod_message (tool : Tools.ToolName) (args : JsValue)
  : string := "[]".

Definition plain_stringify {A : Type} (x : A) : string := "{}".

(** The run of [buildWorkflow] against [stubborn_model]. *)
Definition stubborn_run : Builder.BuildResult :=
  fst (Builder.buildWorkflow default_env "claude-haiku-4-5-20251001"
         stubborn_model unreachable_service "2026-01-01T00:00:00.000Z"
         plain_zod_message plain_stringify plain_stringify plain_stringify
         init "Post a message to Slack" None).

Definition type_prefix_error : string :=
  "nodes.0.type: Node type must start with 'n8n-nodes-base.' or '@n8n/n8n-nodes-langchain.'".

(** The workflow the loop validates and the text of its errors. *)
Definition workflow_of (v : Builder.Vars) : N8nWorkflow :=
  toN8nWorkflow (Builder.workflowState v) "Generated Workflow".

Definition errorMsg_of (v : Builder.Vars) : string :=
  Js.join Js.nl
    (Validator.errors (Validator.validateWorkflow (workflow_of v))).

(** The edges stored for [source]; none when the source has no entry. *)
Definition edges_from (st : State) (source : string)
  : list InternalConnection :=
  match JsMap.get source (connections st) with
  | Some l => l
  | None => []
  end.

(** What [connectNodes] compares to detect a duplicate: target, output
    index and input index; the connection type is not compared. *)
Definition edge_key (c : InternalConnection) : string * number * number :=
  (target c, sourceOutput c, targetInput c).

Definition input_key (input : ConnectNodesInput)
  : string * number * number :=
  (in_targetNode input, or0 (in_sourceOutput input),
   or0 (in_targetInput input)).

(** The edge a successful [connectNodes] stores. *)
Definition new_edge (input : ConnectNodesInput) : InternalConnection :=
  {| target := in_targetNode input;
     sourceOutput := or0 (in_sourceOutput input);
     targetInput := or0 (in_targetInput input);
     connectionType :=
       match in_connectionType input with
       | Some t => t
       | None => main
       end |}.

Definition already_exists_message (input : ConnectNodesInput) : string :=
  "Connection from " ++ Js.quoted (in_sourceNode input) ++ " to "
    ++ Js.quoted (in_targetNode input) ++ " already exists".

(** The node a successful [addNode] builds in state [st]. *)
Definition new_node (st : State) (input : AddNodeInput) : N8nNode :=
  {| node_id := "node_" ++ Js.showZ (nodeCounter st + 1);
     node_name := in_name input;
     node_type := in_type input;
     typeVersion := in_typeVersion input;
     position := grid (Z.of_nat (JsMap.size (nodes st)));
     parameters :=
       match in_parameters input with
       | Some p => p
       | None => JsMap.empty
       end;
     credentials := in_credentials input |}.

(** Operations other than [reset]. *)
Definition no_reset (op : Op) : Prop :=
  match op with
  | OpReset => False
  | _ => True
  end.

(** Further facts about every state a manager goes through: the edges of
    a source differ in target, output or input; sources and targets are
    nodes that are present; the id of a node is node_<k> for a k between 1
    and the counter, and ids are not shared. *)
Record Graph (st : State) : Prop := {
  graph_edges_distinct :
    forall s l, In (s, l) (connections st) -> NoDup (map edge_key l);
  graph_sources_present :
    forall s l, In (s, l) (connections st) -> JsMap.has s (nodes st) = true;
  graph_targets_present :
    forall s l c, In (s, l) (connections st) -> In c l ->
                  JsMap.has (target c) (nodes st) = true;
  graph_ids :
    forall k n, In (k, n) (nodes st) ->
                exists i, 1 <= i <= nodeCounter st
                          /\ node_id n = "node_" ++ Js.showZ i;
  graph_ids_distinct : NoDup (map node_id (getNodes st));
  graph_counter : 0 <= nodeCounter st
}.

(** A manager with two connected nodes. *)
Definition two_connected : list Op :=
  [ OpAddNode (plain_node "n8n-nodes-base.webhook" "Webhook");
    OpAddNode (plain_node "n8n-nodes-base.slack" "Slack");
    OpConnectNodes (edge "Webhook" "Slack" 0) ].

(** A node with two parameters. *)
Definition http_node : AddNodeInput :=
  {| in_type := "n8n-nodes-base.httpRequest"; in_typeVersion := 4;
     in_name := "Request";
     in_parameters := Some [("url", JStr "https://a.example");
                            ("method", JStr "GET")];
     in_credentials := None |}.

(** A number that is a positive integer, a non-negative integer. *)
Definition positive_integer (n : number) : Prop :=
  exists z : Z, n = Int z /\ 0 < z.

Definition non_negative_integer (n : number) : Prop :=
  exists z : Z, n = Int z /\ 0 <= z.

(** What the schema asks of a node, of a connection target and of a
    workflow. *)
Definition node_well_formed (n : N8nNode) : Prop :=
  node_id n <> EmptyString
  /\ node_name n <> EmptyString
  /\ (exists rest,
         node_type n = "n8n-nodes-base." ++ rest
         \/ node_type n = "@n8n/n8n-nodes-langchain." ++ rest)
  /\ positive_integer (typeVersion n).

Definition target_well_formed (t : N8nConnectionTarget) : Prop :=
  ct_node t <> EmptyString /\ non_negative_integer (ct_index t).

(** [t] is a target serialized under the source [source]. *)
Definition wired (w : N8nWorkflow) (source : string)
    (t : N8nConnectionTarget) : Prop :=
  exists entry slot,
    In (source, entry) (wf_connections w)
    /\ In slot (nc_main entry) /\ In t slot.

Definition structurally_valid (w : N8nWorkflow) : Prop :=
  wf_name w <> EmptyString
  /\ wf_nodes w <> []
  /\ (forall n, In n (wf_nodes w) -> node_well_formed n)
  /\ (forall source t, wired w source t -> target_well_formed t)
  /\ executionOrder (wf_settings w) = "v1".

Definition node_names (w : N8nWorkflow) : list string :=
  map node_name (wf_nodes w).

(** Names and ids are not shared and every connection runs between
    nodes of the workflow. *)
Definition semantically_valid (w : N8nWorkflow) : Prop :=
  NoDup (node_names w)
  /\ NoDup (map node_id (wf_nodes w))
  /\ (forall source entry,
         In (source, entry) (wf_connections w) -> In source (node_names w))
  /\ (forall source t, wired w source t -> In (ct_node t) (node_names w)).

Definition duplicate_node_name_error (name : string) : string :=
  "Duplicate node name: " ++ Js.quoted name.

Definition missing_target_error (target source : string) : string :=
  "Connection target " ++ Js.quoted target ++ " (from " ++ Js.quoted source
    ++ ") does not exist as a node".

Definition missing_source_error (source : string) : string :=
  "Connection source " ++ Js.quoted source ++ " does not exist as a node".

Definition orphan_warning (name : string) : string :=
  "Node " ++ Js.quoted name ++ " has no incoming connections".

Definition sample_node (id name type : string) : N8nNode :=
  {| node_id := id; node_name := name; node_type := type; typeVersion := 1;
     position := (100, 100); parameters := []; credentials := None |}.

(** The double written 4.2: 4 plus a binary fraction of 50 digits. *)
Definition four_point_two : number := Frac 4 788129934789836.

(** A single HTTP request node of version 4.2. *)
Definition versioned_4_2 : N8nWorkflow :=
  {| wf_name := "W";
     wf_nodes :=
       [ {| node_id := "1"; node_name := "HTTP Request";
            node_type := "n8n-nodes-base.httpRequest";
            typeVersion := four_point_two; position := (100, 100);
            parameters := []; credentials := None |} ];
     wf_connections := [];
     wf_settings := {| executionOrder := "v1" |} |}.

(** Two nodes called X, as a deserialized workflow can have them. *)
Definition twice_X : N8nWorkflow :=
  {| wf_name := "W";
     wf_nodes := [ sample_node "1" "X" "n8n-nodes-base.webhook";
                   sample_node "2" "X" "n8n-nodes-base.set" ];
     wf_connections := [];
     wf_settings := {| executionOrder := "v1" |} |}.

(** A connection to a node that is not there. *)
Definition dangling : N8nWorkflow :=
  {| wf_name := "W";
     wf_nodes := [ sample_node "1" "A" "n8n-nodes-base.webhook";
                   sample_node "2" "B" "n8n-nodes-base.set" ];
     wf_connections :=
       [("A", {| nc_main := [[connection_target "Ghost" main 0]] |})];
     wf_settings := {| executionOrder := "v1" |} |}.

(** Three nodes: a trigger wired to B, and C without incoming edge. *)
Definition with_orphan : N8nWorkflow :=
  {| wf_name := "W";
     wf_nodes := [ sample_node "1" "A" "n8n-nodes-base.webhook";
                   sample_node "2" "B" "n8n-nodes-base.set";
                   sample_node "3" "C" "n8n-nodes-base.slack" ];
     wf_connections :=
       [("A", {| nc_main := [[connection_target "B" main 0]] |})];
     wf_settings := {| executionOrder := "v1" |} |}.

(** What is left to the caller for the serialized state to be valid. *)
Definition node_acceptable (n : N8nNode) : Prop :=
  node_name n <> EmptyString
  /\ (exists rest,
         node_type n = "n8n-nodes-base." ++ rest
         \/ node_type n = "@n8n/n8n-nodes-langchain." ++ rest)
  /\ positive_integer (typeVersion n).

(** A tool call as the model requests it. *)
Record ToolCall := {
  call_name : string;
  call_args : JsValue
}.

(** The state after a sequence of tool calls that all returned. *)
Definition after_calls (env : Env)
    (zod_error_message : Tools.ToolName -> JsValue -> string) (now : string)
    (n8nClient : option N8nApiClient) (calls : list ToolCall) (st : State)
  : State :=
  fold_left
    (fun s call =>
       snd (Tools.executeToolAsync env zod_error_message now n8nClient s
              (call_name call) (call_args call)))
    calls st.

(** The tools that write to the state manager. *)
Definition writes_state (tool : Tools.ToolName) : bool :=
  match tool with
  | Tools.add_node | Tools.connect_nodes | Tools.update_node_parameters => true
  | _ => false
  end.

Definition failed (outcome : Completion Tools.ToolResult) : Prop :=
  match outcome with
  | Throw _ => True
  | Normal result => Tools.success result = false
  end.

Definition add_slack_args : JsValue :=
  JObj [ ("type", JStr "n8n-nodes-base.slack"); ("typeVersion", JNum 2);
         ("name", JStr "Slack") ].

Definition connect_args (source target : string) : JsValue :=
  JObj [ ("sourceNode", JStr source); ("targetNode", JStr target) ].

(** A service that accepts every workflow. *)
Definition accepting_service : N8nApiClient :=
  {| createWorkflow :=
       fun w => Resolved (Some {| resp_id := "42"; resp_name := wf_name w;
                                  resp_active := false |});
     deleteWorkflow := fun _ => Resolved tt |}.

(** The operations a tool call can cause: [addNode] without credentials,
    [connectNodes] without a connection type, [updateNodeParameters]. *)
Definition tool_op (op : Op) : Prop :=
  match op with
  | OpAddNode input => in_credentials input = None
  | OpConnectNodes input => in_connectionType input = None
  | OpUpdateNodeParameters _ _ => True
  | OpRemoveNode _ | OpReset => False
  end.

(** No node carries credentials and every edge is of type main. *)
Definition plain_graph (st : State) : Prop :=
  (forall n, In n (getNodes st) -> credentials n = None)
  /\ (forall source c, In c (edges_from st source) -> connectionType c = main).

Definition webhook_args : JsValue :=
  JObj [ ("type", JStr "n8n-nodes-base.webhook"); ("typeVersion", JNum 1);
         ("name", JStr "Webhook") ].

(** A model that adds a webhook node and then declares the work done. *)
Definition helpful_model (messages : list Builder.Message)
  : Builder.ApiOutcome :=
  match messages with
  | [Builder.UserText _] =>
      Builder.ApiResponds
        {| Builder.content :=
             [Builder.TextBlock "Adding a webhook.";
              Builder.ToolUseBlock "toolu_1" "add_node" webhook_args];
           Builder.stop_reason := Some "tool_use" |}
  | _ =>
      Builder.ApiResponds
        {| Builder.content := [Builder.TextBlock "Done."];
           Builder.stop_reason := Some "end_turn" |}
  end.

(** The run of [buildWorkflow] against [helpful_model], continuing a
    conversation with one logged line. *)
Definition helpful_run : Builder.BuildResult * State :=
  Builder.buildWorkflow default_env "claude-haiku-4-5-20251001"
    helpful_model unreachable_service "2026-01-01T00:00:00.000Z"
    plain_zod_message plain_stringify plain_stringify plain_stringify
    init "Start on a webhook" (Some ["User: hello"]).

(** A build result is well formed for the state the run ends in: a
    success carries the serialization of that state, which is valid and
    has a node, with its warnings and no error; a failure carries an error
    text and no workflow. *)
Definition result_well_formed (r : Builder.BuildResult) (st : State) : Prop :=
  (Builder.success r = true ->
   Builder.workflow r = Some (toN8nWorkflow st "Generated Workflow")
   /\ Validator.valid
        (Validator.validateWorkflow (toN8nWorkflow st "Generated Workflow"))
      = true
   /\ getNodes st <> []
   /\ Builder.validationWarnings r
      = Some (Validator.warnings
                (Validator.validateWorkflow
                   (toN8nWorkflow st "Generated Workflow")))
   /\ Builder.error r = None)
  /\ (Builder.success r = false ->
      Builder.workflow r = None /\ exists e, Builder.error r = Some e).

(** The lines of [l] start with those of [l0]. *)
Definition extends_log (l0 l : list string) : Prop :=
  exists more, l = (l0 ++ more)%list.

(** What a turn hands on or returns. *)
Record TurnFacts (env : Env) (v : Builder.Vars) (r : Builder.BuildResult) (st : State)
  : Prop := {
  tf_well_formed : result_well_formed r st;
  tf_log : extends_log (Builder.log v) (Builder.conversationLog r);
  tf_attempts :
    Builder.validationAttempts r = Some (Builder.attempts v)
    \/ (Builder.validationAttempts r = Some (Builder.attempts v + 1)
        /\ Builder.success r = false
        /\ (Builder.recoverable
              (Builder.analyzeValidationError (errorMsg_of v)) = false
            \/ Builder.maxRetries env <= Builder.attempts v + 1))
}.

(** The bounds on the attempt counter a turn keeps. *)
Definition within_budget (env : Env) (v : Builder.Vars) : Prop :=
  Builder.attempts v = 0
  \/ (0 < Builder.attempts v /\ Builder.attempts v < Builder.maxRetries env).





(** A value has a type of the JSON schemas of the tool definitions. *)
Definition has_type (ty : ToolCatalog.JsonType) (v : JsValue) : Prop :=
  match ty with
  | ToolCatalog.TString => exists s, v = JStr s
  | ToolCatalog.TNumber => exists n, v = JNum n
  | ToolCatalog.TObject => exists r, v = JObj r
  end.

(** [args] conforms to the input schema of a tool definition: an object
    whose declared properties have their declared types, the properties
    that are not required being allowed to be absent. *)
Definition conforms (d : ToolCatalog.ToolDefinition) (args : JsValue) : Prop :=
  exists fields,
    args = JObj fields
    /\ forall p ty,
        In (p, ty) (ToolCatalog.properties d) ->
        has_type ty (Tools.prop p fields)
        \/ (Tools.prop p fields = JUndefined
            /\ ~ In p (ToolCatalog.required d)).

Definition sample_config : N8nApi.N8nApiConfig :=
  {| N8nApi.baseUrl := "http://localhost:5678/";
     N8nApi.apiKey := "n8n_api_0123456789" |}.



(** A service that answers every request with status 200 and the body
    [null]. *)
Definition null_fetch (request : N8nApi.Request) : N8nApi.FetchOutcome :=
  N8nApi.Fetched
    {| N8nApi.status := 200;
       N8nApi.statusText := "OK";
       N8nApi.json := Some JNull |}.

Definition read_response (v : JsValue) : CreateWorkflowResponse :=
  {| resp_id := match v with
                | JObj fields =>
                    match Tools.prop "id" fields with
                    | JStr s => s
                    | _ => EmptyString
                    end
                | _ => EmptyString
                end;
     resp_name := "Generated Workflow";
     resp_active := false |}.

Definition validate_args : JsValue :=
  JObj [("workflowName", JStr "Generated Workflow")].

(** * Properties *)

Section JsMapFacts.
Context {K V : Type} `{KeyEq K}.
Implicit Types (m : JsMap.t K V) (k : K) (v : V).

Lemma key_eqb_refl k : key_eqb k k = true.
Proof. destruct (key_eqb_spec k k); congruence. Qed.

Lemma key_eqb_neq k k' : k <> k' -> key_eqb k k' = false.
Proof. intro Hn. destruct (key_eqb_spec k k'); congruence. Qed.

Lemma get_set k v m i :
  JsMap.get i (JsMap.set k v m) = if key_eqb k i then Some v else JsMap.get i m.
Proof.
  induction m as [|[k' v'] m IH]; simpl.
  - reflexivity.
  - destruct (key_eqb_spec k' k) as [->|Hne]; simpl.
    + destruct (key_eqb k i); reflexivity.
    + destruct (key_eqb_spec k' i) as [->|Hne'].
      * rewrite key_eqb_neq by congruence. reflexivity.
      * exact IH.
Qed.

Lemma get_None_keys k m : JsMap.get k m = None <-> ~ In k (JsMap.keys m).
Proof.
  induction m as [|[k' v'] m IH]; simpl.
  - tauto.
  - destruct (key_eqb_spec k' k) as [->|Hne].
    + split; [discriminate | intros Hn; exfalso; apply Hn; now left].
    + rewrite IH. tauto.
Qed.

Lemma get_Some_In k v m : JsMap.get k m = Some v -> In (k, v) m.
Proof.
  induction m as [|[k' v'] m IH]; simpl; [discriminate|].
  destruct (key_eqb_spec k' k) as [->|Hne].
  - intros [= ->]. now left.
  - intros Hg. right. now apply IH.
Qed.

Lemma In_get_Some k v m :
  NoDup (JsMap.keys m) -> In (k, v) m -> JsMap.get k m = Some v.
Proof.
  induction m as [|[k' v'] m IH]; simpl; [tauto|].
  intros Hnd [Heq|Hin]; inversion Hnd as [|? ? Hni Hnd']; subst.
  - inversion Heq; subst. now rewrite key_eqb_refl.
  - destruct (key_eqb_spec k' k) as [->|Hne].
    + exfalso. apply Hni. change k with (fst (k, v)). now apply in_map.
    + now apply IH.
Qed.

Lemma has_true_keys k m : JsMap.has k m = true <-> In k (JsMap.keys m).
Proof.
  unfold JsMap.has. destruct (JsMap.get k m) eqn:Hg.
  - split; [intros _|reflexivity].
    apply get_Some_In in Hg. change k with (fst (k, v)). now apply in_map.
  - apply get_None_keys in Hg. split; [discriminate|tauto].
Qed.

Lemma set_absent k v m :
  ~ In k (JsMap.keys m) -> JsMap.set k v m = (m ++ [(k, v)])%list.
Proof.
  induction m as [|[k' v'] m IH]; simpl; intros Hni.
  - reflexivity.
  - rewrite key_eqb_neq by tauto. f_equal. apply IH. tauto.
Qed.

Lemma set_present_app k v v0 (pre suf : JsMap.t K V) :
  ~ In k (JsMap.keys pre) ->
  JsMap.set k v (pre ++ (k, v0) :: suf)%list = (pre ++ (k, v) :: suf)%list.
Proof.
  induction pre as [|[k' v'] pre IH]; simpl; intros Hni.
  - now rewrite key_eqb_refl.
  - rewrite key_eqb_neq by tauto. f_equal. apply IH. tauto.
Qed.

Lemma keys_set k v m :
  JsMap.keys (JsMap.set k v m) =
  if JsMap.has k m then JsMap.keys m else (JsMap.keys m ++ [k])%list.
Proof.
  unfold JsMap.has.
  induction m as [|[k' v'] m IH]; simpl.
  - reflexivity.
  - destruct (key_eqb_spec k' k) as [->|Hne]; simpl.
    + reflexivity.
    + rewrite IH. destruct (JsMap.get k m); reflexivity.
Qed.

Lemma NoDup_keys_set k v m :
  NoDup (JsMap.keys m) -> NoDup (JsMap.keys (JsMap.set k v m)).
Proof.
  intros Hnd. rewrite keys_set.
  destruct (JsMap.has k m) eqn:Hh; [assumption|].
  assert (~ In k (JsMap.keys m)) as Hni.
  { rewrite <- has_true_keys. congruence. }
  apply NoDup_app; [assumption| repeat constructor; simpl; tauto |].
  intros x Hx [<-|[]]. tauto.
Qed.

Lemma In_set k v m e :
  In e (JsMap.set k v m) -> e = (k, v) \/ In e m.
Proof.
  induction m as [|[k' v'] m IH]; simpl.
  - intros [<-|[]]. now left.
  - destruct (key_eqb_spec k' k) as [->|Hne]; simpl.
    + intros [<-|Hin]; [now left | right; now right].
    + intros [<-|Hin]; [right; now left|].
      destruct (IH Hin); [now left | right; now right].
Qed.

Lemma In_delete k m e :
  In e (JsMap.delete k m) <-> In e m /\ fst e <> k.
Proof.
  unfold JsMap.delete. rewrite filter_In.
  destruct (key_eqb_spec (fst e) k); simpl; intuition congruence.
Qed.

Lemma keys_delete k m :
  JsMap.keys (JsMap.delete k m) =
  filter (fun k' => negb (key_eqb k' k)) (JsMap.keys m).
Proof.
  unfold JsMap.delete, JsMap.keys.
  induction m as [|[k' v'] m IH]; simpl; [reflexivity|].
  destruct (key_eqb k' k); simpl; now rewrite IH.
Qed.

Lemma NoDup_keys_delete k m :
  NoDup (JsMap.keys m) -> NoDup (JsMap.keys (JsMap.delete k m)).
Proof. intros Hnd. rewrite keys_delete. now apply NoDup_filter. Qed.

Lemma not_In_keys_delete k m : ~ In k (JsMap.keys (JsMap.delete k m)).
Proof.
  rewrite keys_delete, filter_In. intros [_ Hk].
  now rewrite key_eqb_refl in Hk.
Qed.

Lemma delete_absent k m :
  ~ In k (JsMap.keys m) -> JsMap.delete k m = m.
Proof.
  unfold JsMap.delete.
  induction m as [|[k' v'] m IH]; simpl; intros Hni; [reflexivity|].
  rewrite key_eqb_neq by tauto. simpl. f_equal. apply IH. tauto.
Qed.

Lemma delete_app k (a b : JsMap.t K V) :
  JsMap.delete k (a ++ b)%list = (JsMap.delete k a ++ JsMap.delete k b)%list.
Proof. unfold JsMap.delete. apply filter_app. Qed.

End JsMapFacts.

Lemma prune_fold name (suf pre : JsMap.t string (list InternalConnection)) :
  NoDup (JsMap.keys (pre ++ suf)%list) ->
  fold_left (prune_entry name) suf (pre ++ suf)%list
  = (pre ++ flat_map (pruned name) suf)%list.
Proof.
  revert pre. induction suf as [|[s c] suf IH]; intros pre Hnd; simpl.
  - reflexivity.
  - unfold JsMap.keys in Hnd. rewrite map_app in Hnd. simpl in Hnd.
    pose proof (NoDup_remove_1 _ _ _ Hnd) as Hnd1.
    pose proof (NoDup_remove_2 _ _ _ Hnd) as Hni.
    assert (~ In s (JsMap.keys pre)) as Hpre.
    { intro Hin. apply Hni. apply in_or_app. now left. }
    assert (~ In s (JsMap.keys suf)) as Hsuf.
    { intro Hin. apply Hni. apply in_or_app. now right. }
    unfold pruned at 1. simpl.
    destruct (Nat.eqb _ 0) eqn:Hlen.
    + rewrite delete_app. simpl.
      rewrite String.eqb_refl. simpl.
      rewrite !delete_absent by assumption.
      apply IH. unfold JsMap.keys. now rewrite map_app.
    + rewrite set_present_app by assumption.
      change (pre ++ (s, filter (fun c0 => negb (target c0 =? name)%string) c) :: suf)%list
        with (pre ++ [(s, filter (fun c0 => negb (target c0 =? name)%string) c)] ++ suf)%list.
      rewrite app_assoc. rewrite IH.
      * now rewrite <- app_assoc.
      * unfold JsMap.keys. rewrite !map_app. simpl. rewrite <- app_assoc. simpl.
        exact Hnd.
Qed.

Lemma removeNode_connections st name :
  NoDup (JsMap.keys (connections st)) ->
  JsMap.has name (nodes st) = true ->
  connections (snd (removeNode st name))
  = flat_map (pruned name) (JsMap.delete name (connections st)).
Proof.
  intros Hnd Hhas. unfold removeNode. rewrite Hhas. simpl.
  unfold JsMap.entries.
  apply (prune_fold name (JsMap.delete name (connections st)) []).
  simpl. now apply NoDup_keys_delete.
Qed.

Lemma keys_flat_map_pruned name m k :
  In k (JsMap.keys (flat_map (pruned name) m)) -> In k (JsMap.keys m).
Proof.
  unfold JsMap.keys. rewrite !in_map_iff.
  intros [[k' v] [<- Hin]]. apply in_flat_map in Hin as [[s c] [Hin Hp]].
  unfold pruned in Hp. simpl in Hp.
  destruct (Nat.eqb _ 0); [destruct Hp|].
  destruct Hp as [[= <- <-]|[]]. exists (s, c). auto.
Qed.

Lemma NoDup_keys_flat_map_pruned name m :
  NoDup (JsMap.keys m) -> NoDup (JsMap.keys (flat_map (pruned name) m)).
Proof.
  induction m as [|[s c] m IH]; simpl; intros Hnd; [constructor|].
  inversion Hnd as [|? ? Hni Hnd']; subst.
  unfold pruned at 1. simpl.
  destruct (Nat.eqb _ 0); simpl; [now apply IH|].
  constructor; [|now apply IH].
  intro Hin. apply Hni. eapply keys_flat_map_pruned; eauto.
Qed.

Lemma In_pruned name m k v :
  In (k, v) (flat_map (pruned name) m) <->
  exists conns,
    In (k, conns) m
    /\ v = filter (fun c => negb (String.eqb (target c) name)) conns
    /\ v <> [].
Proof.
  rewrite in_flat_map. split.
  - intros [[s c] [Hin Hp]]. unfold pruned in Hp. simpl in Hp.
    destruct (filter _ c) as [|x l] eqn:Hf; simpl in Hp; [destruct Hp|].
    destruct Hp as [[= <- <-]|[]]. exists c. rewrite Hf. repeat split; auto.
    discriminate.
  - intros [conns (Hin & -> & Hne)]. exists (k, conns). split; [assumption|].
    unfold pruned. simpl.
    destruct (filter _ conns); [congruence|]. simpl. now left.
Qed.

Lemma Inv_init : Inv init.
Proof. split; simpl; try constructor; intros k n []. Qed.

Lemma Inv_addNode st input : Inv st -> Inv (snd (addNode st input)).
Proof.
  intros [H1 H2 H3 H4]. unfold addNode.
  destruct (JsMap.has (in_name input) (nodes st)) eqn:Hh; simpl.
  - now split.
  - split; simpl.
    + now apply NoDup_keys_set.
    + intros k n Hin. apply In_set in Hin as [[= -> ->]|Hin]; [reflexivity|].
      now apply H2.
    + assumption.
    + assumption.
Qed.

Lemma Inv_removeNode st name : Inv st -> Inv (snd (removeNode st name)).
Proof.
  intros [H1 H2 H3 H4].
  destruct (JsMap.has name (nodes st)) eqn:Hh.
  - split.
    + unfold removeNode. rewrite Hh. simpl. now apply NoDup_keys_delete.
    + unfold removeNode. rewrite Hh. simpl. intros k n Hin.
      apply In_delete in Hin as [Hin _]. now apply H2.
    + rewrite removeNode_connections by assumption.
      apply NoDup_keys_flat_map_pruned. now apply NoDup_keys_delete.
    + rewrite removeNode_connections by assumption.
      intros k conns Hin. now apply In_pruned in Hin as [c (_ & _ & Hne)].
  - unfold removeNode. rewrite Hh. simpl. now split.
Qed.

Lemma Inv_connectNodes st input : Inv st -> Inv (snd (connectNodes st input)).
Proof.
  intros [H1 H2 H3 H4]. unfold connectNodes.
  destruct (JsMap.get (in_sourceNode input) (nodes st)); [|now split].
  destruct (JsMap.get (in_targetNode input) (nodes st)); [|now split].
  destruct (find _ _); [now split|].
  split; simpl; try assumption.
  - now apply NoDup_keys_set.
  - intros k conns Hin. apply In_set in Hin as [Heq|Hin].
    + injection Heq as -> ->. intros Happ.
      apply app_eq_nil in Happ as [_ Hnil]. discriminate Hnil.
    + now apply (H4 k).
Qed.

Lemma Inv_updateNodeParameters st name params :
  Inv st -> Inv (snd (updateNodeParameters st name params)).
Proof.
  intros [H1 H2 H3 H4]. unfold updateNodeParameters.
  destruct (JsMap.get name (nodes st)) as [node|] eqn:Hg; [|now split].
  split; simpl; try assumption.
  - now apply NoDup_keys_set.
  - intros k n Hin. apply In_set in Hin as [[= -> ->]|Hin]; simpl.
    + apply H2. now apply get_Some_In.
    + now apply H2.
Qed.

Lemma Inv_step st op : Inv st -> Inv (step st op).
Proof.
  destruct op; simpl.
  - apply Inv_addNode.
  - apply Inv_removeNode.
  - apply Inv_connectNodes.
  - apply Inv_updateNodeParameters.
  - intros _. apply Inv_init.
Qed.

Lemma Inv_run ops st : Inv st -> Inv (run ops st).
Proof.
  revert st. induction ops as [|op ops IH]; intros st Hi; simpl; [assumption|].
  apply IH. now apply Inv_step.
Qed.

Lemma reachable_Inv st : reachable st -> Inv st.
Proof. intros [ops <-]. apply Inv_run, Inv_init. Qed.

(** *** Numbers *)

Lemma Number_eqb_eq a b : Number.eqb a b = true <-> a = b.
Proof.
  change (Number.eqb a b) with (key_eqb a b).
  destruct (key_eqb_spec a b) as [->|Hne]; split; congruence.
Qed.

Lemma Number_eqb_refl a : Number.eqb a a = true.
Proof. now apply Number_eqb_eq. Qed.

Lemma Number_floor_max a b :
  Number.floor (Number.max a b) = Z.max (Number.floor a) (Number.floor b).
Proof.
  unfold Number.max, Number.ltb, Number.compare.
  destruct a as [x|x p], b as [y|y q]; simpl.
  - destruct (Z.compare_spec x y); simpl; lia.
  - destruct (Z.leb_spec x y); simpl; lia.
  - destruct (Z.ltb_spec x y); simpl; lia.
  - destruct (Z.compare_spec x y); simpl; try lia.
    subst. destruct (Number.compare_fraction p q); simpl; lia.
Qed.

Lemma Number_leb_0 n : Number.leb n 0 = (Number.floor n <? 0) || Number.eqb n 0.
Proof.
  unfold Number.leb, Number.compare. destruct n as [x|x p]; simpl.
  - destruct (Z.compare_spec x 0), (Z.ltb_spec x 0), (Z.eqb_spec x 0);
      simpl; try reflexivity; lia.
  - rewrite orb_false_r. now destruct (x <? 0).
Qed.

Lemma Number_ltb_0 n : Number.ltb n 0 = (Number.floor n <? 0).
Proof.
  unfold Number.ltb, Number.compare. destruct n as [x|x p]; simpl.
  - destruct (Z.compare_spec x 0), (Z.ltb_spec x 0); try reflexivity; lia.
  - now destruct (x <? 0).
Qed.

(** *** Serialization *)

Lemma outputGroups_snoc conns c :
  outputGroups (conns ++ [c])%list = group_step (outputGroups conns) c.
Proof. unfold outputGroups. now rewrite fold_left_app. Qed.

Lemma get_outputGroups conns k :
  JsMap.get k (outputGroups conns) =
  match edges_of_output k conns with
  | [] => None
  | g => Some g
  end.
Proof.
  induction conns as [|c conns IH] using rev_ind.
  - reflexivity.
  - rewrite outputGroups_snoc. unfold group_step.
    rewrite get_set. unfold edges_of_output in *. rewrite filter_app. simpl.
    change (key_eqb (sourceOutput c) k) with (Number.eqb (sourceOutput c) k).
    destruct (Number.eqb (sourceOutput c) k) eqn:Hk.
    + apply Number_eqb_eq in Hk. subst k. rewrite IH.
      destruct (filter _ conns); reflexivity.
    + rewrite app_nil_r. exact IH.
Qed.

Lemma In_keys_outputGroups conns k :
  In k (JsMap.keys (outputGroups conns)) <->
  exists c, In c conns /\ sourceOutput c = k.
Proof.
  rewrite <- has_true_keys. unfold JsMap.has. rewrite get_outputGroups.
  unfold edges_of_output.
  destruct (filter _ conns) as [|c g] eqn:Hf.
  - split; [discriminate|]. intros [c [Hin Hk]].
    assert (In c (filter (fun c => Number.eqb (sourceOutput c) k) conns))
      as Hin'.
    { apply filter_In. split; [assumption|]. now apply Number_eqb_eq. }
    rewrite Hf in Hin'. destruct Hin'.
  - split; [intros _|reflexivity].
    assert (In c (filter (fun c => Number.eqb (sourceOutput c) k) conns))
      as Hin'.
    { rewrite Hf. now left. }
    apply filter_In in Hin' as [Hin Hk]. exists c. split; [assumption|].
    now apply Number_eqb_eq.
Qed.

Lemma Math_max_fold l acc :
  fold_left (fun acc k => match acc with
                          | None => Some k
                          | Some m => Some (Number.max m k)
                          end) l (Some acc)
  = Some (fold_left Number.max l acc).
Proof.
  revert acc. induction l as [|x l IH]; intros acc; simpl; [reflexivity|].
  apply IH.
Qed.

Lemma fold_max_floor l acc :
  let m := fold_left Number.max l acc in
  Number.floor acc <= Number.floor m
  /\ forall x, In x l -> Number.floor x <= Number.floor m.
Proof.
  revert acc. induction l as [|x l IH]; intros acc; simpl.
  - split; [lia|]. intros x [].
  - destruct (IH (Number.max acc x)) as [Hle Hall].
    rewrite Number_floor_max in Hle. split; [lia|].
    intros y [<-|Hy]; [lia|]. now apply Hall.
Qed.

(** [Math.max] of the keys is at least every key; it is [-Infinity] for no
    key only. *)
Lemma Math_max_floor l :
  match Math_max l with
  | Some m => forall x, In x l -> Number.floor x <= Number.floor m
  | None => l = []
  end.
Proof.
  unfold Math_max. destruct l as [|x l]; [reflexivity|]. simpl.
  rewrite Math_max_fold.
  destruct (fold_max_floor l x) as [Hle Hall]. simpl in *.
  intros y [<-|Hy]; [assumption | now apply Hall].
Qed.

Lemma Math_max_nil : Math_max [] = None.
Proof. reflexivity. Qed.

Lemma slot_of_group conns k :
  match JsMap.get k (outputGroups conns) with
  | Some g => g
  | None => []
  end = edges_of_output k conns.
Proof.
  rewrite get_outputGroups. now destruct (edges_of_output k conns).
Qed.

(** The output-slot array as a plain function of the edge list. *)
Lemma mainConnections_eq conns :
  mainConnections conns =
  map (fun i : Z => map to_target (edges_of_output (Int i) conns))
      (slot_indices (Math_max (JsMap.keys (outputGroups conns)))).
Proof.
  unfold mainConnections. apply map_ext. intros i. now rewrite slot_of_group.
Qed.

(** An edge that leaves the output of a non-negative integer index has its
    slot. *)
Lemma mainConnections_slot conns c i :
  In c conns -> sourceOutput c = Int i -> 0 <= i ->
  nth_error (mainConnections conns) (Z.to_nat i)
  = Some (map to_target (edges_of_output (Int i) conns)).
Proof.
  intros Hc Hso Hi. rewrite mainConnections_eq.
  pose proof (Math_max_floor (JsMap.keys (outputGroups conns))) as Hm.
  destruct (Math_max _) as [m|].
  - assert (i <= Number.floor m) as Hle.
    { apply (Hm (Int i)). apply In_keys_outputGroups. now exists c. }
    unfold slot_indices. rewrite map_map, nth_error_map.
    assert (nth_error (seq 0 (Z.to_nat (Number.floor m + 1))) (Z.to_nat i)
            = Some (Z.to_nat i)) as ->.
    { rewrite nth_error_nth' with (d := 0%nat) by (rewrite length_seq; lia).
      rewrite seq_nth by lia. reflexivity. }
    simpl. now rewrite Z2Nat.id by lia.
  - exfalso.
    assert (In (Int i) (JsMap.keys (outputGroups conns))) as Hin.
    { apply In_keys_outputGroups. now exists c. }
    rewrite Hm in Hin. destruct Hin.
Qed.

(** A serialized target comes from an edge that leaves the output of a
    non-negative integer index. *)
Lemma mainConnections_targets conns slot t :
  In slot (mainConnections conns) -> In t slot ->
  exists c i,
    In c conns /\ sourceOutput c = Int i /\ 0 <= i /\ t = to_target c.
Proof.
  rewrite mainConnections_eq. intros Hs Ht.
  apply in_map_iff in Hs as [i [<- Hi]].
  apply in_map_iff in Ht as [c [<- Hc]].
  apply filter_In in Hc as [Hc Hso]. apply Number_eqb_eq in Hso.
  exists c, i. split; [assumption|]. split; [assumption|].
  split; [|reflexivity].
  unfold slot_indices in Hi. destruct (Math_max _); [|destruct Hi].
  apply in_map_iff in Hi as [k [<- _]]. lia.
Qed.

Lemma fold_set_fresh (l : list (string * list InternalConnection))
    (acc : N8nConnections) :
  NoDup (JsMap.keys acc ++ JsMap.keys l)%list ->
  fold_left
    (fun (a : N8nConnections) (entry : string * list InternalConnection) =>
       JsMap.set (fst entry) {| nc_main := mainConnections (snd entry) |} a)
    l acc
  = (acc ++ map serialize_entry l)%list.
Proof.
  revert acc. induction l as [|[s c] l IH]; intros acc Hnd; simpl.
  - now rewrite app_nil_r.
  - simpl in Hnd.
    rewrite set_absent.
    + rewrite IH.
      * now rewrite <- app_assoc.
      * unfold JsMap.keys in *. rewrite map_app. simpl.
        rewrite <- app_assoc. exact Hnd.
    + intro Hin. apply NoDup_remove_2 in Hnd. apply Hnd.
      apply in_or_app. now left.
Qed.

Lemma toN8nWorkflow_connections st name :
  NoDup (JsMap.keys (connections st)) ->
  wf_connections (toN8nWorkflow st name) = map serialize_entry (connections st).
Proof.
  intros Hnd. unfold toN8nWorkflow. simpl. unfold JsMap.entries.
  now rewrite fold_set_fresh.
Qed.

Lemma keys_serialized (m : JsMap.t string (list InternalConnection)) :
  JsMap.keys (map serialize_entry m) = JsMap.keys m.
Proof. unfold JsMap.keys. rewrite map_map. reflexivity. Qed.

Lemma get_serialized (m : JsMap.t string (list InternalConnection)) k :
  JsMap.get k (map serialize_entry m) =
  option_map (fun conns => {| nc_main := mainConnections conns |}) (JsMap.get k m).
Proof.
  induction m as [|[s c] m IH]; simpl; [reflexivity|].
  destruct (s =? k)%string; [reflexivity | exact IH].
Qed.

(** *** Grid layout *)

Lemma grid_injective a b : 0 <= a -> 0 <= b -> grid a = grid b -> a = b.
Proof.
  unfold grid. intros Ha Hb Heq.
  apply pair_equal_spec in Heq as [Hx Hy].
  pose proof (Z.div_mod a 4). pose proof (Z.div_mod b 4). lia.
Qed.

Lemma NoDup_grid_cells first count : NoDup (grid_cells first count).
Proof.
  unfold grid_cells. apply Injective_map_NoDup; [|apply seq_NoDup].
  intros a b Hab. apply grid_injective in Hab; lia.
Qed.

Lemma addNode_position st input node st' :
  addNode st input = (Normal node, st') ->
  position node = grid (Z.of_nat (JsMap.size (nodes st)))
  /\ node_id node = "node_" ++ Js.showZ (nodeCounter st + 1)
  /\ nodes st' = (nodes st ++ [(in_name input, node)])%list
  /\ connections st' = connections st
  /\ nodeCounter st' = nodeCounter st + 1.
Proof.
  unfold addNode. destruct (JsMap.has _ _) eqn:Hh; [discriminate|].
  intros [= <- <-]. simpl. repeat split.
  apply set_absent. rewrite <- has_true_keys. congruence.
Qed.

Lemma addNode_throw st input msg st' :
  addNode st input = (Throw msg, st') -> st' = st.
Proof.
  unfold addNode. destruct (JsMap.has _ _); [|discriminate]. now intros [= _ <-].
Qed.

Lemma nodes_connectNodes st input :
  nodes (snd (connectNodes st input)) = nodes st.
Proof.
  unfold connectNodes.
  destruct (JsMap.get (in_sourceNode input) (nodes st)); [|reflexivity].
  destruct (JsMap.get (in_targetNode input) (nodes st)); [|reflexivity].
  destruct (find _ _); reflexivity.
Qed.

Lemma values_set_present {V W : Type} (f : V -> W) k v v' (m : JsMap.t string V) :
  JsMap.get k m = Some v -> f v' = f v ->
  map f (JsMap.values (JsMap.set k v' m)) = map f (JsMap.values m).
Proof.
  intros Hg Hf. induction m as [|[k0 v0] m IH]; simpl in *; [discriminate|].
  destruct (k0 =? k)%string; simpl.
  - injection Hg as ->. now rewrite Hf.
  - f_equal. now apply IH.
Qed.

Lemma positions_updateNodeParameters st name params :
  map position (getNodes (snd (updateNodeParameters st name params)))
  = map position (getNodes st).
Proof.
  unfold updateNodeParameters, getNodes.
  destruct (JsMap.get name (nodes st)) as [node|] eqn:Hg; [|reflexivity].
  simpl. now apply values_set_present with (v := node).
Qed.

Lemma length_getNodes st : List.length (getNodes st) = JsMap.size (nodes st).
Proof. unfold getNodes, JsMap.values, JsMap.size. apply length_map. Qed.

Lemma size_from_positions st :
  JsMap.size (nodes st) = List.length (map position (getNodes st)).
Proof. now rewrite length_map, length_getNodes. Qed.

(** Along a run that never removes a node, the nodes present lie on the
    grid cells 0, 1, 2, ... in insertion order, and so do the nodes the run
    adds. *)
Lemma grow_only_layout ops : forall st,
  Forall grow_only ops ->
  map position (getNodes st) = grid_cells 0 (JsMap.size (nodes st)) ->
  map position (added ops st)
  = grid_cells (JsMap.size (nodes st)) (List.length (added ops st))
  /\ map position (getNodes (run ops st))
     = grid_cells 0 (JsMap.size (nodes (run ops st))).
Proof.
  induction ops as [|op ops IH]; intros st Hg Hst; simpl.
  - split; [reflexivity | assumption].
  - inversion Hg as [|? ? Hop Hops]; subst.
    destruct op as [input|name|input|name params|]; simpl in Hop;
      try contradiction; simpl.
    + (* addNode *)
      destruct (addNode st input) as [[node|msg] st'] eqn:Ha; simpl.
      * apply addNode_position in Ha as (Hpos & _ & Hn & _ & _).
        assert (JsMap.size (nodes st') = S (JsMap.size (nodes st))) as Hsize.
        { rewrite Hn. unfold JsMap.size. rewrite length_app. simpl. lia. }
        assert (map position (getNodes st')
                = grid_cells 0 (JsMap.size (nodes st'))) as Hst'.
        { rewrite Hsize. unfold getNodes, JsMap.values. rewrite Hn.
          rewrite !map_app. simpl. unfold grid_cells. rewrite seq_S, map_app.
          simpl. rewrite Hpos. f_equal. exact Hst. }
        destruct (IH st' Hops Hst') as [IH1 IH2]. split; [|exact IH2].
        rewrite IH1, Hsize, Hpos. reflexivity.
      * apply addNode_throw in Ha as ->. now apply IH.
    + (* connectNodes *)
      assert (getNodes (snd (connectNodes st input)) = getNodes st) as Hn.
      { unfold getNodes. now rewrite nodes_connectNodes. }
      destruct (IH (snd (connectNodes st input)) Hops) as [IH1 IH2].
      { rewrite Hn, nodes_connectNodes. exact Hst. }
      rewrite nodes_connectNodes in IH1. now split.
    + (* updateNodeParameters *)
      pose proof (positions_updateNodeParameters st name params) as Hp.
      assert (JsMap.size (nodes (snd (updateNodeParameters st name params)))
              = JsMap.size (nodes st)) as Hsize.
      { now rewrite !size_from_positions, Hp. }
      destruct (IH (snd (updateNodeParameters st name params)) Hops) as [IH1 IH2].
      { rewrite Hp, Hsize. exact Hst. }
      rewrite Hsize in IH1. now split.
Qed.

(** C2 (amended): a successful [addNode] places the node on the grid cell
    whose index is the number of nodes present at the call.  From a fresh
    manager and along operations that never remove a node (no [removeNode],
    no [reset]), the n-th successfully added node (counting from 0) is
    therefore at (100 + (n mod 4) * 250, 100 + floor(n / 4) * 150), and no
    two nodes present share a position. *)
Theorem grid_layout_without_removal :
  (forall st input node st',
      addNode st input = (Normal node, st') ->
      position node = grid (Z.of_nat (JsMap.size (nodes st))))
  /\ forall ops,
      Forall grow_only ops ->
      (forall n node,
          nth_error (added ops init) n = Some node ->
          position node = grid (Z.of_nat n))
      /\ NoDup (map position (getNodes (run ops init))).
Proof.
  split.
  - intros st input node st' Ha. now apply addNode_position in Ha.
  - intros ops Hg.
    destruct (grow_only_layout ops init Hg eq_refl) as [Hadded Hnodes].
    split.
    + intros n node Hn.
      apply (map_nth_error position) in Hn. rewrite Hadded in Hn.
      unfold grid_cells in Hn. simpl in Hn.
      rewrite nth_error_map in Hn.
      destruct (nth_error (seq 0 _) n) as [i|] eqn:Hi; [|discriminate].
      simpl in Hn. injection Hn as <-.
      assert (n < List.length (seq 0 (List.length (added ops init))))%nat as Hlt.
      { apply nth_error_Some. congruence. }
      rewrite nth_error_nth' with (d := 0%nat) in Hi by exact Hlt.
      rewrite length_seq in Hlt. rewrite seq_nth in Hi by exact Hlt.
      injection Hi as <-. reflexivity.
    + rewrite Hnodes. apply NoDup_grid_cells.
Qed.

Lemma grid_layout_without_removal_witness :
  Forall grow_only branching
  /\ (forall n node,
         nth_error (added branching init) n = Some node ->
         position node = grid (Z.of_nat n))
  /\ NoDup (map position (getNodes (run branching init))).
Proof.
  assert (Forall grow_only branching) as Hg.
  { unfold branching. repeat constructor. }
  split; [exact Hg|].
  exact (proj2 grid_layout_without_removal branching Hg).
Defined.

(** C2 as stated fails: after [addNode A], [addNode B], [removeNode A],
    the third successful [addNode C] (n = 2) is placed on cell 1, not on
    cell 2, and shares its position with B, which is still present. *)
Lemma grid_layout_fails_after_removal :
  map (fun n => (node_name n, position n)) (added remove_then_add init)
  = [("A", (100, 100)); ("B", (350, 100)); ("C", (350, 100))]
  /\ grid 2 = (600, 100)
  /\ map (fun n => (node_name n, position n))
         (getNodes (run remove_then_add init))
     = [("B", (350, 100)); ("C", (350, 100))]
  /\ ~ NoDup (map position (getNodes (run remove_then_add init))).
Proof.
  repeat split; try reflexivity.
  intros Hnd. vm_compute in Hnd.
  inversion Hnd as [|? ? Hni _]. apply Hni. now left.
Qed.

Lemma reachable_run ops : reachable (run ops init).
Proof. now exists ops. Qed.

Lemma present_has st n :
  Inv st -> In n (getNodes st) -> JsMap.has (node_name n) (nodes st) = true.
Proof.
  intros Hi Hin. unfold getNodes, JsMap.values in Hin.
  apply in_map_iff in Hin as [[k n'] [Heq Hin]]. simpl in Heq. subst n'.
  apply has_true_keys.
  rewrite (inv_nodes_names st Hi k n Hin).
  change k with (fst (k, n)). now apply in_map.
Qed.

(** C3: in every reachable state, [addNode] under the name of a node that
    is present throws the duplicate-name error and leaves the node map, the
    connection map and the ID counter as they were; any following [addNode]
    behaves as if the failed call had not happened, so a successful one
    receives the id node_<nodeCounter + 1>. *)
Theorem addNode_duplicate_name_rejected :
  forall st input present,
    reachable st ->
    In present (getNodes st) ->
    node_name present = in_name input ->
    let st' := snd (addNode st input) in
    fst (addNode st input) = Throw (duplicate_name_message (in_name input))
    /\ nodes st' = nodes st
    /\ connections st' = connections st
    /\ nodeCounter st' = nodeCounter st
    /\ (forall next, addNode st' next = addNode st next)
    /\ (forall next node st2,
           addNode st' next = (Normal node, st2) ->
           node_id node = "node_" ++ Js.showZ (nodeCounter st + 1)).
Proof.
  intros st input present Hr Hin Hname.
  apply reachable_Inv in Hr.
  pose proof (present_has st present Hr Hin) as Hhas. rewrite Hname in Hhas.
  assert (addNode st input
          = (Throw (duplicate_name_message (in_name input)), st)) as Ha.
  { unfold addNode. now rewrite Hhas. }
  rewrite Ha. simpl. repeat split; try reflexivity.
  intros next node st2 Hnext. now apply addNode_position in Hnext.
Qed.

Lemma addNode_duplicate_name_rejected_witness :
  let st := run one_node init in
  let input := plain_node "n8n-nodes-base.slack" "A" in
  fst (addNode st input) = Throw (duplicate_name_message "A")
  /\ snd (addNode st input) = st.
Proof.
  intros st input.
  destruct (addNode_duplicate_name_rejected st input
              {| node_id := "node_1"; node_name := "A";
                 node_type := "n8n-nodes-base.webhook"; typeVersion := 1;
                 position := (100, 100); parameters := [];
                 credentials := None |}
              (reachable_run one_node)
              (or_introl eq_refl) eq_refl) as (Ht & _).
  split; [exact Ht | reflexivity].
Defined.

(** *** Removal *)

(** C4: in every reachable state, removing a present node X returns true,
    and the workflow serialized afterwards has no connections entry under
    the key X and no connection target naming X; a source all of whose
    edges went to X loses its entry altogether.  Removing an absent name
    returns false and leaves the state as it was. *)
Theorem removeNode_cascade :
  forall st X name,
    reachable st ->
    (JsMap.has X (nodes st) = true ->
     let st' := snd (removeNode st X) in
     let w := toN8nWorkflow st' name in
     fst (removeNode st X) = true
     /\ getNode st' X = None
     /\ ~ In X (JsMap.keys (wf_connections w))
     /\ (forall source entry slot t,
            In (source, entry) (wf_connections w) ->
            In slot (nc_main entry) -> In t slot -> ct_node t <> X)
     /\ (forall source conns,
            JsMap.get source (connections st) = Some conns ->
            (forall c, In c conns -> target c = X) ->
            JsMap.get source (connections st') = None
            /\ JsMap.get source (wf_connections w) = None))
    /\ (JsMap.has X (nodes st) = false -> removeNode st X = (false, st)).
Proof.
  intros st X name Hr. pose proof (reachable_Inv st Hr) as Hi.
  split.
  - intros Hhas st' w.
    pose proof (Inv_removeNode st X Hi) as Hi'. fold st' in Hi'.
    assert (connections st'
            = flat_map (pruned X) (JsMap.delete X (connections st))) as Hc.
    { apply removeNode_connections; [apply Hi | assumption]. }
    assert (wf_connections w = map serialize_entry (connections st')) as Hw.
    { apply toN8nWorkflow_connections, Hi'. }
    assert (forall k v, In (k, v) (connections st') ->
              k <> X /\ forall c, In c v -> target c <> X) as Hkept.
    { intros k v Hin. rewrite Hc in Hin.
      apply In_pruned in Hin as [conns (Hin & -> & _)].
      apply In_delete in Hin as [_ Hk]. split; [exact Hk|].
      intros c Hcin. apply filter_In in Hcin as [_ Hne].
      apply negb_true_iff in Hne. now apply String.eqb_neq. }
    split; [|split; [|split; [|split]]].
    + unfold removeNode. now rewrite Hhas.
    + unfold getNode, st', removeNode. rewrite Hhas. simpl.
      apply get_None_keys, not_In_keys_delete.
    + rewrite Hw, keys_serialized. intros Hin.
      unfold JsMap.keys in Hin. apply in_map_iff in Hin as [[k v] [Hk Hin]].
      simpl in Hk. subst k. now destruct (Hkept X v Hin).
    + intros source entry slot t Hin Hslot Ht. rewrite Hw in Hin.
      apply in_map_iff in Hin as [[k v] [Heq Hin]].
      unfold serialize_entry in Heq. simpl in Heq. injection Heq as _ <-.
      simpl in Hslot.
      destruct (mainConnections_targets v slot t Hslot Ht)
        as [c [i (Hcin & _ & _ & ->)]].
      simpl. now apply (Hkept k v Hin).
    + intros source conns Hg Hall.
      assert (JsMap.get source (connections st') = None) as Hnone.
      { apply get_None_keys. intros Hin.
        unfold JsMap.keys in Hin. apply in_map_iff in Hin as [[k v] [Hk Hin]].
        simpl in Hk. subst k. rewrite Hc in Hin.
        apply In_pruned in Hin as [conns' (Hin & Hv & Hne)].
        apply In_delete in Hin as [Hin _].
        apply In_get_Some in Hin; [|apply Hi].
        rewrite Hg in Hin. injection Hin as <-.
        apply Hne. rewrite Hv.
        clear - Hall. induction conns as [|c conns IH]; simpl; [reflexivity|].
        rewrite (Hall c (or_introl eq_refl)), String.eqb_refl. simpl.
        apply IH. intros c' Hc'. apply Hall. now right. }
      split; [exact Hnone|].
      rewrite Hw, get_serialized, Hnone. reflexivity.
  - intros Hhas. unfold removeNode. now rewrite Hhas.
Qed.

Lemma removeNode_cascade_witness :
  let st := run chain init in
  let st' := snd (removeNode st "Middle") in
  let w := toN8nWorkflow st' "W" in
  JsMap.has "Middle" (nodes st) = true
  /\ fst (removeNode st "Middle") = true
  /\ ~ In "Middle" (JsMap.keys (wf_connections w))
  /\ JsMap.get "Start" (connections st') = None
  /\ JsMap.has "Ghost" (nodes st) = false
  /\ removeNode st "Ghost" = (false, st).
Proof.
  intros st st' w.
  destruct (removeNode_cascade st "Middle" "W" (reachable_run chain))
    as [Hpresent _].
  destruct (removeNode_cascade st "Ghost" "W" (reachable_run chain))
    as [_ Habsent].
  destruct (Hpresent eq_refl) as (Hret & _ & Hkey & _ & Hempty).
  split; [reflexivity|].
  split; [exact Hret|].
  split; [exact Hkey|].
  split.
  - refine (proj1 (Hempty "Start" [internal_edge "Middle" 0 0 main] eq_refl _)).
    intros c [<-|[]]. reflexivity.
  - split; [reflexivity | exact (Habsent eq_refl)].
Defined.

(** C5 (the code departs from the claim): [connectNodes] stores an edge
    under whatever number it is given as output index, and
    [toN8nWorkflow], whose sizing loop counts from 0 in steps of 1, loses
    the edge when that number is negative or not an integer.  With the single edge (A, B, output -2) the state holds the
    edge and connections.A.main is empty; with the single edge
    (A, B, output 1.5) connections.A.main is two empty slots.  In both
    cases the output-slot array does not have max + 1 slots, the edge is
    in no slot, and [validateWorkflow] accepts the workflow. *)
Theorem edge_lost_in_serialization :
  (let st := run negative_output init in
   let w := toN8nWorkflow st "W" in
   reachable st
   /\ JsMap.get "A" (connections st) = Some [internal_edge "B" (-2) 0 main]
   /\ JsMap.get "A" (wf_connections w) = Some {| nc_main := [] |}
   /\ Validator.valid (Validator.validateWorkflow w) = true)
  /\ (let st := run fractional_output init in
      let w := toN8nWorkflow st "W" in
      reachable st
      /\ JsMap.get "A" (connections st)
         = Some [{| target := "B"; sourceOutput := Frac 1 1;
                    targetInput := 0; connectionType := main |}]
      /\ JsMap.get "A" (wf_connections w) = Some {| nc_main := [[]; []] |}
      /\ Validator.valid (Validator.validateWorkflow w) = true).
Proof.
  split; intros st w.
  - split; [apply reachable_run|]. repeat split; reflexivity.
  - split; [apply reachable_run|]. repeat split; reflexivity.
Qed.

(** *** Strings *)

Lemma append_assoc (a b c : string) : (a ++ b) ++ c = a ++ b ++ c.
Proof. induction a as [|x a IH]; simpl; [reflexivity | now rewrite IH]. Qed.

Lemma append_nil_r (a : string) : a ++ EmptyString = a.
Proof. induction a as [|x a IH]; simpl; [reflexivity | now rewrite IH]. Qed.

Lemma prefix_iff p s :
  String.prefix p s = true <-> exists post, s = p ++ post.
Proof.
  revert s. induction p as [|c p IH]; intros s.
  - split; [intros _; now exists s | now destruct s].
  - destruct s as [|d s]; simpl.
    + split; [discriminate | intros [post Hp]; discriminate].
    + destruct (ascii_dec c d) as [->|Hne].
      * rewrite IH. split; intros [post Hp]; exists post; congruence.
      * split; [discriminate | intros [post Hp]; congruence].
Qed.

Lemma includes_iff s sub :
  Js.includes s sub = true <-> exists pre post, s = pre ++ sub ++ post.
Proof.
  induction s as [|c s IH]; cbn [Js.includes]; unfold Js.startsWith;
    rewrite orb_true_iff, prefix_iff.
  - split.
    + intros [[post Hp]|Hf]; [|discriminate]. now exists EmptyString, post.
    + intros [pre [post Hp]]. left. destruct pre; [|discriminate].
      now exists post.
  - rewrite IH. split.
    + intros [[post Hp]|[pre [post Hp]]].
      * now exists EmptyString, post.
      * exists (String c pre), post. simpl. now rewrite Hp.
    + intros [pre [post Hp]]. destruct pre as [|d pre]; simpl in Hp.
      * left. now exists post.
      * right. injection Hp as _ Hp. now exists pre, post.
Qed.

Lemma endsWith_iff s suf :
  Js.endsWith s suf = true <-> exists pre, s = pre ++ suf.
Proof.
  induction s as [|c s IH]; cbn [Js.endsWith];
    rewrite orb_true_iff, String.eqb_eq.
  - split.
    + intros [<-|Hf]; [now exists EmptyString | discriminate].
    + intros [pre Hp]. left. destruct pre; [exact Hp | discriminate].
  - rewrite IH. split.
    + intros [<-|[pre Hp]]; [now exists EmptyString|].
      exists (String c pre). simpl. now rewrite Hp.
    + intros [pre Hp]. destruct pre as [|d pre]; simpl in Hp.
      * now left.
      * right. injection Hp as _ Hp. now exists pre.
Qed.

Lemma toLowerCase_app a b :
  Js.toLowerCase (a ++ b) = Js.toLowerCase a ++ Js.toLowerCase b.
Proof. induction a as [|c a IH]; simpl; [reflexivity | now rewrite IH]. Qed.

Lemma toLowerCase_split s : forall a b,
  Js.toLowerCase s = a ++ b ->
  exists s1 s2, s = s1 ++ s2 /\ Js.toLowerCase s1 = a /\ Js.toLowerCase s2 = b.
Proof.
  induction s as [|c s IH]; intros a b Hs; simpl in Hs.
  - destruct a; [|discriminate]. simpl in Hs. subst b.
    now exists EmptyString, EmptyString.
  - destruct a as [|d a]; simpl in Hs.
    + exists EmptyString, (String c s). subst b. repeat split.
    + injection Hs as Hd Hs. destruct (IH a b Hs) as [s1 [s2 (-> & <- & <-)]].
      exists (String c s1), s2. simpl. now rewrite Hd.
Qed.

(** Lowering sends a character to the same letter, and a character that
    is a small letter or no letter is reached from its capital and from
    itself only. *)
Lemma same_letter_lower_ascii c : same_letter c (Js.lower_ascii c).
Proof.
  destruct c as [b0 b1 b2 b3 b4 b5 b6 b7].
  destruct b0, b1, b2, b3, b4, b5, b6, b7; vm_compute;
    first [ left; reflexivity
          | right; left;
            repeat (first [left; reflexivity | right]) ].
Qed.

Lemma lower_ascii_of_same_letter c d :
  Js.lower_ascii d = d -> same_letter c d -> Js.lower_ascii c = d.
Proof.
  intros Hd [->|[Hin|Hin]].
  - exact Hd.
  - unfold letters in Hin. cbn in Hin.
    repeat (destruct Hin as [Hin|Hin];
            [injection Hin as <- <-; reflexivity|]).
    destruct Hin.
  - unfold letters in Hin. cbn in Hin.
    repeat (destruct Hin as [Hin|Hin];
            [injection Hin as <- <-; vm_compute in Hd; discriminate Hd|]).
    destruct Hin.
Qed.

(** For a pattern without capitals, being the pattern up to case is
    being lowered to it. *)
Lemma equal_ci_lower mid pat :
  Js.toLowerCase pat = pat ->
  equal_ci mid pat <-> Js.toLowerCase mid = pat.
Proof.
  revert mid. induction pat as [|d pat IH]; intros mid Hp.
  - split.
    + intros H. inversion H. reflexivity.
    + destruct mid; [constructor | discriminate].
  - simpl in Hp. injection Hp as Hd Hp. split.
    + intros H. inversion H as [|c d' s t Hcd Hst]; subst. simpl.
      rewrite (lower_ascii_of_same_letter c d Hd Hcd).
      f_equal. now apply IH.
    + destruct mid as [|c mid]; [discriminate|]. simpl.
      intros Heq. injection Heq as Hc Hm. constructor.
      * rewrite <- Hc. apply same_letter_lower_ascii.
      * now apply IH.
Qed.

(** The lowered string includes a pattern without capitals exactly when
    the string contains the pattern up to case. *)
Lemma includes_lower_iff s pat :
  Js.toLowerCase pat = pat ->
  Js.includes (Js.toLowerCase s) pat = true <-> contains_ci s pat.
Proof.
  intros Hp. rewrite includes_iff. unfold contains_ci. split.
  - intros [a [b Hs]].
    apply toLowerCase_split in Hs as [s1 [s23 (-> & _ & H23)]].
    apply toLowerCase_split in H23 as [s2 [s3 (-> & H2 & _)]].
    exists s1, s2, s3. split; [reflexivity|]. now apply equal_ci_lower.
  - intros [pre [mid [post [-> Hm]]]].
    apply equal_ci_lower in Hm; [|assumption]. subst pat.
    exists (Js.toLowerCase pre), (Js.toLowerCase post).
    now rewrite !toLowerCase_app.
Qed.

Lemma endsWith_lower_iff s pat :
  Js.toLowerCase pat = pat ->
  Js.endsWith (Js.toLowerCase s) pat = true <-> ends_with_ci s pat.
Proof.
  intros Hp. rewrite endsWith_iff. unfold ends_with_ci. split.
  - intros [a Hs].
    apply toLowerCase_split in Hs as [s1 [s2 (-> & _ & H2)]].
    exists s1, s2. split; [reflexivity|]. now apply equal_ci_lower.
  - intros [pre [suf [-> Hm]]].
    apply equal_ci_lower in Hm; [|assumption]. subst pat.
    exists (Js.toLowerCase pre). now rewrite toLowerCase_app.
Qed.

(** *** The validator *)


Lemma isTriggerNode_iff type : isTriggerNode type = true <-> trigger_like type.
Proof.
  unfold isTriggerNode, trigger_like.
  rewrite !orb_true_iff, !includes_lower_iff, endsWith_lower_iff
    by reflexivity.
  tauto.
Qed.

Lemma length_zero_iff {A} (l : list A) : Nat.eqb (List.length l) 0 = true <-> l = [].
Proof. destruct l; simpl; split; congruence. Qed.

Lemma validateWorkflow_schema_ok w :
  n8nWorkflowSchema w = [] ->
  validateWorkflow w =
  {| valid := Nat.eqb (List.length (semantic_errors w)) 0;
     errors := semantic_errors w;
     warnings := semantic_warnings w |}.
Proof. intros Hs. unfold validateWorkflow. now rewrite Hs. Qed.

Lemma validateWorkflow_schema_fails w :
  n8nWorkflowSchema w <> [] ->
  validateWorkflow w =
  {| valid := false;
     errors := map format_issue (n8nWorkflowSchema w);
     warnings := [] |}.
Proof.
  intros Hs. unfold validateWorkflow.
  destruct (n8nWorkflowSchema w); [congruence | reflexivity].
Qed.

(** C6: for every workflow, [valid] is true exactly when [errors] is
    empty, so two results with the same errors have the same validity
    whatever their warnings; and when the schema reports issues the result
    is invalid, its errors are exactly the formatted issues and [warnings]
    is empty (the semantic phase did not run). *)
Theorem valid_iff_no_errors :
  forall w,
    let r := validateWorkflow w in
    (valid r = true <-> errors r = [])
    /\ (forall w', errors (validateWorkflow w') = errors r ->
                   valid (validateWorkflow w') = valid r)
    /\ (n8nWorkflowSchema w <> [] ->
        valid r = false
        /\ errors r = map format_issue (n8nWorkflowSchema w)
        /\ warnings r = []).
Proof.
  assert (forall w, valid (validateWorkflow w) = true
                    <-> errors (validateWorkflow w) = []) as Hiff.
  { intros w. unfold validateWorkflow.
    destruct (n8nWorkflowSchema w) as [|i l]; simpl.
    - apply length_zero_iff.
    - split; discriminate. }
  intros w r. subst r. split; [apply Hiff | split].
  - intros w' He.
    pose proof (Hiff w) as H1. pose proof (Hiff w') as H2. rewrite He in H2.
    destruct (valid (validateWorkflow w)), (valid (validateWorkflow w'));
      try reflexivity.
    + apply H2, H1. reflexivity.
    + symmetry. apply H1, H2. reflexivity.
  - intros Hs. now rewrite validateWorkflow_schema_fails.
Qed.

Ltac same_letter_tac :=
  unfold same_letter;
  first [ left; reflexivity
        | right; left; cbn; repeat (first [left; reflexivity | right])
        | right; right; cbn; repeat (first [left; reflexivity | right]) ].

Ltac equal_ci_tac :=
  repeat (first [ apply equal_ci_empty
                | apply equal_ci_char; [same_letter_tac|] ]).

Lemma valid_iff_no_errors_witness :
  let w := toN8nWorkflow init "W" in
  let r := validateWorkflow w in
  n8nWorkflowSchema w <> []
  /\ valid r = false
  /\ errors r = map format_issue (n8nWorkflowSchema w)
  /\ warnings r = [].
Proof.
  intros w r.
  assert (n8nWorkflowSchema w <> []) as Hs by (vm_compute; discriminate).
  split; [exact Hs|].
  exact (proj2 (proj2 (valid_iff_no_errors w)) Hs).
Defined.

(** A workflow with a warning and no error is valid. *)
Lemma warning_without_error_is_valid :
  validateWorkflow (toN8nWorkflow (run lonely_node init) "W")
  = {| valid := true; errors := []; warnings := [no_trigger_warning] |}.
Proof. reflexivity. Qed.

(** *** Trigger presence *)








(** C10: a workflow without nodes is invalid and its errors include the
    schema issue at path nodes whose text contains [Workflow must have at
    least one node]; this is the case of the workflow serialized from a fresh
    or a reset state manager, under any name. *)
Theorem empty_workflow_is_invalid :
  (forall w,
      wf_nodes w = [] ->
      valid (validateWorkflow w) = false
      /\ In at_least_one_node_error (errors (validateWorkflow w)))
  /\ Js.includes at_least_one_node_error "Workflow must have at least one node"
     = true
  /\ (forall st name,
        let fresh := validateWorkflow (toN8nWorkflow init name) in
        let cleared := validateWorkflow (toN8nWorkflow (reset st) name) in
        valid fresh = false
        /\ In at_least_one_node_error (errors fresh)
        /\ valid cleared = false
        /\ In at_least_one_node_error (errors cleared)).
Proof.
  assert (forall w,
             wf_nodes w = [] ->
             valid (validateWorkflow w) = false
             /\ In at_least_one_node_error (errors (validateWorkflow w)))
    as Hempty; [|split; [exact Hempty | split; [reflexivity|]]].
  2:{ intros st name fresh cleared.
      destruct (Hempty (toN8nWorkflow init name) eq_refl) as [H1 H2].
      now repeat split. }
  intros w Hn.
  assert (In {| path := [Key "nodes"];
                message := "Workflow must have at least one node" |}
             (n8nWorkflowSchema w)) as Hin.
  { unfold n8nWorkflowSchema. rewrite Hn. simpl.
    apply in_or_app. right. now left. }
  assert (n8nWorkflowSchema w <> []) as Hne.
  { intros He. rewrite He in Hin. destruct Hin. }
  rewrite (validateWorkflow_schema_fails w Hne). simpl.
  split; [reflexivity|].
  apply (in_map format_issue) in Hin. exact Hin.
Qed.

Lemma empty_workflow_is_invalid_witness :
  let w := toN8nWorkflow init "Generated Workflow" in
  wf_nodes w = []
  /\ valid (validateWorkflow w) = false
  /\ In at_least_one_node_error (errors (validateWorkflow w)).
Proof.
  intros w. split; [reflexivity|].
  exact (proj1 empty_workflow_is_invalid w eq_refl).
Defined.

(** C8: an error message that contains credential, in any letter case,
    is classified as not recoverable, whatever else it contains. *)
Theorem credential_error_not_recoverable :
  forall errorMessage,
    contains_ci errorMessage "credential" ->
    Builder.recoverable (Builder.analyzeValidationError errorMessage) = false.
Proof.
  intros errorMessage Hc. apply includes_lower_iff in Hc; [|reflexivity].
  unfold Builder.analyzeValidationError. now rewrite Hc.
Qed.

Lemma credential_error_not_recoverable_witness :
  let errorMessage :=
    "Invalid connection: missing required parameter, Slack Credential not found" in
  contains_ci errorMessage "credential"
  /\ Builder.recoverable (Builder.analyzeValidationError errorMessage) = false.
Proof.
  intros errorMessage.
  assert (contains_ci errorMessage "credential") as Hc.
  { exists "Invalid connection: missing required parameter, Slack ",
           "Credential", " not found". split; [reflexivity | equal_ci_tac]. }
  split; [exact Hc|].
  exact (credential_error_not_recoverable errorMessage Hc).
Defined.

(** *** The tool surface *)

Section ToolSurface.
Variable env : Env.
Variable zod_error_message : Tools.ToolName -> JsValue -> string.
Variable now : string.
Variable n8nClient : option N8nApiClient.

(** Away from the names inherited from [Object.prototype], a call
    returns a result. *)
Lemma executeToolAsync_returns st toolName args :
  ~ In toolName Tools.Object_prototype_members ->
  exists result st',
    Tools.executeToolAsync env zod_error_message now n8nClient
    st toolName args = (Normal result, st').
Proof.
  intros Hni. unfold Tools.executeToolAsync.
  destruct (Tools.toolSchemas_lookup toolName) eqn:Hl.
  - destruct (Tools.safeParse tool args); [|eauto].
    destruct (Tools.implementation env now n8nClient st p). eauto.
  - exfalso. apply Hni. unfold Tools.toolSchemas_lookup in Hl.
    destruct (JsMap.get toolName Tools.tool_names); [discriminate|].
    destruct (existsb _ _) eqn:He; [|discriminate].
    apply existsb_exists in He as [x [Hin Hx]].
    apply String.eqb_eq in Hx. now subst x.
  - eauto.
Qed.

Lemma executeTool_returns st toolName args :
  ~ In toolName Tools.Object_prototype_members ->
  exists result st',
    Tools.executeTool env zod_error_message now n8nClient
    st toolName args = (Normal result, st').
Proof.
  intros Hni. unfold Tools.executeTool.
  destruct (Tools.toolSchemas_lookup toolName) eqn:Hl.
  - destruct (Tools.asyncTools tool); [eauto|].
    destruct (Tools.safeParse tool args); [|eauto].
    destruct (Tools.implementation env now n8nClient st p). eauto.
  - exfalso. apply Hni. unfold Tools.toolSchemas_lookup in Hl.
    destruct (JsMap.get toolName Tools.tool_names); [discriminate|].
    destruct (existsb _ _) eqn:He; [|discriminate].
    apply existsb_exists in He as [x [Hin Hx]].
    apply String.eqb_eq in Hx. now subst x.
  - eauto.
Qed.

(** A name that is neither declared nor inherited is reported as
    unknown. *)
Lemma unknown_tool_is_reported st toolName args :
  Tools.toolSchemas_lookup toolName = Tools.Undefined ->
  Tools.executeToolAsync env zod_error_message now n8nClient
    st toolName args
  = (Normal (Tools.failure ("Unknown tool: " ++ toolName)), st).
Proof.
  intros Hl. unfold Tools.executeToolAsync. now rewrite Hl.
Qed.

(** Arguments the schema rejects are reported and change nothing. *)
Lemma invalid_arguments_are_reported st toolName tool args :
  Tools.toolSchemas_lookup toolName = Tools.OwnSchema tool ->
  Tools.safeParse tool args = None ->
  Tools.executeToolAsync env zod_error_message now n8nClient
    st toolName args
  = (Normal (Tools.failure ("Invalid arguments: "
                              ++ zod_error_message tool args)), st).
Proof.
  intros Hl Hp. unfold Tools.executeToolAsync.
  now rewrite Hl, Hp.
Qed.

(** An exception of the state manager becomes a failure result. *)
Lemma delegate_exception_is_reported st a msg st' :
  addNode st
    {| in_type := Tools.a_type a; in_typeVersion := Tools.a_typeVersion a;
       in_name := Tools.a_name a; in_parameters := Tools.a_parameters a;
       in_credentials := None |} = (Throw msg, st') ->
  Tools.implementation env now n8nClient st (Tools.PAddNode a)
  = (Tools.failure ("Error adding node: " ++ msg), st').
Proof. intros Ha. simpl. unfold Tools.impl_add_node. now rewrite Ha. Qed.

(** The guard for unknown names lets every inherited name through. *)
Lemma inherited_names_throw st toolName args :
  In toolName Tools.Object_prototype_members ->
  Tools.executeToolAsync env zod_error_message now n8nClient
    st toolName args
  = (Throw Tools.safeParse_not_a_function, st).
Proof.
  intros Hin. simpl in Hin.
  repeat (destruct Hin as [<-|Hin]; [reflexivity|]). destruct Hin.
Qed.

(** C9 (the code departs from the claim): the tool name constructor is
    not a declared tool, yet [toolSchemas] yields the inherited
    [Object] function for it, the guard for unknown tools is passed, and
    the call of the missing [safeParse] method throws a [TypeError], from
    [executeTool] and, as a rejection, from [executeToolAsync]; no
    structured result is returned. *)
Theorem inherited_tool_name_throws :
  forall st args,
    Tools.executeTool env zod_error_message now n8nClient
      st "constructor" args
    = (Throw Tools.safeParse_not_a_function, st)
    /\ Tools.executeToolAsync env zod_error_message now n8nClient
         st "constructor" args
       = (Throw Tools.safeParse_not_a_function, st).
Proof. intros st args. split; reflexivity. Qed.

End ToolSurface.

(** The two n8n tools without a configured client. *)
Lemma n8n_tools_without_client env zod_error_message now st name :
  Tools.executeToolAsync env zod_error_message now None st
    "validate_workflow_with_n8n" (JObj [("workflowName", JStr name)])
  = (Normal (Tools.failure "n8n API is not configured. Set N8N_API_KEY environment variable to enable n8n validation."), st)
  /\ Tools.executeToolAsync env zod_error_message now None st
       "create_workflow_in_n8n" (JObj [("workflowName", JStr name)])
     = (Normal (Tools.failure "n8n API is not configured. Set N8N_API_KEY environment variable to enable n8n integration."), st).
Proof. split; reflexivity. Qed.

(** *** The generation loop *)

Section Finalize.
Variable env : Env.
Variable modelId : string.

(** What [finalize] returns when validation fails and no retry is
    made. *)
Lemma finalize_failure v :
  getNodes (Builder.workflowState v) <> [] ->
  Validator.valid (Validator.validateWorkflow (workflow_of v)) = false ->
  (Builder.recoverable (Builder.analyzeValidationError (errorMsg_of v))
     = false
   \/ MAX_VALIDATION_RETRIES env <= Builder.attempts v + 1) ->
  exists r,
    Builder.finalize env modelId v = Builder.Return r
    /\ Builder.success r = false
    /\ Builder.validationAttempts r = Some (Builder.attempts v + 1)
    /\ Builder.requiresHumanInput r
       = Some (negb (Builder.recoverable
                       (Builder.analyzeValidationError (errorMsg_of v))))
    /\ Builder.humanInputReason r
       = Builder.suggestedAction
           (Builder.analyzeValidationError (errorMsg_of v)).
Proof.
  intros Hn Hv Hstop. unfold Builder.finalize.
  destruct (getNodes (Builder.workflowState v)) as [|n ns] eqn:Hg;
    [congruence|]. simpl List.length. cbn [Nat.ltb Nat.leb].
  fold (workflow_of v). rewrite Hv. cbn [negb]. fold (errorMsg_of v).
  assert ((Builder.recoverable (Builder.analyzeValidationError (errorMsg_of v))
           && (Builder.attempts v + 1 <? Builder.maxRetries env))%bool = false)
    as ->.
  { apply andb_false_iff. destruct Hstop as [Hr|Hb]; [now left|right].
    apply Z.ltb_ge. exact Hb. }
  eexists. split; [reflexivity|]. simpl. repeat split.
Qed.
End Finalize.

(** C1 (the code departs from the claim): against a model that adds a
    node without namespace prefix and then only answers with text, the
    third failed validation exhausts the default budget of 3; the error is
    classified recoverable, and the failure result carries the classifier's
    suggestion as reason but [requiresHumanInput] = false. *)
Theorem retries_exhausted_without_human_flag :
  Builder.success stubborn_run = false
  /\ Builder.error stubborn_run
     = Some ("Generated workflow is invalid:" ++ Js.nl ++ type_prefix_error)
  /\ Builder.recoverable (Builder.analyzeValidationError type_prefix_error)
     = true
  /\ Builder.validationAttempts stubborn_run
     = Some (MAX_VALIDATION_RETRIES default_env)
  /\ Builder.requiresHumanInput stubborn_run = Some false
  /\ Builder.humanInputReason stubborn_run
     = Some "Review the error message and fix the issue.".
Proof. vm_compute. repeat split. Qed.

(** *** More on maps *)

Lemma get_delete_other {V : Type} (k k' : string) (m : JsMap.t string V) :
  k' <> k -> JsMap.get k' (JsMap.delete k m) = JsMap.get k' m.
Proof.
  intros Hne. unfold JsMap.delete.
  induction m as [|[a v] m IH]; simpl; [reflexivity|].
  destruct (String.eqb_spec a k) as [->|Ha]; simpl.
  - rewrite (proj2 (String.eqb_neq k k')) by congruence. exact IH.
  - destruct (a =? k')%string; [reflexivity | exact IH].
Qed.

Lemma get_delete_same {V : Type} (k : string) (m : JsMap.t string V) :
  JsMap.get k (JsMap.delete k m) = None.
Proof. apply get_None_keys, not_In_keys_delete. Qed.

Lemma has_set {V : Type} (k k' : string) (v : V) (m : JsMap.t string V) :
  JsMap.has k' (JsMap.set k v m) = ((k =? k')%string || JsMap.has k' m)%bool.
Proof.
  unfold JsMap.has. rewrite get_set. simpl.
  now destruct (k =? k')%string.
Qed.

Lemma has_delete {V : Type} (k k' : string) (m : JsMap.t string V) :
  JsMap.has k' (JsMap.delete k m)
  = (negb (k' =? k)%string && JsMap.has k' m)%bool.
Proof.
  unfold JsMap.has. destruct (String.eqb_spec k' k) as [->|Hne]; simpl.
  - now rewrite get_delete_same.
  - now rewrite get_delete_other.
Qed.

Lemma values_set_absent {V : Type} (k : string) (v : V) (m : JsMap.t string V) :
  JsMap.has k m = false ->
  JsMap.values (JsMap.set k v m) = (JsMap.values m ++ [v])%list.
Proof.
  intros Hh. rewrite set_absent.
  - unfold JsMap.values. now rewrite map_app.
  - rewrite <- has_true_keys. congruence.
Qed.

Lemma run_snoc ops op st : run (ops ++ [op]) st = step (run ops st) op.
Proof. unfold run. now rewrite fold_left_app. Qed.

Lemma reachable_init : reachable init.
Proof. now exists []. Qed.

Lemma reachable_step st op : reachable st -> reachable (step st op).
Proof. intros [ops <-]. exists (ops ++ [op])%list. apply run_snoc. Qed.

(** *** Decimal rendering *)

Lemma to_int_not_nil z :
  Z.to_int z <> Decimal.Pos Decimal.Nil /\ Z.to_int z <> Decimal.Neg Decimal.Nil.
Proof.
  destruct z as [|p|p]; simpl; split; try discriminate;
    intros [= Hp]; now apply (DecimalPos.Unsigned.to_uint_nonnil p).
Qed.

Lemma showZ_injective a b : Js.showZ a = Js.showZ b -> a = b.
Proof.
  unfold Js.showZ. intros Hs.
  apply DecimalZ.to_int_inj.
  destruct (to_int_not_nil a) as [Ha1 Ha2], (to_int_not_nil b) as [Hb1 Hb2].
  pose proof (NilZero.isi (Z.to_int a) Ha1 Ha2) as Ia.
  pose proof (NilZero.isi (Z.to_int b) Hb1 Hb2) as Ib.
  rewrite Hs in Ia. congruence.
Qed.

(** *** What the operations do to the state *)

Lemma NoDup_map_filter {A B : Type} (f : A -> B) (p : A -> bool) l :
  NoDup (map f l) -> NoDup (map f (filter p l)).
Proof.
  induction l as [|x l IH]; simpl; intros Hnd; [constructor|].
  inversion Hnd as [|? ? Hni Hnd']; subst.
  destruct (p x); simpl; [|now apply IH].
  constructor; [|now apply IH].
  intros Hin. apply Hni. apply in_map_iff in Hin as [y [Hy Hin]].
  apply filter_In in Hin as [Hin _]. rewrite <- Hy. now apply in_map.
Qed.

Lemma find_none_iff {A : Type} (p : A -> bool) l :
  find p l = None <-> forall x, In x l -> p x = false.
Proof.
  induction l as [|x l IH]; simpl.
  - split; [intros _ y [] | reflexivity].
  - destruct (p x) eqn:Hp.
    + split; [discriminate|]. intros Hall.
      specialize (Hall x (or_introl eq_refl)). congruence.
    + rewrite IH. split.
      * intros Hall y [<-|Hy]; [assumption | now apply Hall].
      * intros Hall y Hy. apply Hall. now right.
Qed.

(** The test of [connectNodes] for an existing edge compares the keys. *)
Lemma duplicate_test_iff input c :
  (String.eqb (target c) (in_targetNode input)
   && Number.eqb (sourceOutput c) (or0 (in_sourceOutput input))
   && Number.eqb (targetInput c) (or0 (in_targetInput input)))%bool = true
  <-> edge_key c = input_key input.
Proof.
  unfold edge_key, input_key.
  rewrite !andb_true_iff, String.eqb_eq, !Number_eqb_eq. split.
  - intros [[-> ->] ->]. reflexivity.
  - intros [= -> -> ->]. auto.
Qed.

Lemma edges_from_In st s l :
  JsMap.get s (connections st) = Some l -> In (s, l) (connections st).
Proof. apply get_Some_In. Qed.

(** [connectNodes] in terms of the three conditions it checks. *)
Lemma connectNodes_cases st input :
  (JsMap.has (in_sourceNode input) (nodes st) = false
   /\ connectNodes st input
      = (Throw ("Source node " ++ Js.quoted (in_sourceNode input)
                  ++ " not found"), st))
  \/ (JsMap.has (in_sourceNode input) (nodes st) = true
      /\ JsMap.has (in_targetNode input) (nodes st) = false
      /\ connectNodes st input
         = (Throw ("Target node " ++ Js.quoted (in_targetNode input)
                     ++ " not found"), st))
  \/ (JsMap.has (in_sourceNode input) (nodes st) = true
      /\ JsMap.has (in_targetNode input) (nodes st) = true
      /\ In (input_key input)
            (map edge_key (edges_from st (in_sourceNode input)))
      /\ connectNodes st input = (Throw (already_exists_message input), st))
  \/ (JsMap.has (in_sourceNode input) (nodes st) = true
      /\ JsMap.has (in_targetNode input) (nodes st) = true
      /\ ~ In (input_key input)
              (map edge_key (edges_from st (in_sourceNode input)))
      /\ connectNodes st input
         = (Normal tt,
            {| nodes := nodes st;
               connections :=
                 JsMap.set (in_sourceNode input)
                   (edges_from st (in_sourceNode input) ++ [new_edge input])%list
                   (connections st);
               nodeCounter := nodeCounter st |})).
Proof.
  unfold connectNodes, JsMap.has, edges_from.
  destruct (JsMap.get (in_sourceNode input) (nodes st)); [|now left].
  destruct (JsMap.get (in_targetNode input) (nodes st));
    [|right; left; now repeat split].
  right. right.
  set (existing := match JsMap.get (in_sourceNode input) (connections st) with
                   | Some l => l
                   | None => []
                   end).
  destruct (find _ existing) as [c|] eqn:Hf.
  - left. repeat split.
    apply find_some in Hf as [Hin Hc]. apply duplicate_test_iff in Hc.
    rewrite <- Hc. now apply in_map.
  - right. repeat split.
    intros Hin. apply in_map_iff in Hin as [c [Hk Hin]].
    rewrite find_none_iff in Hf. specialize (Hf c Hin).
    apply duplicate_test_iff in Hk. congruence.
Qed.

Lemma nodeCounter_connectNodes st input :
  nodeCounter (snd (connectNodes st input)) = nodeCounter st.
Proof.
  destruct (connectNodes_cases st input)
    as [[_ ->]|[(_ & _ & ->)|[(_ & _ & _ & ->)|(_ & _ & _ & ->)]]];
    reflexivity.
Qed.

Lemma updateNodeParameters_cases st name params :
  (JsMap.get name (nodes st) = None
   /\ updateNodeParameters st name params
      = (Throw ("Node " ++ Js.quoted name ++ " not found"), st))
  \/ exists node,
      JsMap.get name (nodes st) = Some node
      /\ updateNodeParameters st name params
         = (Normal tt,
            {| nodes :=
                 JsMap.set name
                   {| node_id := node_id node; node_name := node_name node;
                      node_type := node_type node;
                      typeVersion := typeVersion node;
                      position := position node;
                      parameters := spread (parameters node) params;
                      credentials := credentials node |} (nodes st);
               connections := connections st;
               nodeCounter := nodeCounter st |}).
Proof.
  unfold updateNodeParameters.
  destruct (JsMap.get name (nodes st)) as [node|]; [right|left]; eauto.
Qed.

Lemma addNode_cases st input :
  (JsMap.has (in_name input) (nodes st) = true
   /\ addNode st input
      = (Throw (duplicate_name_message (in_name input)), st))
  \/ (JsMap.has (in_name input) (nodes st) = false
      /\ addNode st input
         = (Normal (new_node st input),
            {| nodes := JsMap.set (in_name input) (new_node st input) (nodes st);
               connections := connections st;
               nodeCounter := nodeCounter st + 1 |})).
Proof.
  unfold addNode. destruct (JsMap.has _ _); [left|right]; now split.
Qed.

Lemma getNodes_In st n :
  In n (getNodes st) <-> exists k, In (k, n) (nodes st).
Proof.
  unfold getNodes, JsMap.values. rewrite in_map_iff. split.
  - intros [[k n'] [<- Hin]]. now exists k.
  - intros [k Hin]. now exists (k, n).
Qed.

Lemma node_id_prefix_injective a b : "node_" ++ a = "node_" ++ b -> a = b.
Proof. simpl. now intros [= ->]. Qed.

(** *** The graph invariant *)

Lemma Graph_init : Graph init.
Proof.
  split; simpl; try (intros; contradiction); try constructor; try lia.
Qed.

Lemma Graph_addNode st input :
  Inv st -> Graph st -> Graph (snd (addNode st input)).
Proof.
  intros Hi [G1 G2 G3 G4 G5 G6].
  destruct (addNode_cases st input) as [[_ ->]|[Hfresh ->]];
    [now split|]. simpl. split; simpl.
  - exact G1.
  - intros s l Hin. rewrite has_set, (G2 s l Hin). apply orb_true_r.
  - intros s l c Hin Hc. rewrite has_set, (G3 s l c Hin Hc). apply orb_true_r.
  - intros k n Hin. apply In_set in Hin as [[= -> ->]|Hin].
    + exists (nodeCounter st + 1). split; [lia | reflexivity].
    + destruct (G4 k n Hin) as [i [Hi1 Hi2]]. exists i. split; [lia|assumption].
  - unfold getNodes. simpl. rewrite values_set_absent by assumption.
    rewrite map_app. simpl. apply NoDup_app; [exact G5 | repeat constructor; simpl; tauto |].
    intros id Hid [<-|[]].
    apply in_map_iff in Hid as [n [Hn Hin]].
    apply getNodes_In in Hin as [k Hin].
    destruct (G4 k n Hin) as [i [Hi1 Hi2]]. rewrite Hi2 in Hn.
    apply node_id_prefix_injective, showZ_injective in Hn. lia.
  - lia.
Qed.

Lemma getNodes_removeNode st name :
  Inv st -> JsMap.has name (nodes st) = true ->
  getNodes (snd (removeNode st name))
  = filter (fun n => negb (node_name n =? name)%string) (getNodes st).
Proof.
  intros Hi Hh. unfold removeNode. rewrite Hh. simpl.
  unfold getNodes, JsMap.values, JsMap.delete. simpl.
  pose proof (inv_nodes_names st Hi) as Hnames. revert Hnames.
  generalize (nodes st) as m.
  induction m as [|[k n] m IH]; intros Hnames; simpl; [reflexivity|].
  rewrite <- (Hnames k n (or_introl eq_refl)).
  destruct (node_name n =? name)%string; simpl.
  - apply IH. intros k' n' Hin. apply Hnames. now right.
  - f_equal. apply IH. intros k' n' Hin. apply Hnames. now right.
Qed.

Lemma Graph_removeNode st name :
  Inv st -> Graph st -> Graph (snd (removeNode st name)).
Proof.
  intros Hi [G1 G2 G3 G4 G5 G6].
  destruct (JsMap.has name (nodes st)) eqn:Hh.
  2:{ unfold removeNode. rewrite Hh. simpl. now split. }
  assert (connections (snd (removeNode st name))
          = flat_map (pruned name) (JsMap.delete name (connections st))) as Hc.
  { apply removeNode_connections; [apply Hi | assumption]. }
  assert (nodes (snd (removeNode st name)) = JsMap.delete name (nodes st)) as Hn.
  { unfold removeNode. now rewrite Hh. }
  assert (nodeCounter (snd (removeNode st name)) = nodeCounter st) as Hk.
  { unfold removeNode. now rewrite Hh. }
  assert (forall s l, In (s, l) (connections (snd (removeNode st name))) ->
            s <> name
            /\ exists l0, In (s, l0) (connections st)
                          /\ l = filter (fun c => negb (target c =? name)%string) l0)
    as Hkept.
  { intros s l Hin. rewrite Hc in Hin.
    apply In_pruned in Hin as [l0 (Hin & -> & _)].
    apply In_delete in Hin as [Hin Hne]. split; [exact Hne|]. now exists l0. }
  split.
  - intros s l Hin. destruct (Hkept s l Hin) as [_ [l0 [Hin0 ->]]].
    apply NoDup_map_filter. now apply (G1 s l0).
  - intros s l Hin. destruct (Hkept s l Hin) as [Hne [l0 [Hin0 _]]].
    rewrite Hn, has_delete, (G2 s l0 Hin0).
    rewrite (proj2 (String.eqb_neq s name) Hne). reflexivity.
  - intros s l c Hin Hcin. destruct (Hkept s l Hin) as [_ [l0 [Hin0 ->]]].
    apply filter_In in Hcin as [Hcin Hne].
    rewrite Hn, has_delete, (G3 s l0 c Hin0 Hcin), Hne. reflexivity.
  - intros k n Hin. rewrite Hn in Hin. apply In_delete in Hin as [Hin _].
    rewrite Hk. now apply (G4 k).
  - rewrite getNodes_removeNode by assumption. now apply NoDup_map_filter.
  - now rewrite Hk.
Qed.

Lemma Graph_connectNodes st input :
  Graph st -> Graph (snd (connectNodes st input)).
Proof.
  intros [G1 G2 G3 G4 G5 G6].
  destruct (connectNodes_cases st input)
    as [[_ ->]|[(_ & _ & ->)|[(_ & _ & _ & ->)|(Hs & Ht & Hnew & ->)]]];
    try (now split).
  simpl.
  assert (forall c, In c (edges_from st (in_sourceNode input)) ->
                    JsMap.has (target c) (nodes st) = true) as Hold.
  { intros c Hc. unfold edges_from in Hc.
    destruct (JsMap.get (in_sourceNode input) (connections st)) as [l|] eqn:Hg;
      [|destruct Hc].
    apply (G3 (in_sourceNode input) l c); [now apply get_Some_In | assumption]. }
  split; simpl; try assumption.
  - intros s l Hin. apply In_set in Hin as [[= -> ->]|Hin]; [|now apply (G1 s)].
    rewrite map_app. simpl.
    apply NoDup_app; [| repeat constructor; simpl; tauto |].
    + unfold edges_from.
      destruct (JsMap.get (in_sourceNode input) (connections st)) as [l|] eqn:Hg;
        [|constructor].
      apply (G1 (in_sourceNode input)). now apply get_Some_In.
    + intros k Hk [<-|[]]. now apply Hnew.
  - intros s l Hin. apply In_set in Hin as [[= -> ->]|Hin]; [assumption|].
    now apply (G2 s l).
  - intros s l c Hin Hc. apply In_set in Hin as [[= -> ->]|Hin].
    + apply in_app_iff in Hc as [Hc|[<-|[]]]; [now apply Hold | exact Ht].
    + now apply (G3 s l).
Qed.

Lemma Graph_updateNodeParameters st name params :
  Graph st -> Graph (snd (updateNodeParameters st name params)).
Proof.
  intros [G1 G2 G3 G4 G5 G6].
  destruct (updateNodeParameters_cases st name params)
    as [[_ ->]|[node [Hg ->]]]; [now split|].
  simpl. split; simpl; try assumption.
  - intros s l Hin. rewrite has_set, (G2 s l Hin). apply orb_true_r.
  - intros s l c Hin Hc. rewrite has_set, (G3 s l c Hin Hc). apply orb_true_r.
  - intros k n Hin. apply In_set in Hin as [[= -> ->]|Hin]; simpl.
    + apply (G4 name node). now apply get_Some_In.
    + now apply (G4 k).
  - unfold getNodes. simpl.
    rewrite (values_set_present node_id name node) by (assumption || reflexivity).
    exact G5.
Qed.

Lemma Graph_step st op : Inv st -> Graph st -> Graph (step st op).
Proof.
  intros Hi Hg. destruct op; simpl.
  - now apply Graph_addNode.
  - now apply Graph_removeNode.
  - now apply Graph_connectNodes.
  - now apply Graph_updateNodeParameters.
  - apply Graph_init.
Qed.

Lemma reachable_Graph st : reachable st -> Graph st.
Proof.
  intros [ops <-]. induction ops as [|op ops IH] using rev_ind.
  - apply Graph_init.
  - rewrite run_snoc. apply Graph_step; [|exact IH].
    apply reachable_Inv. now exists ops.
Qed.

Lemma has_getNode st name :
  JsMap.has name (nodes st) = true <-> getNode st name <> None.
Proof.
  unfold JsMap.has, getNode. destruct (JsMap.get name (nodes st)).
  - split; [discriminate | reflexivity].
  - split; [discriminate | congruence].
Qed.

Lemma has_false_getNode st name :
  JsMap.has name (nodes st) = false <-> getNode st name = None.
Proof.
  unfold JsMap.has, getNode. destruct (JsMap.get name (nodes st)).
  - split; discriminate.
  - split; reflexivity.
Qed.

(** X1: [connectNodes] succeeds exactly when both endpoints are present
    and the source has no edge with the same target, output and input;
    otherwise it throws and the state is as before.  The source is looked
    up first: when it is missing the error names the source, also when the
    target is missing too. *)
Theorem connectNodes_succeeds_iff :
  forall st input,
    (fst (connectNodes st input) = Normal tt <->
     getNode st (in_sourceNode input) <> None
     /\ getNode st (in_targetNode input) <> None
     /\ ~ In (input_key input)
             (map edge_key (edges_from st (in_sourceNode input))))
    /\ (fst (connectNodes st input) <> Normal tt ->
        snd (connectNodes st input) = st)
    /\ (getNode st (in_sourceNode input) = None ->
        fst (connectNodes st input)
        = Throw ("Source node " ++ Js.quoted (in_sourceNode input)
                   ++ " not found")).
Proof.
  intros st input. rewrite <- !has_getNode, <- has_false_getNode.
  destruct (connectNodes_cases st input)
    as [[Hs ->]|[(Hs & Ht & ->)|[(Hs & Ht & Hk & ->)|(Hs & Ht & Hk & ->)]]];
    simpl; (split; [|split]); try reflexivity; try congruence;
    try (split; [discriminate | intros (? & ? & ?); congruence]).
  split; [now intros _ | reflexivity].
Qed.

Lemma connectNodes_succeeds_iff_witness :
  let st := run two_connected init in
  fst (connectNodes st (edge "Slack" "Webhook" 0)) = Normal tt
  /\ snd (connectNodes st (edge "Webhook" "Slack" 0)) = st
  /\ fst (connectNodes st (edge "Ghost" "Phantom" 0))
     = Throw ("Source node " ++ Js.quoted "Ghost" ++ " not found").
Proof.
  intros st.
  destruct (connectNodes_succeeds_iff st (edge "Slack" "Webhook" 0))
    as (Hiff & _ & _).
  destruct (connectNodes_succeeds_iff st (edge "Webhook" "Slack" 0))
    as (_ & Hfail & _).
  destruct (connectNodes_succeeds_iff st (edge "Ghost" "Phantom" 0))
    as (_ & _ & Hsrc).
  split; [|split].
  - apply Hiff. repeat split; try discriminate. simpl. tauto.
  - apply Hfail. discriminate.
  - apply Hsrc. reflexivity.
Defined.

Lemma edges_from_set st s l s' :
  match JsMap.get s' (JsMap.set s l (connections st)) with
  | Some x => x
  | None => []
  end = if (s =? s')%string then l else edges_from st s'.
Proof. rewrite get_set. simpl. now destruct (s =? s')%string. Qed.

Lemma connectNodes_success_effect :
  forall st input,
    fst (connectNodes st input) = Normal tt ->
    let st' := snd (connectNodes st input) in
    edges_from st' (in_sourceNode input)
    = (edges_from st (in_sourceNode input) ++ [new_edge input])%list
    /\ (forall other, other <> in_sourceNode input ->
                      edges_from st' other = edges_from st other)
    /\ nodes st' = nodes st
    /\ nodeCounter st' = nodeCounter st.
Proof.
  intros st input Hok.
  destruct (connectNodes_cases st input)
    as [[Hs He]|[(Hs & Ht & He)|[(Hs & Ht & Hk & He)|(Hs & Ht & Hk & He)]]];
    rewrite He in Hok |- *; simpl in Hok; try discriminate.
  simpl. repeat split.
  - unfold edges_from at 1. simpl. rewrite edges_from_set.
    now rewrite String.eqb_refl.
  - intros other Hne. unfold edges_from at 1. simpl. rewrite edges_from_set.
    rewrite (proj2 (String.eqb_neq (in_sourceNode input) other)) by congruence.
    reflexivity.
Qed.

(** X2: a successful [connectNodes] appends one edge at the end of the
    source's edge list, with output and input 0 and type main where the
    input names none, and touches nothing else: the edges of the other
    sources, the nodes and the ID counter are as before. *)
Theorem connectNodes_appends_edge :
  forall st input,
    fst (connectNodes st input) = Normal tt ->
    let st' := snd (connectNodes st input) in
    edges_from st' (in_sourceNode input)
    = (edges_from st (in_sourceNode input) ++ [new_edge input])%list
    /\ (forall other, other <> in_sourceNode input ->
                      edges_from st' other = edges_from st other)
    /\ nodes st' = nodes st
    /\ nodeCounter st' = nodeCounter st.
Proof. exact connectNodes_success_effect. Qed.

Lemma connectNodes_appends_edge_witness :
  let st := run two_connected init in
  let st' := snd (connectNodes st (edge "Webhook" "Slack" 1)) in
  fst (connectNodes st (edge "Webhook" "Slack" 1)) = Normal tt
  /\ edges_from st' "Webhook"
     = [internal_edge "Slack" 0 0 main; internal_edge "Slack" 1 0 main].
Proof.
  intros st st'.
  split; [reflexivity|].
  exact (proj1 (connectNodes_appends_edge st (edge "Webhook" "Slack" 1) eq_refl)).
Defined.

(** X3: once an edge is stored, asking for it again fails whatever
    connection type the second request names: [connectNodes] throws the
    already-exists error and the state is as after the first call. *)
Theorem connectNodes_twice_fails :
  forall st first second,
    fst (connectNodes st first) = Normal tt ->
    in_sourceNode second = in_sourceNode first ->
    input_key second = input_key first ->
    connectNodes (snd (connectNodes st first)) second
    = (Throw (already_exists_message second), snd (connectNodes st first)).
Proof.
  intros st first second Hok Hsrc Hkey.
  destruct (connectNodes_success_effect st first Hok) as (Hedges & _ & Hn & _).
  assert (JsMap.has (in_sourceNode first) (nodes st) = true
          /\ JsMap.has (in_targetNode first) (nodes st) = true) as [Hs Ht].
  { destruct (connectNodes_cases st first)
      as [[_ He]|[(_ & _ & He)|[(_ & _ & _ & He)|(Hs & Ht & _ & _)]]];
      try (rewrite He in Hok; discriminate). now split. }
  assert (in_targetNode second = in_targetNode first) as Htgt.
  { unfold input_key in Hkey. now injection Hkey. }
  destruct (connectNodes_cases (snd (connectNodes st first)) second)
    as [[Hs' _]|[(_ & Ht' & _)|[(_ & _ & _ & He)|(_ & _ & Hk & _)]]].
  - rewrite Hn, Hsrc in Hs'. congruence.
  - rewrite Hn, Htgt in Ht'. congruence.
  - exact He.
  - exfalso. apply Hk. rewrite Hsrc, Hedges, map_app, in_app_iff. right.
    left. rewrite Hkey. reflexivity.
Qed.

Lemma connectNodes_twice_fails_witness :
  let first := edge "Slack" "Webhook" 0 in
  let second :=
    {| in_sourceNode := "Slack"; in_targetNode := "Webhook";
       in_sourceOutput := None; in_targetInput := Some (Int 0);
       in_connectionType := Some ai_tool |} in
  let st := run two_connected init in
  connectNodes (snd (connectNodes st first)) second
  = (Throw (already_exists_message second), snd (connectNodes st first)).
Proof.
  intros first second st.
  exact (connectNodes_twice_fails st first second eq_refl eq_refl eq_refl).
Defined.

(** X4: in every reachable state the connection map refers to present
    nodes only: every source that has an entry and every target of every
    stored edge is the name of a node [getNode] finds. *)
Theorem reachable_referential_integrity :
  forall st source conns,
    reachable st ->
    JsMap.get source (connections st) = Some conns ->
    getNode st source <> None
    /\ forall c, In c conns -> getNode st (target c) <> None.
Proof.
  intros st source conns Hr Hg.
  pose proof (reachable_Graph st Hr) as G.
  apply get_Some_In in Hg. split.
  - apply has_getNode. now apply (graph_sources_present st G source conns).
  - intros c Hc. apply has_getNode.
    now apply (graph_targets_present st G source conns c).
Qed.

Lemma reachable_referential_integrity_witness :
  let st := snd (removeNode (run chain init) "End") in
  getNode st "Start" <> None
  /\ forall c, In c [internal_edge "Middle" 0 0 main] ->
               getNode st (target c) <> None.
Proof.
  intros st.
  apply (reachable_referential_integrity st "Start"
           [internal_edge "Middle" 0 0 main]).
  - apply (reachable_step (run chain init) (OpRemoveNode "End")).
    apply reachable_run.
  - reflexivity.
Defined.

(** X5: in every reachable state the edges stored for a source differ
    pairwise in target, output index or input index: no edge is stored
    twice, not even under two connection types. *)
Theorem reachable_edges_distinct :
  forall st source conns,
    reachable st ->
    JsMap.get source (connections st) = Some conns ->
    NoDup (map edge_key conns).
Proof.
  intros st source conns Hr Hg.
  apply (graph_edges_distinct st (reachable_Graph st Hr) source).
  now apply get_Some_In.
Qed.

Lemma reachable_edges_distinct_witness :
  NoDup (map edge_key
           [internal_edge "B" 0 0 main; internal_edge "C" 1 0 main]).
Proof.
  exact (reachable_edges_distinct (run branching init) "A"
           [internal_edge "B" 0 0 main; internal_edge "C" 1 0 main]
           (reachable_run branching) eq_refl).
Defined.

(** *** Identifiers *)

Lemma nodeCounter_step_no_reset st op :
  no_reset op -> nodeCounter st <= nodeCounter (step st op).
Proof.
  destruct op as [input|name|input|name params|]; simpl; intros Hop;
    try contradiction.
  - destruct (addNode_cases st input) as [[_ ->]|[_ ->]]; simpl; lia.
  - unfold removeNode. destruct (negb _); simpl; lia.
  - rewrite nodeCounter_connectNodes. lia.
  - destruct (updateNodeParameters_cases st name params)
      as [[_ ->]|[node [_ ->]]]; simpl; lia.
Qed.

Lemma added_ids ops : forall st,
  Forall no_reset ops ->
  (forall n, In n (added ops st) ->
             exists i, nodeCounter st < i /\ node_id n = "node_" ++ Js.showZ i)
  /\ NoDup (map node_id (added ops st)).
Proof.
  induction ops as [|op ops IH]; intros st Hops; simpl.
  - split; [intros n [] | constructor].
  - inversion Hops as [|? ? Hop Hrest]; subst.
    destruct (IH (step st op) Hrest) as [IHids IHnd].
    pose proof (nodeCounter_step_no_reset st op Hop) as Hmono.
    assert (forall n, In n (added ops (step st op)) ->
              exists i, nodeCounter st < i
                        /\ node_id n = "node_" ++ Js.showZ i) as Hlater.
    { intros n Hn. destruct (IHids n Hn) as [i [Hi Hid]].
      exists i. split; [lia | assumption]. }
    destruct op as [input|name|input|name params|]; simpl in *;
      try (split; assumption).
    destruct (addNode_cases st input) as [[_ He]|[_ He]]; rewrite He in *;
      simpl in *; [split; assumption|].
    split.
    + intros n [<-|Hn]; [|now apply Hlater].
      exists (nodeCounter st + 1). split; [lia | reflexivity].
    + constructor; [|exact IHnd].
      intros Hin. apply in_map_iff in Hin as [n [Hid Hn]].
      destruct (IHids n Hn) as [i [Hi Hid']]. rewrite Hid' in Hid.
      apply node_id_prefix_injective, showZ_injective in Hid. lia.
Qed.

(** X6: identifiers are not shared and not reused.  In every reachable
    state the nodes present have pairwise different ids; and along any
    sequence of operations without [reset], removals included, the nodes
    returned by the successful [addNode] calls have pairwise different
    ids. *)
Theorem node_ids_never_reused :
  (forall st, reachable st -> NoDup (map node_id (getNodes st)))
  /\ forall ops,
      Forall no_reset ops -> NoDup (map node_id (added ops init)).
Proof.
  split.
  - intros st Hr. apply (graph_ids_distinct st (reachable_Graph st Hr)).
  - intros ops Hops. now apply added_ids.
Qed.

Lemma node_ids_never_reused_witness :
  Forall no_reset remove_then_add
  /\ NoDup (map node_id (added remove_then_add init))
  /\ NoDup (map node_id (getNodes (run remove_then_add init))).
Proof.
  assert (Forall no_reset remove_then_add) as Hops.
  { unfold remove_then_add. repeat constructor. }
  split; [exact Hops|]. split.
  - exact (proj2 node_ids_never_reused remove_then_add Hops).
  - exact (proj1 node_ids_never_reused (run remove_then_add init)
             (reachable_run remove_then_add)).
Defined.

(** X7: [addNode] under a name no node has succeeds; the node it returns
    carries the name, type, version and credentials of the input and the
    input's parameters (none given: the empty record), is what [getNode]
    then finds under that name, and is the last element of [getNodes]; the
    other nodes and all connections are untouched. *)
Theorem addNode_stores_the_node :
  forall st input,
    getNode st (in_name input) = None ->
    exists node,
      let st' := snd (addNode st input) in
      fst (addNode st input) = Normal node
      /\ node_name node = in_name input
      /\ node_type node = in_type input
      /\ typeVersion node = in_typeVersion input
      /\ credentials node = in_credentials input
      /\ parameters node
         = match in_parameters input with Some p => p | None => [] end
      /\ getNode st' (in_name input) = Some node
      /\ (forall other, other <> in_name input ->
                        getNode st' other = getNode st other)
      /\ getNodes st' = (getNodes st ++ [node])%list
      /\ connections st' = connections st.
Proof.
  intros st input Hfresh. apply has_false_getNode in Hfresh.
  destruct (addNode_cases st input) as [[Hh _]|[_ He]]; [congruence|].
  exists (new_node st input). rewrite He. simpl. repeat split.
  - unfold getNode. simpl. rewrite get_set. simpl.
    now rewrite String.eqb_refl.
  - intros other Hne. unfold getNode. simpl. rewrite get_set. simpl.
    rewrite (proj2 (String.eqb_neq (in_name input) other)) by congruence.
    reflexivity.
  - unfold getNodes. simpl. now apply values_set_absent.
Qed.

Lemma addNode_stores_the_node_witness :
  let st := run two_connected init in
  getNode st "Request" = None
  /\ exists node,
      fst (addNode st http_node) = Normal node
      /\ getNode (snd (addNode st http_node)) "Request" = Some node
      /\ getNodes (snd (addNode st http_node)) = (getNodes st ++ [node])%list.
Proof.
  intros st. split; [reflexivity|].
  destruct (addNode_stores_the_node st http_node eq_refl)
    as [node (H1 & _ & _ & _ & _ & _ & H2 & _ & H3 & _)].
  exists node. split; [exact H1 | split; [exact H2 | exact H3]].
Defined.

(** *** Removal leaves the rest alone *)

Lemma get_flat_map_pruned name (m : JsMap.t string (list InternalConnection)) s :
  NoDup (JsMap.keys m) ->
  match JsMap.get s (flat_map (pruned name) m) with
  | Some l => l
  | None => []
  end
  = filter (fun c => negb (target c =? name)%string)
      match JsMap.get s m with Some l => l | None => [] end.
Proof.
  induction m as [|[k l] m IH]; simpl; intros Hnd; [reflexivity|].
  inversion Hnd as [|? ? Hni Hnd']; subst.
  unfold pruned at 1. simpl.
  destruct (filter _ l) as [|c f] eqn:Hf; simpl.
  - destruct (String.eqb_spec k s) as [->|Hne]; [|now apply IH].
    rewrite Hf.
    assert (JsMap.get s (flat_map (pruned name) m) = None) as ->.
    { apply get_None_keys. intros Hin. apply Hni.
      now apply keys_flat_map_pruned in Hin. }
    reflexivity.
  - destruct (String.eqb_spec k s) as [->|Hne]; [now rewrite Hf | now apply IH].
Qed.

(** X8: removing a present node takes away that node and the edges that
    touch it, and nothing else: the other nodes are found as before and
    keep their order, each other source keeps exactly its edges to other
    targets, in order, and the ID counter is not changed. *)
Theorem removeNode_keeps_the_rest :
  forall st X,
    reachable st ->
    getNode st X <> None ->
    let st' := snd (removeNode st X) in
    getNode st' X = None
    /\ (forall other, other <> X -> getNode st' other = getNode st other)
    /\ getNodes st'
       = filter (fun n => negb (node_name n =? X)%string) (getNodes st)
    /\ edges_from st' X = []
    /\ (forall source, source <> X ->
          edges_from st' source
          = filter (fun c => negb (target c =? X)%string)
              (edges_from st source))
    /\ nodeCounter st' = nodeCounter st.
Proof.
  intros st X Hr Hpresent st'. apply has_getNode in Hpresent.
  pose proof (reachable_Inv st Hr) as Hi.
  assert (connections st'
          = flat_map (pruned X) (JsMap.delete X (connections st))) as Hc.
  { apply removeNode_connections; [apply Hi | assumption]. }
  assert (nodes st' = JsMap.delete X (nodes st)) as Hn.
  { unfold st', removeNode. now rewrite Hpresent. }
  assert (NoDup (JsMap.keys (JsMap.delete X (connections st)))) as Hnd.
  { apply NoDup_keys_delete, Hi. }
  split; [|split; [|split; [|split; [|split]]]].
  - unfold getNode. rewrite Hn. apply get_delete_same.
  - intros other Hne. unfold getNode. rewrite Hn. now apply get_delete_other.
  - now apply getNodes_removeNode.
  - unfold edges_from. rewrite Hc, get_flat_map_pruned by exact Hnd.
    now rewrite get_delete_same.
  - intros source Hne. unfold edges_from.
    rewrite Hc, get_flat_map_pruned by exact Hnd.
    now rewrite get_delete_other.
  - unfold st', removeNode. now rewrite Hpresent.
Qed.

Lemma removeNode_keeps_the_rest_witness :
  let st := run branching init in
  let st' := snd (removeNode st "B") in
  getNode st' "B" = None
  /\ getNode st' "C" = getNode st "C"
  /\ edges_from st' "A" = [internal_edge "C" 1 0 main].
Proof.
  intros st st'.
  assert (getNode st "B" <> None) as Hp by discriminate.
  destruct (removeNode_keeps_the_rest st "B" (reachable_run branching) Hp)
    as (H1 & H2 & _ & _ & H5 & _).
  split; [exact H1|]. split.
  - apply H2. discriminate.
  - unfold st'. rewrite (H5 "A") by discriminate. reflexivity.
Defined.

(** *** Parameters *)

Lemma get_spread (b : JsRecord) : forall (a : JsRecord) k,
  NoDup (JsMap.keys b) ->
  JsMap.get k (spread a b)
  = match JsMap.get k b with
    | Some v => Some v
    | None => JsMap.get k a
    end.
Proof.
  unfold spread.
  induction b as [|[k0 v0] b IH]; intros a k Hnd; simpl; [reflexivity|].
  inversion Hnd as [|? ? Hni Hnd']; subst.
  rewrite IH by assumption. rewrite get_set. simpl.
  destruct (String.eqb_spec k0 k) as [->|Hne]; [|reflexivity].
  now rewrite (proj2 (get_None_keys k b) Hni).
Qed.

(** X9: [updateNodeParameters] on a present node merges the given
    parameters over the stored ones: a key of the update gets the update's
    value, every other key keeps its stored value.  The node keeps its id,
    name, type, version, position and credentials and its place in
    [getNodes]; the other nodes, the connections and the ID counter are
    untouched.  On a name no node has it throws and changes nothing. *)
Theorem updateNodeParameters_merges :
  forall st name params,
    NoDup (JsMap.keys params) ->
    (forall node,
        getNode st name = Some node ->
        let st' := snd (updateNodeParameters st name params) in
        fst (updateNodeParameters st name params) = Normal tt
        /\ exists node',
            getNode st' name = Some node'
            /\ (forall k,
                   JsMap.get k (parameters node')
                   = match JsMap.get k params with
                     | Some v => Some v
                     | None => JsMap.get k (parameters node)
                     end)
            /\ node_id node' = node_id node
            /\ node_name node' = node_name node
            /\ node_type node' = node_type node
            /\ typeVersion node' = typeVersion node
            /\ position node' = position node
            /\ credentials node' = credentials node
            /\ (forall other, other <> name ->
                              getNode st' other = getNode st other)
            /\ map node_name (getNodes st') = map node_name (getNodes st)
            /\ connections st' = connections st
            /\ nodeCounter st' = nodeCounter st)
    /\ (getNode st name = None ->
        updateNodeParameters st name params
        = (Throw ("Node " ++ Js.quoted name ++ " not found"), st)).
Proof.
  intros st name params Hnd. split.
  - intros node Hg st'. unfold getNode in Hg.
    destruct (updateNodeParameters_cases st name params)
      as [[Hnone _]|[node0 [Hg0 He]]]; [congruence|].
    rewrite Hg in Hg0. injection Hg0 as <-.
    unfold st'. rewrite He. simpl. split; [reflexivity|].
    eexists. split.
    { unfold getNode. simpl. rewrite get_set. simpl.
      now rewrite String.eqb_refl. }
    simpl. repeat split.
    + intros k. now apply get_spread.
    + intros other Hne. unfold getNode. simpl. rewrite get_set. simpl.
      rewrite (proj2 (String.eqb_neq name other)) by congruence. reflexivity.
    + unfold getNodes. simpl.
      now apply (values_set_present node_name name node).
  - intros Hnone. unfold getNode in Hnone.
    destruct (updateNodeParameters_cases st name params)
      as [[_ He]|[node0 [Hg0 _]]]; [exact He | congruence].
Qed.

Lemma updateNodeParameters_merges_witness :
  let st := snd (addNode init http_node) in
  let params := [("method", JStr "POST"); ("timeout", JNum 30)] in
  NoDup (JsMap.keys params)
  /\ exists node',
      getNode (snd (updateNodeParameters st "Request" params)) "Request"
      = Some node'
      /\ JsMap.get "url" (parameters node') = Some (JStr "https://a.example")
      /\ JsMap.get "method" (parameters node') = Some (JStr "POST")
      /\ JsMap.get "timeout" (parameters node') = Some (JNum 30).
Proof.
  intros st params.
  assert (NoDup (JsMap.keys params)) as Hnd.
  { repeat constructor; simpl; intuition discriminate. }
  split; [exact Hnd|].
  destruct (proj1 (updateNodeParameters_merges st "Request" params Hnd)
              _ eq_refl) as (_ & node' & Hg & Hk & _).
  exists node'. split; [exact Hg|]. split; [|split]; rewrite Hk; reflexivity.
Defined.

(** *** Sets *)

Lemma JsSet_has_iff x s : JsSet.has x s = true <-> In x s.
Proof.
  unfold JsSet.has. rewrite existsb_exists. split.
  - intros [y [Hin Hy]]. apply String.eqb_eq in Hy. now subst.
  - intros Hin. exists x. split; [assumption | apply String.eqb_refl].
Qed.

Lemma JsSet_has_false_iff x s : JsSet.has x s = false <-> ~ In x s.
Proof.
  rewrite <- JsSet_has_iff. destruct (JsSet.has x s); intuition congruence.
Qed.

Lemma In_JsSet_add x y s : In x (JsSet.add y s) <-> x = y \/ In x s.
Proof.
  unfold JsSet.add. destruct (JsSet.has y s) eqn:Hh.
  - apply JsSet_has_iff in Hh. split; [now right|].
    intros [->|Hin]; assumption.
  - rewrite in_app_iff. simpl. intuition congruence.
Qed.

Lemma In_fold_add l : forall s x,
  In x (fold_left (fun s x => JsSet.add x s) l s) <-> In x s \/ In x l.
Proof.
  induction l as [|y l IH]; intros s x; simpl; [tauto|].
  rewrite IH, In_JsSet_add. intuition congruence.
Qed.

Lemma In_of_list x l : In x (JsSet.of_list l) <-> In x l.
Proof. unfold JsSet.of_list. rewrite In_fold_add. simpl. tauto. Qed.

Lemma length_fold_add l : forall s,
  (List.length (fold_left (fun s x => JsSet.add x s) l s)
   <= List.length s + List.length l)%nat
  /\ (List.length (fold_left (fun s x => JsSet.add x s) l s)
      = (List.length s + List.length l)%nat
      <-> NoDup l /\ forall x, In x l -> ~ In x s).
Proof.
  induction l as [|y l IH]; intros s; simpl.
  - split; [lia|]. split; [intros _; split; [constructor | tauto] | lia].
  - destruct (IH (JsSet.add y s)) as [Hle Hiff].
    unfold JsSet.add in *. destruct (JsSet.has y s) eqn:Hh.
    + apply JsSet_has_iff in Hh. split; [lia|]. split.
      * intros Heq. lia.
      * intros [_ Hdis]. exfalso. apply (Hdis y); [now left | assumption].
    + apply JsSet_has_false_iff in Hh.
      rewrite length_app in Hle, Hiff. simpl in Hle, Hiff.
      split; [lia|]. split.
      * intros Heq. assert (NoDup l /\ forall x, In x l -> ~ In x (s ++ [y])%list)
          as [Hnd Hdis] by (apply Hiff; lia).
        split.
        -- constructor; [|assumption]. intros Hin.
           apply (Hdis y Hin). apply in_or_app. right. now left.
        -- intros x [<-|Hx]; [assumption|]. intros Hs.
           apply (Hdis x Hx). apply in_or_app. now left.
      * intros [Hnd Hdis]. inversion Hnd as [|? ? Hni Hnd']; subst.
        assert (List.length
                  (fold_left (fun s x => JsSet.add x s) l (s ++ [y])%list)
                = (List.length s + 1 + List.length l)%nat) as Heq.
        { apply Hiff. split; [assumption|]. intros x Hx Hin.
          apply in_app_iff in Hin as [Hin|[<-|[]]].
          - apply (Hdis x); [now right | assumption].
          - contradiction. }
        unfold JsSet.add in Heq. lia.
Qed.

(** A set built from a list has as many elements as the list exactly
    when the list has no repetition. *)
Lemma size_of_list_iff l :
  JsSet.size (JsSet.of_list l) = List.length l <-> NoDup l.
Proof.
  unfold JsSet.size, JsSet.of_list.
  destruct (length_fold_add l JsSet.empty) as [_ Hiff]. simpl in Hiff.
  rewrite Hiff. split; [tauto|]. intros Hnd. split; [assumption|].
  intros x _ [].
Qed.

Lemma size_test_iff l :
  negb (Nat.eqb (JsSet.size (JsSet.of_list l)) (List.length l)) = false
  <-> NoDup l.
Proof.
  rewrite negb_false_iff, Nat.eqb_eq. apply size_of_list_iff.
Qed.

(** *** The schema *)

Lemma issue_if_nil b p msg : issue_if b p msg = [] <-> b = false.
Proof. unfold issue_if. destruct b; split; congruence. Qed.

Lemma string_min1_nil msg p s : string_min1 msg p s = [] <-> s <> EmptyString.
Proof.
  unfold string_min1. rewrite issue_if_nil.
  destruct s; cbn; split; try congruence; try discriminate.
Qed.

Lemma flat_mapi_nil {A B : Type} (f : nat -> A -> list B) l : forall i,
  flat_mapi f i l = [] <->
  forall j x, nth_error l j = Some x -> f (i + j)%nat x = [].
Proof.
  induction l as [|y l IH]; intros i; simpl.
  - split; [|reflexivity]. intros _ j x Hn. now destruct j.
  - split.
    + intros Happ. apply app_eq_nil in Happ as [Hy Hl].
      intros j x Hn. destruct j as [|j]; simpl in Hn.
      * injection Hn as <-. now rewrite Nat.add_0_r.
      * rewrite Nat.add_succ_r. apply (proj1 (IH (S i)) Hl j x Hn).
    + intros Hall. rewrite (proj2 (IH (S i))).
      * rewrite app_nil_r. specialize (Hall 0%nat y eq_refl).
        now rewrite Nat.add_0_r in Hall.
      * intros j x Hn. specialize (Hall (S j) x Hn).
        now rewrite Nat.add_succ_r in Hall.
Qed.

Lemma flat_mapi_nil_In {A B : Type} (f : nat -> A -> list B)
    (P : A -> Prop) l i :
  (forall k x, f k x = [] <-> P x) ->
  flat_mapi f i l = [] <-> forall x, In x l -> P x.
Proof.
  intros Hf. rewrite flat_mapi_nil. split.
  - intros Hall x Hin. apply In_nth_error in Hin as [j Hj].
    apply (Hf (i + j)%nat). now apply Hall.
  - intros Hall j x Hn. apply Hf, Hall. now apply nth_error_In in Hn.
Qed.

Lemma flat_map_nil {A B : Type} (f : A -> list B) l :
  flat_map f l = [] <-> forall x, In x l -> f x = [].
Proof.
  induction l as [|y l IH]; simpl.
  - split; [intros _ x [] | reflexivity].
  - split.
    + intros Happ. apply app_eq_nil in Happ as [Hy Hl].
      intros x [<-|Hx]; [assumption | now apply IH].
    + intros Hall. rewrite (Hall y (or_introl eq_refl)). simpl.
      apply IH. intros x Hx. apply Hall. now right.
Qed.

Lemma type_prefix_ok_iff ty :
  type_prefix_ok ty = true <->
  exists rest,
    ty = "n8n-nodes-base." ++ rest \/ ty = "@n8n/n8n-nodes-langchain." ++ rest.
Proof.
  unfold type_prefix_ok, Js.startsWith.
  rewrite orb_true_iff, !prefix_iff. split.
  - intros [[r Hr]|[r Hr]]; exists r; [now left | now right].
  - intros [r [Hr|Hr]]; [left | right]; now exists r.
Qed.

Lemma positive_integer_iff n :
  Number.isInteger n = true /\ Number.leb n 0 = false <-> positive_integer n.
Proof.
  unfold positive_integer. rewrite Number_leb_0. destruct n as [z|z f]; simpl.
  - rewrite orb_false_iff, Z.ltb_ge, Z.eqb_neq. split.
    + intros [_ [H1 H2]]. exists z. split; [reflexivity | lia].
    + intros [z' [[= <-] Hz]]. split; [reflexivity | lia].
  - split; [intros [H _]; discriminate | intros [z' [H _]]; discriminate].
Qed.

Lemma non_negative_integer_iff n :
  Number.isInteger n = true /\ Number.ltb n 0 = false
  <-> non_negative_integer n.
Proof.
  unfold non_negative_integer. rewrite Number_ltb_0.
  destruct n as [z|z f]; simpl.
  - rewrite Z.ltb_ge. split.
    + intros [_ H]. exists z. split; [reflexivity | lia].
    + intros [z' [[= <-] Hz]]. split; [reflexivity | lia].
  - split; [intros [H _]; discriminate | intros [z' [H _]]; discriminate].
Qed.

Lemma n8nNodeSchema_nil p n :
  n8nNodeSchema p n = [] <-> node_well_formed n.
Proof.
  unfold n8nNodeSchema, node_well_formed.
  split.
  - intros H.
    apply app_eq_nil in H as [H1 H]. apply app_eq_nil in H as [H2 H].
    apply app_eq_nil in H as [H3 H]. apply app_eq_nil in H as [H4 H].
    apply app_eq_nil in H as [H5 H6].
    apply string_min1_nil in H1, H2.
    apply issue_if_nil, negb_false_iff, type_prefix_ok_iff in H4.
    apply issue_if_nil, negb_false_iff in H5. apply issue_if_nil in H6.
    split; [assumption|]. split; [assumption|]. split; [assumption|].
    apply positive_integer_iff. now split.
  - intros (H1 & H2 & H3 & H4).
    assert (node_type n <> EmptyString) as H3'.
    { destruct H3 as [r [-> | ->]]; discriminate. }
    rewrite (proj2 (string_min1_nil _ _ _) H1).
    rewrite (proj2 (string_min1_nil _ _ _) H2).
    rewrite (proj2 (string_min1_nil _ _ _) H3').
    apply type_prefix_ok_iff in H3. rewrite H3. simpl.
    apply positive_integer_iff in H4 as [H4 H5]. now rewrite H4, H5.
Qed.

Lemma n8nConnectionTargetSchema_nil p t :
  n8nConnectionTargetSchema p t = [] <-> target_well_formed t.
Proof.
  unfold n8nConnectionTargetSchema, target_well_formed. split.
  - intros H. apply app_eq_nil in H as [H1 H].
    apply app_eq_nil in H as [H2 H3].
    apply string_min1_nil in H1.
    apply issue_if_nil, negb_false_iff in H2. apply issue_if_nil in H3.
    split; [assumption|]. apply non_negative_integer_iff. now split.
  - intros [H1 H2]. rewrite (proj2 (string_min1_nil _ _ _) H1). simpl.
    apply non_negative_integer_iff in H2 as [H2 H3]. now rewrite H2, H3.
Qed.

Lemma n8nConnectionsSchema_nil p c :
  n8nConnectionsSchema p c = [] <->
  forall source entry slot t,
    In (source, entry) c -> In slot (nc_main entry) -> In t slot ->
    target_well_formed t.
Proof.
  unfold n8nConnectionsSchema, JsMap.entries. rewrite flat_map_nil. split.
  - intros Hall source entry slot t Hin Hslot Ht.
    specialize (Hall (source, entry) Hin). simpl in Hall.
    rewrite flat_mapi_nil in Hall.
    apply In_nth_error in Hslot as [i Hi]. specialize (Hall i slot Hi).
    rewrite flat_mapi_nil in Hall.
    apply In_nth_error in Ht as [j Hj]. specialize (Hall j t Hj).
    now apply n8nConnectionTargetSchema_nil in Hall.
  - intros Hall [source entry] Hin. simpl.
    apply flat_mapi_nil. intros i slot Hi.
    apply flat_mapi_nil. intros j t Hj.
    apply n8nConnectionTargetSchema_nil.
    apply (Hall source entry slot t Hin);
      [now apply nth_error_In in Hi | now apply nth_error_In in Hj].
Qed.

Lemma n8nWorkflowSchema_nil w :
  n8nWorkflowSchema w = [] <-> structurally_valid w.
Proof.
  unfold n8nWorkflowSchema, structurally_valid. split.
  - intros H.
    apply app_eq_nil in H as [H1 H]. apply app_eq_nil in H as [H2 H].
    apply app_eq_nil in H as [H3 H]. apply app_eq_nil in H as [H4 H5].
    apply string_min1_nil in H1.
    apply issue_if_nil in H2.
    rewrite (flat_mapi_nil_In _ node_well_formed) in H3
      by (intros; apply n8nNodeSchema_nil).
    rewrite n8nConnectionsSchema_nil in H4.
    apply issue_if_nil, negb_false_iff, String.eqb_eq in H5.
    split; [|split; [|split; [|split]]]; try assumption.
    + intros Hn. rewrite Hn in H2. discriminate.
    + intros source t [entry [slot (Hin & Hslot & Ht)]].
      apply (H4 source entry slot t Hin Hslot Ht).
  - intros (H1 & H2 & H3 & H4 & H5).
    rewrite (proj2 (string_min1_nil _ _ _) H1).
    assert (Nat.ltb (List.length (wf_nodes w)) 1 = false) as ->.
    { destruct (wf_nodes w); [congruence | reflexivity]. }
    rewrite (proj2 (flat_mapi_nil_In _ node_well_formed _ _
                      (fun k x => n8nNodeSchema_nil _ x)) H3).
    rewrite (proj2 (n8nConnectionsSchema_nil _ _)).
    + rewrite H5. reflexivity.
    + intros source entry slot t Hin Hslot Ht.
      apply (H4 source t). now exists entry, slot.
Qed.

(** X10: on a workflow of the declared type, the schema reports no issue
    exactly when the workflow has a name and at least one node, every
    node has an id, a name, a type in one of the two namespaces and a
    version that is a positive integer, every connection target has a name
    and an index that is a non-negative integer, and the execution order
    is v1. *)
Theorem schema_accepts_iff :
  forall w, n8nWorkflowSchema w = [] <-> structurally_valid w.
Proof. exact n8nWorkflowSchema_nil. Qed.

Lemma schema_accepts_iff_witness :
  structurally_valid dangling
  /\ ~ structurally_valid (toN8nWorkflow init "W")
  /\ map format_issue (n8nWorkflowSchema versioned_4_2)
     = ["nodes.0.typeVersion: Expected integer, received float"]
  /\ ~ structurally_valid versioned_4_2.
Proof.
  split; [|split; [|split]].
  - apply (proj1 (schema_accepts_iff dangling)). reflexivity.
  - intros Hs. apply (proj2 (schema_accepts_iff (toN8nWorkflow init "W"))) in Hs.
    discriminate Hs.
  - reflexivity.
  - intros Hs. apply (proj2 (schema_accepts_iff versioned_4_2)) in Hs.
    discriminate Hs.
Defined.

(** *** The semantic phase *)

Lemma length_append (a b : string) :
  String.length (a ++ b) = (String.length a + String.length b)%nat.
Proof. induction a as [|c a IH]; simpl; [reflexivity | now rewrite IH]. Qed.

Lemma append_cancel_r (s a b : string) : a ++ s = b ++ s -> a = b.
Proof.
  revert b. induction a as [|c a IH]; intros [|d b] H; simpl in H.
  - reflexivity.
  - exfalso. apply (f_equal String.length) in H. simpl in H.
    rewrite length_append in H. lia.
  - exfalso. apply (f_equal String.length) in H. simpl in H.
    rewrite length_append in H. lia.
  - injection H as -> H. f_equal. now apply IH.
Qed.

Lemma duplicate_node_name_error_injective a b :
  duplicate_node_name_error a = duplicate_node_name_error b -> a = b.
Proof.
  unfold duplicate_node_name_error, Js.quoted. simpl. intros [= H].
  now apply append_cancel_r in H.
Qed.

Lemma orphan_warning_injective a b :
  orphan_warning a = orphan_warning b -> a = b.
Proof.
  unfold orphan_warning, Js.quoted. simpl. intros [= H].
  apply append_cancel_r in H. now apply append_cancel_r in H.
Qed.

Lemma duplicate_name_errors_nil ns : forall seen,
  duplicate_name_errors seen ns = [] <->
  NoDup (map node_name ns)
  /\ forall x, In x (map node_name ns) -> ~ In x seen.
Proof.
  induction ns as [|n ns IH]; intros seen; simpl.
  - split; [intros _; split; [constructor | tauto] | reflexivity].
  - split.
    + intros H. apply app_eq_nil in H as [Hn Hrest].
      apply IH in Hrest as [Hnd Hdis].
      assert (~ In (node_name n) seen) as Hns.
      { apply JsSet_has_false_iff. destruct (JsSet.has _ _); [discriminate|reflexivity]. }
      split.
      * constructor; [|assumption]. intros Hin.
        apply (Hdis _ Hin). apply In_JsSet_add. now left.
      * intros x [<-|Hx]; [assumption|]. intros Hs.
        apply (Hdis x Hx). apply In_JsSet_add. now right.
    + intros [Hnd Hdis]. inversion Hnd as [|? ? Hni Hnd']; subst.
      rewrite (proj2 (JsSet_has_false_iff _ _) (Hdis _ (or_introl eq_refl))).
      simpl. apply IH. split; [assumption|].
      intros x Hx Hin. apply In_JsSet_add in Hin as [->|Hin].
      * contradiction.
      * apply (Hdis x); [now right | assumption].
Qed.

Lemma duplicate_name_errors_In msg ns : forall seen,
  In msg (duplicate_name_errors seen ns) <->
  exists pre n post,
    ns = (pre ++ n :: post)%list
    /\ msg = duplicate_node_name_error (node_name n)
    /\ (In (node_name n) seen \/ In (node_name n) (map node_name pre)).
Proof.
  induction ns as [|n ns IH]; intros seen; simpl.
  - split; [intros [] | intros [pre [n [post (H & _)]]]; now destruct pre].
  - rewrite in_app_iff, IH. split.
    + intros [Hn|[pre [m [post (-> & -> & Hseen)]]]].
      * destruct (JsSet.has _ _) eqn:Hh; [|destruct Hn].
        destruct Hn as [<-|[]]. apply JsSet_has_iff in Hh.
        exists [], n, ns. repeat split. now left.
      * exists (n :: pre), m, post. repeat split.
        rewrite In_JsSet_add in Hseen. simpl.
        destruct Hseen as [[->|Hs]|Hp]; [right; now left | now left |
                                         right; now right].
    + intros [pre [m [post (Heq & -> & Hseen)]]].
      destruct pre as [|p pre]; simpl in Heq; injection Heq as <- ->.
      * left. destruct Hseen as [Hs|[]].
        rewrite (proj2 (JsSet_has_iff _ _) Hs). now left.
      * right. exists pre, m, post. repeat split.
        rewrite In_JsSet_add. simpl in Hseen. intuition.
Qed.

Lemma connection_errors_nil names c :
  connection_errors (JsSet.of_list names) c = [] <->
  (forall source entry, In (source, entry) c -> In source names)
  /\ (forall source entry slot t,
         In (source, entry) c -> In slot (nc_main entry) -> In t slot ->
         In (ct_node t) names).
Proof.
  unfold connection_errors, JsMap.entries. rewrite flat_map_nil. split.
  - intros Hall. split.
    + intros source entry Hin. specialize (Hall _ Hin). simpl in Hall.
      apply app_eq_nil in Hall as [Hs _].
      destruct (JsSet.has source _) eqn:Hh; [|discriminate].
      apply JsSet_has_iff in Hh. now apply (proj1 (In_of_list _ _)) in Hh.
    + intros source entry slot t Hin Hslot Ht.
      specialize (Hall _ Hin). simpl in Hall.
      apply app_eq_nil in Hall as [_ Hts].
      rewrite flat_map_nil in Hts. specialize (Hts slot Hslot).
      rewrite flat_map_nil in Hts. specialize (Hts t Ht).
      destruct (JsSet.has (ct_node t) _) eqn:Hh; [|discriminate].
      apply JsSet_has_iff in Hh. now apply (proj1 (In_of_list _ _)) in Hh.
  - intros [Hs Ht] [source entry] Hin. simpl.
    rewrite (proj2 (JsSet_has_iff _ _)
               (proj2 (In_of_list _ _) (Hs source entry Hin))). simpl.
    apply flat_map_nil. intros slot Hslot.
    apply flat_map_nil. intros t Htin.
    now rewrite (proj2 (JsSet_has_iff _ _)
                   (proj2 (In_of_list _ _) (Ht source entry slot t Hin Hslot Htin))).
Qed.

Lemma semantic_errors_nil w :
  semantic_errors w = [] <-> semantically_valid w.
Proof.
  unfold semantic_errors, semantically_valid, node_names. split.
  - intros H. apply app_eq_nil in H as [H1 H]. apply app_eq_nil in H as [H2 H3].
    apply connection_errors_nil in H3 as [H3 H4].
    split; [|split; [|split]].
    + destruct (negb (Nat.eqb (JsSet.size (JsSet.of_list
                                             (map node_name (wf_nodes w)))) _))
        eqn:Ht.
      * apply duplicate_name_errors_nil in H1. apply H1.
      * rewrite <- (length_map node_name) in Ht. now apply size_test_iff in Ht.
    + destruct (negb (Nat.eqb (JsSet.size (JsSet.of_list
                                             (map node_id (wf_nodes w)))) _))
        eqn:Ht; [discriminate|].
      rewrite <- (length_map node_id) in Ht. now apply size_test_iff in Ht.
    + exact H3.
    + intros source t [entry [slot (Hin & Hslot & Ht)]]. now apply (H4 source entry slot).
  - intros (H1 & H2 & H3 & H4).
    pose proof (proj2 (size_test_iff _) H1) as T1.
    pose proof (proj2 (size_test_iff _) H2) as T2.
    rewrite length_map in T1, T2. rewrite T1, T2. simpl.
    apply connection_errors_nil. split; [exact H3|].
    intros source entry slot t Hin Hslot Ht. apply (H4 source).
    now exists entry, slot.
Qed.

Lemma validateWorkflow_valid_iff :
  forall w,
    (valid (validateWorkflow w) = true <->
     structurally_valid w /\ semantically_valid w)
    /\ (validateAndClean w = Normal w <->
        structurally_valid w /\ semantically_valid w)
    /\ (valid (validateWorkflow w) = false ->
        validateAndClean w
        = Throw ("Invalid workflow:" ++ Js.nl
                   ++ Js.join Js.nl (errors (validateWorkflow w)))).
Proof.
  intros w.
  assert (valid (validateWorkflow w) = true <->
          structurally_valid w /\ semantically_valid w) as Hiff.
  { rewrite <- n8nWorkflowSchema_nil, <- semantic_errors_nil.
    unfold validateWorkflow.
    destruct (n8nWorkflowSchema w) as [|i l] eqn:Hs; simpl.
    - rewrite length_zero_iff. tauto.
    - split; [discriminate | intros [H _]; discriminate]. }
  split; [exact Hiff|]. unfold validateAndClean.
  destruct (valid (validateWorkflow w)); simpl.
  - split; [|discriminate].
    split; [intros _; now apply Hiff | reflexivity].
  - split; [|reflexivity]. split; [discriminate|].
    intros H. apply Hiff in H. discriminate.
Qed.

(** X11: a workflow is valid exactly when it meets the structural
    conditions of the schema and, in addition, no two nodes share a name,
    no two share an id, and every connection source and every connection
    target is the name of a node.  [validateAndClean] returns the workflow
    unchanged in exactly that case and throws otherwise. *)
Theorem valid_iff_well_formed :
  forall w,
    (valid (validateWorkflow w) = true <->
     structurally_valid w /\ semantically_valid w)
    /\ (validateAndClean w = Normal w <->
        structurally_valid w /\ semantically_valid w)
    /\ (valid (validateWorkflow w) = false ->
        validateAndClean w
        = Throw ("Invalid workflow:" ++ Js.nl
                   ++ Js.join Js.nl (errors (validateWorkflow w)))).
Proof. exact validateWorkflow_valid_iff. Qed.

Lemma valid_iff_well_formed_witness :
  valid (validateWorkflow twice_X) = false
  /\ validateAndClean twice_X
     = Throw ("Invalid workflow:" ++ Js.nl
                ++ duplicate_node_name_error "X")
  /\ ~ semantically_valid twice_X.
Proof.
  assert (valid (validateWorkflow twice_X) = false) as Hv by reflexivity.
  split; [exact Hv|]. split.
  - exact (proj2 (proj2 (valid_iff_well_formed twice_X)) Hv).
  - intros Hs.
    assert (structurally_valid twice_X) as Hst.
    { apply n8nWorkflowSchema_nil. reflexivity. }
    pose proof (proj2 (proj1 (valid_iff_well_formed twice_X)) (conj Hst Hs)).
    congruence.
Defined.

Lemma errors_schema_ok w :
  n8nWorkflowSchema w = [] ->
  errors (validateWorkflow w) = semantic_errors w
  /\ warnings (validateWorkflow w) = semantic_warnings w
  /\ valid (validateWorkflow w) = Nat.eqb (List.length (semantic_errors w)) 0.
Proof. intros Hs. now rewrite (validateWorkflow_schema_ok w Hs). Qed.

Lemma In_invalid {A : Type} (x : A) l :
  In x l -> Nat.eqb (List.length l) 0 = false.
Proof. destruct l; [intros [] | reflexivity]. Qed.

Lemma repeated_name_not_NoDup (pre post : list N8nNode) n :
  In (node_name n) (map node_name pre) ->
  ~ NoDup (map node_name (pre ++ n :: post)%list).
Proof.
  intros Hin Hnd. rewrite map_app in Hnd. simpl in Hnd.
  apply NoDup_remove_2 in Hnd. apply Hnd. apply in_or_app. now left.
Qed.

(** X12: on a workflow that passes the schema, the error
    [Duplicate node name: "x"] is reported exactly when some node named x
    comes after another node named x. *)
Theorem duplicate_name_reported_iff :
  forall w x,
    n8nWorkflowSchema w = [] ->
    (In (duplicate_node_name_error x) (errors (validateWorkflow w)) <->
     exists pre n post,
       wf_nodes w = (pre ++ n :: post)%list
       /\ node_name n = x
       /\ In x (map node_name pre)).
Proof.
  intros w x Hs. destruct (errors_schema_ok w Hs) as (-> & _ & _).
  unfold semantic_errors. rewrite !in_app_iff. split.
  - intros [H1|[H2|H3]].
    + destruct (negb _); [|destruct H1].
      apply duplicate_name_errors_In in H1
        as [pre [n [post (Heq & Hmsg & [[]|Hpre])]]].
      apply duplicate_node_name_error_injective in Hmsg. subst x.
      now exists pre, n, post.
    + destruct (negb _); [|destruct H2]. destruct H2 as [Heq|[]].
      discriminate Heq.
    + unfold connection_errors in H3. apply in_flat_map in H3 as [e [_ H3]].
      apply in_app_iff in H3 as [H3|H3].
      * destruct (negb _); [|destruct H3]. destruct H3 as [Heq|[]].
        discriminate Heq.
      * apply in_flat_map in H3 as [o [_ H3]].
        apply in_flat_map in H3 as [c [_ H3]].
        destruct (negb _); [|destruct H3]. destruct H3 as [Heq|[]].
        discriminate Heq.
  - intros [pre [n [post (Heq & <- & Hpre)]]]. left.
    assert (negb (Nat.eqb (JsSet.size (JsSet.of_list
                                         (map node_name (wf_nodes w))))
                    (List.length (wf_nodes w))) = true) as ->.
    { apply not_false_is_true. intros Ht.
      rewrite <- (length_map node_name) in Ht. apply size_test_iff in Ht.
      rewrite Heq in Ht. now apply (repeated_name_not_NoDup pre post n). }
    apply duplicate_name_errors_In. exists pre, n, post. repeat split; auto.
Qed.

Lemma duplicate_name_reported_iff_witness :
  n8nWorkflowSchema twice_X = []
  /\ In (duplicate_node_name_error "X") (errors (validateWorkflow twice_X)).
Proof.
  split; [reflexivity|].
  apply (proj2 (duplicate_name_reported_iff twice_X "X" eq_refl)).
  exists [sample_node "1" "X" "n8n-nodes-base.webhook"],
         (sample_node "2" "X" "n8n-nodes-base.set"), [].
  repeat split. now left.
Defined.

(** X13: on a workflow that passes the schema, every connection whose
    source key is not a node name and every connection target that is not
    a node name is reported by its own error, naming the missing node (and
    for a target the source it is wired from), and the workflow is
    invalid. *)
Theorem dangling_reference_reported :
  forall w source entry,
    n8nWorkflowSchema w = [] ->
    In (source, entry) (wf_connections w) ->
    (~ In source (node_names w) ->
     In (missing_source_error source) (errors (validateWorkflow w))
     /\ valid (validateWorkflow w) = false)
    /\ (forall slot t,
           In slot (nc_main entry) -> In t slot ->
           ~ In (ct_node t) (node_names w) ->
           In (missing_target_error (ct_node t) source)
              (errors (validateWorkflow w))
           /\ valid (validateWorkflow w) = false).
Proof.
  intros w source entry Hs Hin.
  destruct (errors_schema_ok w Hs) as (-> & _ & ->).
  assert (forall msg,
             In msg (connection_errors
                       (JsSet.of_list (map node_name (wf_nodes w)))
                       (wf_connections w)) ->
             In msg (semantic_errors w)
             /\ Nat.eqb (List.length (semantic_errors w)) 0 = false) as Hrep.
  { intros msg Hmsg.
    assert (In msg (semantic_errors w)) as H.
    { unfold semantic_errors. rewrite !in_app_iff. right. now right. }
    split; [exact H | now apply (In_invalid msg)]. }
  split.
  - intros Hmiss. apply Hrep. unfold connection_errors.
    apply in_flat_map. exists (source, entry). split; [exact Hin|]. simpl.
    apply in_or_app. left.
    assert (JsSet.has source (JsSet.of_list (map node_name (wf_nodes w)))
            = false) as ->.
    { apply JsSet_has_false_iff. intros H.
      apply (proj1 (In_of_list _ _)) in H. contradiction. }
    now left.
  - intros slot t Hslot Ht Hmiss. apply Hrep. unfold connection_errors.
    apply in_flat_map. exists (source, entry). split; [exact Hin|]. simpl.
    apply in_or_app. right.
    apply in_flat_map. exists slot. split; [exact Hslot|].
    apply in_flat_map. exists t. split; [exact Ht|].
    assert (JsSet.has (ct_node t) (JsSet.of_list (map node_name (wf_nodes w)))
            = false) as ->.
    { apply JsSet_has_false_iff. intros H.
      apply (proj1 (In_of_list _ _)) in H. contradiction. }
    now left.
Qed.

Lemma dangling_reference_reported_witness :
  In (missing_target_error "Ghost" "A") (errors (validateWorkflow dangling))
  /\ valid (validateWorkflow dangling) = false.
Proof.
  apply (proj2 (dangling_reference_reported dangling "A"
                  {| nc_main := [[connection_target "Ghost" main 0]] |}
                  eq_refl (or_introl eq_refl))
           [connection_target "Ghost" main 0]
           (connection_target "Ghost" main 0)
           (or_introl eq_refl) (or_introl eq_refl)).
  simpl. intuition discriminate.
Defined.

(** *** Orphans *)

Lemma In_fold_targets slot : forall acc x,
  In x (fold_left (fun acc2 conn => JsSet.add (ct_node conn) acc2) slot acc)
  <-> In x acc \/ exists t, In t slot /\ ct_node t = x.
Proof.
  induction slot as [|t slot IH]; intros acc x; simpl.
  - split; [now left | intros [H|[t [[] _]]]; exact H].
  - rewrite IH, In_JsSet_add. split.
    + intros [[->|H]|[t' [Ht' Hx]]].
      * right. exists t. split; [now left | reflexivity].
      * now left.
      * right. exists t'. split; [now right | assumption].
    + intros [H|[t' [[<-|Ht'] Hx]]].
      * left. now right.
      * left. left. now symmetry.
      * right. now exists t'.
Qed.

Lemma In_fold_slots slots : forall acc x,
  In x (fold_left
          (fun acc1 outputConnections =>
             fold_left (fun acc2 conn => JsSet.add (ct_node conn) acc2)
               outputConnections acc1) slots acc)
  <-> In x acc \/ exists slot t, In slot slots /\ In t slot /\ ct_node t = x.
Proof.
  induction slots as [|s slots IH]; intros acc x; simpl.
  - split; [now left | intros [H|[s [t [[] _]]]]; exact H].
  - rewrite IH, In_fold_targets. split.
    + intros [[H|[t [Ht Hx]]]|[s' [t (Hs' & Ht & Hx)]]].
      * now left.
      * right. exists s, t. auto.
      * right. exists s', t. auto.
    + intros [H|[s' [t ([<-|Hs'] & Ht & Hx)]]].
      * left. now left.
      * left. right. now exists t.
      * right. now exists s', t.
Qed.

Lemma In_connectedNodes_gen (es : list N8nNodeConnections) : forall acc x,
  In x (fold_left
          (fun acc (connections : N8nNodeConnections) =>
             fold_left
               (fun acc1 outputConnections =>
                  fold_left (fun acc2 conn => JsSet.add (ct_node conn) acc2)
                    outputConnections acc1)
               (nc_main connections) acc) es acc)
  <-> In x acc
      \/ exists entry slot t,
          In entry es /\ In slot (nc_main entry) /\ In t slot /\ ct_node t = x.
Proof.
  induction es as [|e es IH]; intros acc x; simpl.
  - split; [now left | intros [H|[e [s [t ([] & _)]]]]; exact H].
  - rewrite IH, In_fold_slots. split.
    + intros [[H|[s [t (Hs & Ht & Hx)]]]|[e' [s [t (He' & Hs & Ht & Hx)]]]].
      * now left.
      * right. exists e, s, t. auto.
      * right. exists e', s, t. auto.
    + intros [H|[e' [s [t ([<-|He'] & Hs & Ht & Hx)]]]].
      * left. now left.
      * left. right. now exists s, t.
      * right. now exists e', s, t.
Qed.

Lemma In_connectedNodes w x :
  In x (connectedNodes (wf_connections w)) <->
  exists source t, wired w source t /\ ct_node t = x.
Proof.
  unfold connectedNodes, JsMap.values. rewrite In_connectedNodes_gen.
  unfold wired. split.
  - intros [[]|[entry [slot [t (He & Hs & Ht & Hx)]]]].
    apply in_map_iff in He as [[source e] [<- He]].
    exists source, t. split; [|assumption]. now exists e, slot.
  - intros [source [t [[entry [slot (He & Hs & Ht)]] Hx]]].
    right. exists entry, slot, t. repeat split; try assumption.
    apply in_map_iff. now exists (source, entry).
Qed.

(** X14: on a workflow that passes the schema, the warning that node x
    has no incoming connections is given only when the workflow has more
    than one node and a node named x that is not trigger-like and is the
    target of no connection, and, the node types being strings of ASCII
    characters, whenever it has.  A single node is never reported. *)
Theorem orphan_warning_iff :
  forall w x,
    n8nWorkflowSchema w = [] ->
    let orphan :=
      (1 < List.length (wf_nodes w))%nat
      /\ (exists n, In n (wf_nodes w) /\ node_name n = x
                    /\ ~ trigger_like (node_type n))
      /\ ~ exists source t, wired w source t /\ ct_node t = x in
    (In (orphan_warning x) (warnings (validateWorkflow w)) -> orphan)
    /\ ((forall n, In n (wf_nodes w) -> Js.isAscii (node_type n) = true) ->
        orphan -> In (orphan_warning x) (warnings (validateWorkflow w))).
Proof.
  intros w x Hs orphan. subst orphan.
  destruct (errors_schema_ok w Hs) as (_ & -> & _).
  unfold semantic_warnings. rewrite in_app_iff.
  assert (In (orphan_warning x)
             (if negb (existsb (fun n => isTriggerNode (node_type n))
                         (wf_nodes w))
              then [no_trigger_warning] else []) <-> False) as ->.
  { destruct (negb _); [|tauto]. split; [|tauto].
    intros [Heq|[]]. discriminate Heq. }
  unfold orphan_warnings. rewrite in_flat_map. split.
  - intros [[]|[n [Hn Hw]]].
    destruct (isTriggerNode (node_type n)) eqn:Ht; simpl in Hw; [destruct Hw|].
    destruct (JsSet.has (node_name n) _) eqn:Hc; simpl in Hw; [destruct Hw|].
    destruct (Nat.ltb 1 _) eqn:Hl; [|destruct Hw].
    destruct Hw as [Heq|[]]. apply orphan_warning_injective in Heq. subst x.
    split; [now apply Nat.ltb_lt|]. split.
    + exists n. repeat split; [assumption|]. intros Htl.
      apply isTriggerNode_iff in Htl. congruence.
    + intros Hex. apply In_connectedNodes in Hex.
      apply JsSet_has_false_iff in Hc. contradiction.
  - intros _ (Hl & [n (Hn & <- & Ht)] & Hc). right.
    exists n. split; [assumption|].
    assert (isTriggerNode (node_type n) = false) as ->.
    { apply not_true_is_false. intros H. now apply isTriggerNode_iff in H. }
    assert (JsSet.has (node_name n) (connectedNodes (wf_connections w))
            = false) as ->.
    { apply JsSet_has_false_iff. intros H. apply Hc.
      now apply In_connectedNodes. }
    apply Nat.ltb_lt in Hl. rewrite Hl. now left.
Qed.

Lemma orphan_warning_iff_witness :
  n8nWorkflowSchema with_orphan = []
  /\ In (orphan_warning "C") (warnings (validateWorkflow with_orphan))
  /\ ~ In (orphan_warning "B") (warnings (validateWorkflow with_orphan)).
Proof.
  split; [reflexivity|]. split.
  - apply (proj2 (orphan_warning_iff with_orphan "C" eq_refl)).
    + intros n [<-|[<-|[<-|[]]]]; reflexivity.
    + split; [simpl; lia|]. split.
      * exists (sample_node "3" "C" "n8n-nodes-base.slack").
        split; [right; right; now left|]. split; [reflexivity|].
        intros Ht. apply isTriggerNode_iff in Ht. discriminate Ht.
      * intros [source [t [[entry [slot (Hin & Hslot & Ht)]] Hname]]].
        destruct Hin as [[= <- <-]|[]].
        destruct Hslot as [<-|[]]. destruct Ht as [<-|[]].
        discriminate Hname.
  - intros H.
    apply (proj1 (orphan_warning_iff with_orphan "B" eq_refl)) in H
      as (_ & _ & Hno).
    apply Hno. exists "A", (connection_target "B" main 0). split; [|reflexivity].
    exists {| nc_main := [[connection_target "B" main 0]] |},
           [connection_target "B" main 0].
    repeat split; now left.
Defined.

(** *** The state manager and the validator together *)

Lemma names_of_state st :
  Inv st -> map node_name (getNodes st) = JsMap.keys (nodes st).
Proof.
  intros Hi. unfold getNodes, JsMap.values, JsMap.keys. rewrite map_map.
  apply map_ext_in. intros [k n] Hin. simpl.
  apply (inv_nodes_names st Hi k n Hin).
Qed.

(** The targets serialized under a source are those of its edges that
    leave an output whose index is a non-negative integer. *)
Lemma wired_serialized st name source t :
  Inv st ->
  wired (toN8nWorkflow st name) source t <->
  exists c i, In c (edges_from st source)
              /\ sourceOutput c = Int i /\ 0 <= i /\ t = to_target c.
Proof.
  intros Hi. unfold wired.
  rewrite toN8nWorkflow_connections by apply Hi. split.
  - intros [entry [slot (Hin & Hslot & Ht)]].
    apply in_map_iff in Hin as [[s l] [Heq Hin]].
    unfold serialize_entry in Heq. simpl in Heq. injection Heq as -> <-.
    simpl in Hslot.
    assert (JsMap.get source (connections st) = Some l) as Hg.
    { apply In_get_Some; [apply Hi | assumption]. }
    unfold edges_from. rewrite Hg.
    now apply mainConnections_targets with (slot := slot).
  - intros [c [i (Hc & Hso & Hi0 & ->)]]. unfold edges_from in Hc.
    destruct (JsMap.get source (connections st)) as [l|] eqn:Hg; [|destruct Hc].
    exists {| nc_main := mainConnections l |},
           (map to_target (edges_of_output (Int i) l)).
    split; [|split].
    + apply in_map_iff. exists (source, l). split; [reflexivity|].
      now apply get_Some_In.
    + simpl. apply (nth_error_In _ (Z.to_nat i)).
      now apply mainConnections_slot with (c := c).
    + apply in_map. apply filter_In. split; [assumption|].
      now apply Number_eqb_eq.
Qed.

Lemma serialized_semantically_valid st name :
  reachable st -> semantically_valid (toN8nWorkflow st name).
Proof.
  intros Hr. pose proof (reachable_Inv st Hr) as Hi.
  pose proof (reachable_Graph st Hr) as G.
  unfold semantically_valid, node_names.
  change (wf_nodes (toN8nWorkflow st name)) with (getNodes st).
  rewrite names_of_state by assumption.
  split; [apply Hi | split; [apply G | split]].
  - intros source entry Hin.
    rewrite toN8nWorkflow_connections in Hin by apply Hi.
    apply in_map_iff in Hin as [[s l] [Heq Hin]].
    unfold serialize_entry in Heq. simpl in Heq. injection Heq as -> _.
    apply has_true_keys. now apply (graph_sources_present st G source l).
  - intros source t Hw.
    apply wired_serialized in Hw as [c [i (Hc & _ & _ & ->)]]; [|assumption].
    simpl. unfold edges_from in Hc.
    destruct (JsMap.get source (connections st)) as [l|] eqn:Hg; [|destruct Hc].
    apply has_true_keys.
    apply (graph_targets_present st G source l c); [|assumption].
    now apply get_Some_In.
Qed.

(** X15: whatever was done to a state manager, the workflow it
    serializes passes the semantic phase of the validator: node names and
    ids are not shared and every connection runs between nodes of the
    workflow.  The only errors [validateWorkflow] can report for it are
    schema issues. *)
Theorem serialized_state_is_consistent :
  forall st name,
    reachable st ->
    let w := toN8nWorkflow st name in
    semantically_valid w
    /\ errors (validateWorkflow w) = map format_issue (n8nWorkflowSchema w).
Proof.
  intros st name Hr w.
  pose proof (serialized_semantically_valid st name Hr) as Hs. fold w in Hs.
  split; [exact Hs|].
  unfold validateWorkflow.
  destruct (n8nWorkflowSchema w) as [|i l] eqn:Hsch; [|reflexivity].
  simpl. now apply semantic_errors_nil.
Qed.

Lemma serialized_state_is_consistent_witness :
  let w := toN8nWorkflow (snd (removeNode (run chain init) "Middle")) "W" in
  semantically_valid w
  /\ errors (validateWorkflow w) = map format_issue (n8nWorkflowSchema w).
Proof.
  apply (serialized_state_is_consistent
           (snd (removeNode (run chain init) "Middle")) "W").
  apply (reachable_step (run chain init) (OpRemoveNode "Middle")).
  apply reachable_run.
Defined.

Lemma state_node_ids_nonempty st n :
  Graph st -> In n (getNodes st) -> node_id n <> EmptyString.
Proof.
  intros G Hin. apply getNodes_In in Hin as [k Hin].
  destruct (graph_ids st G k n Hin) as [i [_ ->]]. discriminate.
Qed.

(** X16: for a reachable state without a node named __proto__, the
    serialized workflow is valid exactly when it is given a name, the
    state has a node, every node has a name, a type in one of the two
    namespaces and a version that is a positive integer, and every edge
    that leaves an output whose index is a non-negative integer enters an
    input whose index is a non-negative integer. *)
Theorem serialized_state_valid_iff :
  forall st name,
    reachable st ->
    getNode st "__proto__" = None ->
    (valid (validateWorkflow (toN8nWorkflow st name)) = true <->
     name <> EmptyString
     /\ getNodes st <> []
     /\ (forall n, In n (getNodes st) -> node_acceptable n)
     /\ (forall source c i,
            In c (edges_from st source) ->
            sourceOutput c = Int i -> 0 <= i ->
            non_negative_integer (targetInput c))).
Proof.
  intros st name Hr _. pose proof (reachable_Inv st Hr) as Hi.
  pose proof (reachable_Graph st Hr) as G.
  rewrite (proj1 (validateWorkflow_valid_iff (toN8nWorkflow st name))).
  pose proof (serialized_semantically_valid st name Hr) as Hsem.
  unfold structurally_valid.
  change (wf_nodes (toN8nWorkflow st name)) with (getNodes st).
  change (wf_name (toN8nWorkflow st name)) with name.
  split.
  - intros [(H1 & H2 & H3 & H4 & _) _].
    split; [exact H1 | split; [exact H2 | split]].
    + intros n Hn. destruct (H3 n Hn) as (_ & Hname & Hty & Hv).
      now repeat split.
    + intros source c i Hc Hso Hi0.
      assert (wired (toN8nWorkflow st name) source (to_target c)) as Hw.
      { apply wired_serialized; [assumption|]. now exists c, i. }
      apply (H4 source (to_target c) Hw).
  - intros (H1 & H2 & H3 & H4). split; [|exact Hsem].
    split; [exact H1 | split; [exact H2 | split; [|split]]].
    + intros n Hn. destruct (H3 n Hn) as (Hname & Hty & Hv).
      split; [now apply (state_node_ids_nonempty st) | now repeat split].
    + intros source t Hw.
      apply wired_serialized in Hw as [c [i (Hc & Hso & Hi0 & ->)]];
        [|assumption].
      split; simpl; [|now apply (H4 source c i)].
      unfold edges_from in Hc.
      destruct (JsMap.get source (connections st)) as [l|] eqn:Hg;
        [|destruct Hc].
      pose proof (graph_targets_present st G source l c
                    (get_Some_In _ _ _ Hg) Hc) as Hp.
      apply has_true_keys in Hp. rewrite <- names_of_state in Hp by assumption.
      apply in_map_iff in Hp as [n [Hn Hin]]. rewrite <- Hn.
      apply (H3 n Hin).
    + reflexivity.
Qed.

Lemma serialized_state_valid_iff_witness :
  valid (validateWorkflow (toN8nWorkflow (run two_connected init) "W")) = true
  /\ valid (validateWorkflow (toN8nWorkflow (run two_connected init)
                                EmptyString)) = false.
Proof.
  split; [reflexivity|].
  apply not_true_is_false. intros Hv.
  apply (proj1 (serialized_state_valid_iff (run two_connected init) EmptyString
                  (reachable_run two_connected) eq_refl)) in Hv as [Hname _].
  now apply Hname.
Defined.

(** *** The tools and the state *)

Section ToolsAndState.
Variable env : Env.
Variable zod_error_message : Tools.ToolName -> JsValue -> string.
Variable now : string.
Variable n8nClient : option N8nApiClient.

(** What a tool implementation does to the state: one operation of the
    state manager, or nothing. *)
Lemma implementation_step st parsed :
  exists result,
    Tools.implementation env now n8nClient st parsed
    = (result,
       match parsed with
       | Tools.PAddNode a =>
           step st (OpAddNode
                      {| in_type := Tools.a_type a;
                         in_typeVersion := Tools.a_typeVersion a;
                         in_name := Tools.a_name a;
                         in_parameters := Tools.a_parameters a;
                         in_credentials := None |})
       | Tools.PConnectNodes a =>
           step st (OpConnectNodes
                      {| in_sourceNode := Tools.a_sourceNode a;
                         in_targetNode := Tools.a_targetNode a;
                         in_sourceOutput := Some (Tools.a_sourceOutput a);
                         in_targetInput := Some (Tools.a_targetInput a);
                         in_connectionType := None |})
       | Tools.PUpdateNodeParameters a =>
           step st (OpUpdateNodeParameters (Tools.a_nodeName a)
                      (Tools.a_newParameters a))
       | _ => st
       end).
Proof.
  destruct parsed as [a|a|n|a|n|n]; simpl.
  - unfold Tools.impl_add_node. destruct (addNode st _) as [[node|msg] st']; eauto.
  - unfold Tools.impl_connect_nodes.
    destruct (connectNodes st _) as [[u|msg] st']; eauto.
  - unfold Tools.impl_get_current_workflow. eauto.
  - unfold Tools.impl_update_node_parameters.
    destruct (updateNodeParameters st _ _) as [[u|msg] st']; eauto.
  - unfold Tools.impl_validate_workflow_with_n8n.
    destruct n8nClient as [client|]; [|eauto].
    destruct (api_valid _); eauto.
  - unfold Tools.impl_create_workflow_in_n8n.
    destruct n8nClient as [client|]; [|eauto].
    destruct (createWorkflow client _) as [[response|]|reason]; eauto.
Qed.

Lemma implementation_failure st parsed result st' :
  Tools.implementation env now n8nClient st parsed = (result, st') ->
  Tools.success result = false -> st' = st.
Proof.
  destruct parsed as [a|a|n|a|n|n]; simpl.
  - unfold Tools.impl_add_node.
    destruct (addNode st _) as [[node|msg] st0] eqn:Ha.
    + intros [= <- <-]. discriminate.
    + intros [= <- <-] _. now apply addNode_throw in Ha.
  - unfold Tools.impl_connect_nodes.
    destruct (connectNodes_cases st
                {| in_sourceNode := Tools.a_sourceNode a;
                   in_targetNode := Tools.a_targetNode a;
                   in_sourceOutput := Some (Tools.a_sourceOutput a);
                   in_targetInput := Some (Tools.a_targetInput a);
                   in_connectionType := None |})
      as [[_ ->]|[(_ & _ & ->)|[(_ & _ & _ & ->)|(_ & _ & _ & ->)]]];
      intros [= <- <-]; simpl; congruence.
  - unfold Tools.impl_get_current_workflow. now intros [= <- <-].
  - unfold Tools.impl_update_node_parameters.
    destruct (updateNodeParameters_cases st (Tools.a_nodeName a)
                (Tools.a_newParameters a)) as [[_ ->]|[node [_ ->]]];
      intros [= <- <-]; simpl; congruence.
  - unfold Tools.impl_validate_workflow_with_n8n.
    destruct n8nClient as [client|]; [|now intros [= <- <-]].
    destruct (api_valid _); now intros [= <- <-].
  - unfold Tools.impl_create_workflow_in_n8n.
    destruct n8nClient as [client|]; [|now intros [= <- <-]].
    destruct (createWorkflow client _) as [[response|]|reason];
      now intros [= <- <-].
Qed.

(** What [executeToolAsync] comes down to. *)
Lemma executeToolAsync_cases st toolName args :
  (Tools.toolSchemas_lookup toolName = Tools.Undefined
   /\ Tools.executeToolAsync env zod_error_message now n8nClient st toolName args
      = (Normal (Tools.failure ("Unknown tool: " ++ toolName)), st))
  \/ (Tools.toolSchemas_lookup toolName = Tools.InheritedMember
      /\ Tools.executeToolAsync env zod_error_message now n8nClient
           st toolName args
         = (Throw Tools.safeParse_not_a_function, st))
  \/ (exists tool,
         Tools.toolSchemas_lookup toolName = Tools.OwnSchema tool
         /\ Tools.safeParse tool args = None
         /\ Tools.executeToolAsync env zod_error_message now n8nClient
              st toolName args
            = (Normal (Tools.failure ("Invalid arguments: "
                                        ++ zod_error_message tool args)), st))
  \/ (exists tool parsed,
         Tools.toolSchemas_lookup toolName = Tools.OwnSchema tool
         /\ Tools.safeParse tool args = Some parsed
         /\ Tools.executeToolAsync env zod_error_message now n8nClient
              st toolName args
            = (Normal (fst (Tools.implementation env now n8nClient st parsed)),
               snd (Tools.implementation env now n8nClient st parsed))).
Proof.
  unfold Tools.executeToolAsync.
  destruct (Tools.toolSchemas_lookup toolName) as [tool| |];
    [|right; left; now split | left; now split].
  destruct (Tools.safeParse tool args) as [parsed|] eqn:Hp.
  - right. right. right. exists tool, parsed.
    destruct (Tools.implementation env now n8nClient st parsed). now repeat split.
  - right. right. left. exists tool. now repeat split.
Qed.

(** The parsed arguments belong to the tool whose schema parsed them. *)
Lemma safeParse_kind tool args parsed :
  Tools.safeParse tool args = Some parsed ->
  match parsed with
  | Tools.PAddNode _ => tool = Tools.add_node
  | Tools.PConnectNodes _ => tool = Tools.connect_nodes
  | Tools.PGetCurrentWorkflow _ => tool = Tools.get_current_workflow
  | Tools.PUpdateNodeParameters _ => tool = Tools.update_node_parameters
  | Tools.PValidate _ => tool = Tools.validate_workflow_with_n8n
  | Tools.PCreate _ => tool = Tools.create_workflow_in_n8n
  end.
Proof.
  unfold Tools.safeParse. destruct args as [| |b|z|s|l|fields]; try discriminate.
  destruct tool.
  - destruct (Tools.prop "type" fields), (Tools.prop "typeVersion" fields),
      (Tools.prop "name" fields), (Tools.prop "parameters" fields);
      try discriminate; now intros [= <-].
  - destruct (Tools.prop "sourceNode" fields), (Tools.prop "targetNode" fields),
      (Tools.number_default0 (Tools.prop "sourceOutput" fields)),
      (Tools.number_default0 (Tools.prop "targetInput" fields));
      try discriminate; now intros [= <-].
  - destruct (Tools.prop "name" fields); try discriminate; now intros [= <-].
  - destruct (Tools.prop "nodeName" fields), (Tools.prop "parameters" fields);
      try discriminate; now intros [= <-].
  - destruct (Tools.prop "workflowName" fields); try discriminate;
      now intros [= <-].
  - destruct (Tools.prop "workflowName" fields); try discriminate;
      now intros [= <-].
Qed.

(** X17: a tool call that fails leaves the workflow state as it was,
    whether it throws or returns a failure result; and the state changes
    only through a successful [add_node], [connect_nodes] or
    [update_node_parameters]: the other three tools never write to it,
    whatever the n8n service answers. *)
Theorem failed_tool_call_changes_nothing :
  forall st toolName args,
    let outcome :=
      fst (Tools.executeToolAsync env zod_error_message now n8nClient
             st toolName args) in
    let st' :=
      snd (Tools.executeToolAsync env zod_error_message now n8nClient
             st toolName args) in
    (failed outcome -> st' = st)
    /\ (st' <> st ->
        exists tool,
          Tools.toolSchemas_lookup toolName = Tools.OwnSchema tool
          /\ writes_state tool = true).
Proof.
  intros st toolName args.
  destruct (executeToolAsync_cases st toolName args)
    as [[_ ->]|[[_ ->]|[[tool (_ & _ & ->)]|[tool [parsed (Hl & Hp & ->)]]]]];
    simpl; try (split; [reflexivity | congruence]).
  split.
  - intros Hf.
    apply (implementation_failure st parsed
             (fst (Tools.implementation env now n8nClient st parsed)));
      [now destruct (Tools.implementation env now n8nClient st parsed)
      | exact Hf].
  - intros Hne. exists tool. split; [exact Hl|].
    apply safeParse_kind in Hp.
    destruct (implementation_step st parsed) as [result He].
    rewrite He in Hne. simpl in Hne.
    destruct parsed; subst tool; try reflexivity; congruence.
Qed.

Lemma executeToolAsync_reachable st toolName args :
  reachable st ->
  reachable (snd (Tools.executeToolAsync env zod_error_message now n8nClient
                    st toolName args)).
Proof.
  intros Hr.
  destruct (executeToolAsync_cases st toolName args)
    as [[_ ->]|[[_ ->]|[[tool (_ & _ & ->)]|[tool [parsed (_ & _ & ->)]]]]];
    simpl; try assumption.
  destruct (implementation_step st parsed) as [result ->]. cbn [snd].
  destruct parsed; try assumption; now apply reachable_step.
Qed.

Lemma after_calls_snoc calls call st :
  after_calls env zod_error_message now n8nClient (calls ++ [call]) st
  = snd (Tools.executeToolAsync env zod_error_message now n8nClient
           (after_calls env zod_error_message now n8nClient calls st)
           (call_name call) (call_args call)).
Proof. unfold after_calls. now rewrite fold_left_app. Qed.

Lemma after_calls_reachable calls st :
  reachable st ->
  reachable (after_calls env zod_error_message now n8nClient calls st).
Proof.
  intros Hr. induction calls as [|call calls IH] using rev_ind.
  - exact Hr.
  - rewrite after_calls_snoc. now apply executeToolAsync_reachable.
Qed.

(** X18: the tools drive the state manager through its own operations
    only: after any sequence of tool calls, with any names and arguments,
    the state is one the manager can reach, so what holds of reachable
    states (unique names and ids, connections between present nodes, no
    edge twice) holds of it. *)
Theorem tool_calls_keep_state_reachable :
  forall calls st,
    reachable st ->
    let st' := after_calls env zod_error_message now n8nClient calls st in
    reachable st'
    /\ NoDup (map node_name (getNodes st'))
    /\ NoDup (map node_id (getNodes st'))
    /\ forall source c,
        In c (edges_from st' source) ->
        getNode st' source <> None /\ getNode st' (target c) <> None.
Proof.
  intros calls st Hr st'.
  pose proof (after_calls_reachable calls st Hr) as Hr'. fold st' in Hr'.
  pose proof (reachable_Inv st' Hr') as Hi.
  pose proof (reachable_Graph st' Hr') as G.
  split; [exact Hr'|]. split; [|split].
  - rewrite names_of_state by assumption. apply Hi.
  - apply G.
  - intros source c Hc. unfold edges_from in Hc.
    destruct (JsMap.get source (connections st')) as [l|] eqn:Hg; [|destruct Hc].
    apply get_Some_In in Hg. split; apply has_getNode.
    + now apply (graph_sources_present st' G source l).
    + now apply (graph_targets_present st' G source l c).
Qed.

(** X19: [executeTool] and [executeToolAsync] behave alike on every tool
    name except the two n8n tools; for those [executeTool] returns the
    failure that points to [executeToolAsync], before looking at the
    arguments, and leaves the state alone. *)
Theorem executeTool_agrees_with_async :
  forall st toolName args,
    (toolName <> "validate_workflow_with_n8n" ->
     toolName <> "create_workflow_in_n8n" ->
     Tools.executeTool env zod_error_message now n8nClient st toolName args
     = Tools.executeToolAsync env zod_error_message now n8nClient
         st toolName args)
    /\ (toolName = "validate_workflow_with_n8n"
        \/ toolName = "create_workflow_in_n8n" ->
        Tools.executeTool env zod_error_message now n8nClient st toolName args
        = (Normal (Tools.failure
                     ("Tool " ++ toolName
                        ++ " is async. Use executeToolAsync instead.")), st)).
Proof.
  intros st toolName args. split.
  - intros H1 H2. unfold Tools.executeTool, Tools.executeToolAsync.
    destruct (Tools.toolSchemas_lookup toolName) as [tool| |] eqn:Hl;
      try reflexivity.
    unfold Tools.toolSchemas_lookup in Hl.
    destruct (JsMap.get toolName Tools.tool_names) as [tool'|] eqn:Hg.
    + injection Hl as ->.
      apply get_Some_In in Hg. simpl in Hg.
      destruct Hg as [Hg|[Hg|[Hg|[Hg|[Hg|[Hg|[]]]]]]];
        injection Hg as <- <-; try reflexivity; congruence.
    + destruct (existsb _ _); discriminate.
  - intros [-> | ->]; reflexivity.
Qed.

End ToolsAndState.

Lemma failed_tool_call_changes_nothing_witness :
  let st := run one_node init in
  snd (Tools.executeToolAsync default_env plain_zod_message EmptyString None st
         "connect_nodes" (connect_args "A" "Ghost")) = st.
Proof.
  intros st.
  apply (proj1 (failed_tool_call_changes_nothing default_env plain_zod_message EmptyString None st "connect_nodes"
                  (connect_args "A" "Ghost"))).
  reflexivity.
Defined.


Lemma tool_calls_keep_state_reachable_witness :
  reachable
    (after_calls default_env plain_zod_message EmptyString None
       [ {| call_name := "add_node"; call_args := add_slack_args |};
         {| call_name := "add_node"; call_args := add_slack_args |};
         {| call_name := "bogus"; call_args := JNull |} ] init).
Proof.
  exact (proj1 (tool_calls_keep_state_reachable default_env plain_zod_message
                  EmptyString None
                  [ {| call_name := "add_node"; call_args := add_slack_args |};
                    {| call_name := "add_node"; call_args := add_slack_args |};
                    {| call_name := "bogus"; call_args := JNull |} ]
                  init reachable_init)).
Defined.


Lemma executeTool_agrees_with_async_witness :
  Tools.executeTool default_env plain_zod_message EmptyString None init
    "add_node" add_slack_args
  = Tools.executeToolAsync default_env plain_zod_message EmptyString None init
      "add_node" add_slack_args.
Proof.
  apply (proj1 (executeTool_agrees_with_async default_env plain_zod_message EmptyString
                  None init "add_node" add_slack_args));
    discriminate.
Defined.

Lemma tool_op_grow_only op : tool_op op -> grow_only op.
Proof. destruct op; simpl; tauto. Qed.

Lemma edges_from_addNode st input source :
  edges_from (snd (addNode st input)) source = edges_from st source.
Proof.
  destruct (addNode_cases st input) as [[_ ->]|[_ ->]]; reflexivity.
Qed.

Lemma edges_from_updateNodeParameters st name params source :
  edges_from (snd (updateNodeParameters st name params)) source
  = edges_from st source.
Proof.
  destruct (updateNodeParameters_cases st name params)
    as [[_ ->]|[node [_ ->]]]; reflexivity.
Qed.

Lemma plain_graph_step st op :
  tool_op op -> plain_graph st -> plain_graph (step st op).
Proof.
  intros Hop [Hcred Htype].
  destruct op as [input|name|input|name params|]; simpl in *;
    try contradiction.
  - split.
    + destruct (addNode_cases st input) as [[_ ->]|[Hfresh ->]];
        [exact Hcred|].
      unfold getNodes. simpl. rewrite values_set_absent by assumption.
      intros n Hn. apply in_app_iff in Hn as [Hn|[<-|[]]];
        [now apply Hcred | exact Hop].
    + intros source c. rewrite edges_from_addNode. apply Htype.
  - split.
    + intros n. unfold getNodes. rewrite nodes_connectNodes. apply Hcred.
    + intros source c Hc.
      destruct (connectNodes_cases st input)
        as [[_ He]|[(_ & _ & He)|[(_ & _ & _ & He)|(_ & _ & _ & He)]]];
        rewrite He in Hc; simpl in Hc; try (now apply (Htype source)).
      unfold edges_from in Hc. simpl in Hc. rewrite edges_from_set in Hc.
      destruct (in_sourceNode input =? source)%string;
        [|now apply (Htype source)].
      apply in_app_iff in Hc as [Hc|[<-|[]]].
      * now apply (Htype (in_sourceNode input)).
      * simpl. now rewrite Hop.
  - split.
    + intros n Hn.
      destruct (updateNodeParameters_cases st name params)
        as [[_ He]|[node [Hg He]]]; rewrite He in Hn; simpl in Hn;
        [now apply Hcred|].
      apply getNodes_In in Hn as [k Hn]. simpl in Hn.
      apply In_set in Hn as [[= -> ->]|Hn]; simpl.
      * apply Hcred. apply getNodes_In. exists name. now apply get_Some_In.
      * apply Hcred. apply getNodes_In. now exists k.
    + intros source c. rewrite edges_from_updateNodeParameters. apply Htype.
Qed.

Lemma plain_graph_run ops :
  Forall tool_op ops -> plain_graph (run ops init).
Proof.
  induction ops as [|op ops IH] using rev_ind; intros Hops.
  - split; [intros n [] | intros source c []].
  - apply Forall_app in Hops as [Hops Hop]. inversion Hop; subst.
    rewrite run_snoc. apply plain_graph_step; auto.
Qed.

Section ToolsNever.
Variable env : Env.
Variable zod_error_message : Tools.ToolName -> JsValue -> string.
Variable now : string.
Variable n8nClient : option N8nApiClient.

Lemma executeToolAsync_tool_op st toolName args :
  snd (Tools.executeToolAsync env zod_error_message now n8nClient
         st toolName args) = st
  \/ exists op,
      tool_op op
      /\ snd (Tools.executeToolAsync env zod_error_message now n8nClient
                st toolName args) = step st op.
Proof.
  destruct (executeToolAsync_cases env zod_error_message now n8nClient
              st toolName args)
    as [[_ ->]|[[_ ->]|[[tool (_ & _ & ->)]|[tool [parsed (_ & _ & ->)]]]]];
    try (now left).
  destruct (implementation_step env now n8nClient st parsed) as [result ->].
  cbn [snd]. destruct parsed; try (now left); right; eexists;
    (split; [|reflexivity]); reflexivity.
Qed.

Lemma after_calls_as_run calls :
  exists ops,
    Forall tool_op ops
    /\ after_calls env zod_error_message now n8nClient calls init
       = run ops init.
Proof.
  induction calls as [|call calls IH] using rev_ind.
  - exists []. split; [constructor | reflexivity].
  - destruct IH as [ops [Hops Heq]]. rewrite after_calls_snoc, Heq.
    destruct (executeToolAsync_tool_op (run ops init) (call_name call)
                (call_args call)) as [->|[op [Hop ->]]].
    + now exists ops.
    + exists (ops ++ [op])%list. split.
      * apply Forall_app. split; [assumption | now constructor].
      * now rewrite run_snoc.
Qed.

(** X20: no tool removes a node, sets credentials or names a connection
    type.  So in the state built by any sequence of tool calls on a fresh
    manager the grid positions of the nodes present are pairwise
    different, no node carries credentials, and every edge is of type
    main. *)
Theorem tools_never_remove_or_specialise :
  forall calls,
    let st := after_calls env zod_error_message now n8nClient calls init in
    NoDup (map position (getNodes st))
    /\ (forall n, In n (getNodes st) -> credentials n = None)
    /\ (forall source c,
           In c (edges_from st source) -> connectionType c = main).
Proof.
  intros calls st. destruct (after_calls_as_run calls) as [ops [Hops Heq]].
  unfold st. rewrite Heq. split.
  - assert (Forall grow_only ops) as Hg.
    { eapply Forall_impl; [|exact Hops]. apply tool_op_grow_only. }
    destruct (grow_only_layout ops init Hg eq_refl) as [_ ->].
    apply NoDup_grid_cells.
  - apply plain_graph_run, Hops.
Qed.

End ToolsNever.

Lemma tools_never_remove_or_specialise_witness :
  credentials
    (nth 0
       (getNodes
          (after_calls default_env plain_zod_message EmptyString None
             [ {| call_name := "add_node"; call_args := add_slack_args |} ]
             init))
       (sample_node "node_0" "None" "n8n-nodes-base.noOp"))
  = None.
Proof.
  apply (proj1 (proj2 (tools_never_remove_or_specialise default_env
                         plain_zod_message EmptyString None
                         [ {| call_name := "add_node";
                              call_args := add_slack_args |} ]))).
  vm_compute. left. reflexivity.
Defined.

(** *** The classifier and the retry prompt *)

(** X21: the classifier calls an error not recoverable whenever its text
    contains credential, oauth, api key or authentication, letter case
    aside, and, the text being a string of ASCII characters, only then;
    every other such text is recoverable.  For every text it suggests an
    action. *)
Theorem not_recoverable_iff :
  forall errorMessage,
    let credential_related :=
      contains_ci errorMessage "credential"
      \/ contains_ci errorMessage "oauth"
      \/ contains_ci errorMessage "api key"
      \/ contains_ci errorMessage "authentication" in
    (credential_related ->
     Builder.recoverable (Builder.analyzeValidationError errorMessage)
     = false)
    /\ (Js.isAscii errorMessage = true ->
        Builder.recoverable (Builder.analyzeValidationError errorMessage)
        = false ->
        credential_related)
    /\ exists action,
        Builder.suggestedAction (Builder.analyzeValidationError errorMessage)
        = Some action
        /\ action <> EmptyString.
Proof.
  intros errorMessage credential_related. subst credential_related.
  rewrite <- !includes_lower_iff by reflexivity.
  rewrite <- !orb_true_iff.
  rewrite !orb_assoc. unfold Builder.analyzeValidationError.
  destruct (_ || _ || _ || _)%bool eqn:H1; simpl.
  - split; [reflexivity|]. split; [reflexivity|].
    eexists. split; [reflexivity | discriminate].
  - split; [discriminate|]. split.
    + intros _.
      repeat match goal with
             | |- context [if ?b then _ else _] => destruct b
             end; simpl; intros; discriminate.
    + repeat match goal with
             | |- context [if ?b then _ else _] => destruct b
             end; simpl; eexists; (split; [reflexivity | discriminate]).
Qed.

Lemma not_recoverable_iff_witness :
  Builder.recoverable
    (Builder.analyzeValidationError "OAuth token required") = false
  /\ (contains_ci "OAuth token required" "credential"
      \/ contains_ci "OAuth token required" "oauth"
      \/ contains_ci "OAuth token required" "api key"
      \/ contains_ci "OAuth token required" "authentication")
  /\ Builder.recoverable
       (Builder.analyzeValidationError "Required parameter missing") = true.
Proof.
  assert (Builder.recoverable
            (Builder.analyzeValidationError "OAuth token required") = false)
    as Hno.
  { apply (proj1 (not_recoverable_iff "OAuth token required")).
    right. left. exists EmptyString, "OAuth", " token required".
    split; [reflexivity | equal_ci_tac]. }
  split; [exact Hno|]. split; [|reflexivity].
  apply (proj1 (proj2 (not_recoverable_iff "OAuth token required")));
    [reflexivity | exact Hno].
Defined.

(** X22: the retry prompt quotes the validation error in full and, when
    the analysis suggests an action, the line [Suggested action: ...] with
    that action. *)
Theorem retry_prompt_names_error_and_action :
  forall errorMessage analysis,
    Js.includes (Builder.buildRetryPrompt errorMessage analysis) errorMessage
    = true
    /\ forall action,
        Builder.suggestedAction analysis = Some action ->
        action <> EmptyString ->
        Js.includes (Builder.buildRetryPrompt errorMessage analysis)
          ("Suggested action: " ++ action) = true.
Proof.
  intros errorMessage analysis. unfold Builder.buildRetryPrompt. split.
  - apply includes_iff.
    exists (Js.nl ++ "The workflow validation failed with the following error:"
              ++ Js.nl).
    eexists. reflexivity.
  - intros action Ha Hne. rewrite Ha.
    destruct (String.eqb_spec action EmptyString) as [->|_]; [congruence|].
    apply includes_iff.
    exists ((Js.nl ++ "The workflow validation failed with the following error:"
               ++ Js.nl) ++ errorMessage ++ Js.nl ++ Js.nl).
    eexists.
    rewrite (append_assoc
               (Js.nl ++ "The workflow validation failed with the following error:"
                  ++ Js.nl)).
    rewrite (append_assoc errorMessage).
    reflexivity.
Qed.

Lemma retry_prompt_names_error_and_action_witness :
  Js.includes
    (Builder.buildRetryPrompt type_prefix_error
       (Builder.analyzeValidationError type_prefix_error))
    "Suggested action: Review the error message and fix the issue." = true.
Proof.
  apply (proj2 (retry_prompt_names_error_and_action type_prefix_error
                  (Builder.analyzeValidationError type_prefix_error))
           "Review the error message and fix the issue.");
    [reflexivity | discriminate].
Defined.

(** *** Results of the generation loop *)

Lemma extends_log_refl l : extends_log l l.
Proof. exists []. now rewrite app_nil_r. Qed.

Lemma extends_log_trans a b c :
  extends_log a b -> extends_log b c -> extends_log a c.
Proof.
  intros [m1 ->] [m2 ->]. exists (m1 ++ m2)%list. now rewrite app_assoc.
Qed.

Lemma extends_log_app l more : extends_log l (l ++ more)%list.
Proof. now exists more. Qed.

Section LoopFacts.
Variable env : Env.
Variable modelId : string.
Variable messages_create : list Builder.Message -> Builder.ApiOutcome.
Variable service : N8nApiClient.
Variable now : string.
Variable zod_error_message : Tools.ToolName -> JsValue -> string.
Variable stringify_value : JsValue -> string.
Variable stringify_result : Tools.ToolResult -> string.
Variable stringify_data : Tools.ToolData -> string.

Lemma finalize_facts v :
  match Builder.finalize env modelId v with
  | Builder.Return r => TurnFacts env v r (Builder.workflowState v)
  | Builder.Continue v' =>
      Builder.log v' = Builder.log v
      /\ Builder.workflowState v' = Builder.workflowState v
      /\ Builder.attempts v' = Builder.attempts v + 1
      /\ Builder.attempts v' < Builder.maxRetries env
  end.
Proof.
  unfold Builder.finalize.
  destruct (getNodes (Builder.workflowState v)) as [|n ns] eqn:Hn.
  - simpl. split; simpl.
    + split; simpl; [discriminate | intros _; split; [reflexivity | eauto]].
    + apply extends_log_refl.
    + now left.
  - cbn [List.length Nat.ltb Nat.leb].
    destruct (Validator.valid _) eqn:Hv; cbn [negb].
    + split; simpl.
      * split; simpl; [|discriminate]. intros _. rewrite Hn.
        repeat split; try assumption. discriminate.
      * apply extends_log_refl.
      * now left.
    + fold (workflow_of v). fold (errorMsg_of v).
      destruct (Builder.recoverable _) eqn:Hr; simpl.
      * destruct (Z.ltb_spec (Builder.attempts v + 1) (Builder.maxRetries env)).
        -- repeat split; assumption.
        -- split; simpl.
           ++ split; simpl; [discriminate | intros _; split; [reflexivity|eauto]].
           ++ apply extends_log_refl.
           ++ right. repeat split. right. assumption.
      * split; simpl.
        -- split; simpl; [discriminate | intros _; split; [reflexivity|eauto]].
        -- apply extends_log_refl.
        -- right. repeat split. now left.
Qed.

Lemma max_turns_reached_facts v :
  TurnFacts env v (Builder.max_turns_reached modelId v) (Builder.workflowState v).
Proof.
  unfold Builder.max_turns_reached.
  destruct (getNodes (Builder.workflowState v)) as [|n ns] eqn:Hn.
  - simpl. split; simpl.
    + split; simpl; [discriminate | intros _; split; [reflexivity | eauto]].
    + apply extends_log_refl.
    + now left.
  - cbn [List.length Nat.ltb Nat.leb].
    destruct (Validator.valid _) eqn:Hv; cbn [negb]; split; simpl;
      try apply extends_log_refl; try (now left).
    + split; simpl; [|discriminate]. intros _. rewrite Hn.
      repeat split; try assumption. discriminate.
    + split; simpl; [discriminate | intros _; split; [reflexivity | eauto]].
Qed.

Lemma caught_facts v msg log0 st :
  extends_log (Builder.log v) log0 ->
  TurnFacts env v (Builder.caught modelId msg log0 (Builder.attempts v)) st.
Proof.
  intros Hl. split; simpl.
  - split; simpl; [discriminate | intros _; split; [reflexivity | eauto]].
  - exact Hl.
  - now left.
Qed.

Lemma read_blocks_log blocks : forall log0 content hasToolUse,
  extends_log log0
    (fst (fst (Builder.read_blocks stringify_value blocks log0 content
                 hasToolUse))).
Proof.
  induction blocks as [|b blocks IH]; intros log0 content hasToolUse; simpl.
  - apply extends_log_refl.
  - destruct b as [text|id name input|].
    + eapply extends_log_trans; [apply extends_log_app | apply IH].
    + eapply extends_log_trans; [apply extends_log_app | apply IH].
    + apply IH.
Qed.

Lemma run_tools_log blocks : forall log0 results st,
  extends_log log0
    (snd (fst (Builder.run_tools env service now zod_error_message stringify_result
                 stringify_data blocks log0 results st))).
Proof.
  induction blocks as [|b blocks IH]; intros log0 results st; simpl.
  - apply extends_log_refl.
  - destruct b as [text|id name input|]; try apply IH.
    destruct (Tools.executeToolAsync _ _ _ _ _ _ _) as [[result|msg] st'].
    + eapply extends_log_trans; [apply extends_log_app | apply IH].
    + apply extends_log_refl.
Qed.

Lemma turn_facts v :
  match Builder.turn env modelId messages_create service now zod_error_message
         stringify_value stringify_result stringify_data v with
  | (Builder.Return r, st) => TurnFacts env v r st
  | (Builder.Continue v', _) =>
      extends_log (Builder.log v) (Builder.log v')
      /\ (Builder.attempts v' = Builder.attempts v
          \/ (Builder.attempts v' = Builder.attempts v + 1
              /\ Builder.attempts v' < Builder.maxRetries env))
  end.
Proof.
  unfold Builder.turn.
  destruct (messages_create (Builder.messages v)) as [response|e].
  2:{ apply caught_facts, extends_log_refl. }
  pose proof (read_blocks_log (Builder.content response) (Builder.log v) []
                false) as Hread.
  destruct (Builder.read_blocks stringify_value (Builder.content response)
              (Builder.log v) [] false) as [[log1 content] hasToolUse].
  simpl in Hread.
  destruct (negb hasToolUse || _)%bool.
  - pose proof (finalize_facts
                  {| Builder.messages :=
                       (Builder.messages v
                          ++ [Builder.AssistantContent content])%list;
                     Builder.log := log1;
                     Builder.attempts := Builder.attempts v;
                     Builder.workflowState := Builder.workflowState v |}) as Hf.
    destruct (Builder.finalize env modelId _) as [v'|r]; simpl in Hf.
    + destruct Hf as (Hl & _ & Ha & Hb). rewrite Hl. split; [exact Hread|].
      right. now split.
    + destruct Hf as [F1 F2 F3]. simpl in *. split.
      * exact F1.
      * eapply extends_log_trans; eassumption.
      * exact F3.
  - pose proof (run_tools_log (Builder.content response) log1 []
                  (Builder.workflowState v)) as Hrun.
    destruct (Builder.run_tools _ _ _ _ _ _ _ _ _ _) as [[[results|msg] log2] st'];
      simpl in Hrun.
    + simpl. split; [eapply extends_log_trans; eassumption | now left].
    + apply caught_facts. eapply extends_log_trans; eassumption.
Qed.

Lemma loop_facts turnsLeft : forall v,
  within_budget env v ->
  let r := fst (Builder.loop env modelId messages_create service now zod_error_message
         stringify_value stringify_result stringify_data turnsLeft v) in
  result_well_formed r
    (snd (Builder.loop env modelId messages_create service now zod_error_message
         stringify_value stringify_result stringify_data turnsLeft v))
  /\ extends_log (Builder.log v) (Builder.conversationLog r)
  /\ exists a,
      Builder.validationAttempts r = Some a
      /\ 0 <= a <= Z.max 1 (Builder.maxRetries env).
Proof.
  assert (forall v r st, within_budget env v -> TurnFacts env v r st ->
            result_well_formed r st
            /\ extends_log (Builder.log v) (Builder.conversationLog r)
            /\ exists a,
                Builder.validationAttempts r = Some a
                /\ 0 <= a <= Z.max 1 (Builder.maxRetries env)) as Hret.
  { intros v r st Hb [F1 F2 F3]. split; [exact F1 | split; [exact F2|]].
    unfold within_budget in Hb.
    destruct F3 as [->|(-> & _ & _)]; eexists; (split; [reflexivity|]); lia. }
  induction turnsLeft as [|n IH]; intros v Hb; simpl.
  - apply (Hret v); [exact Hb | apply max_turns_reached_facts].
  - pose proof (turn_facts v) as Ht.
    destruct (Builder.turn _ _ _ _ _ _ _ _ _ v) as [[v'|r] st].
    + destruct Ht as [Hl Ha].
      assert (within_budget env v') as Hb'.
      { unfold within_budget in *. lia. }
      destruct (IH v' Hb') as (I1 & I2 & I3).
      split; [exact I1 | split; [|exact I3]].
      eapply extends_log_trans; eassumption.
    + simpl. now apply (Hret v).
Qed.

(** X23: whatever the model and the n8n service answer, the result of
    [buildWorkflow] is well formed for the state the run ends in: a
    success carries the serialization of that state under the name
    Generated Workflow, which [validateWorkflow] accepts and which has at
    least one node, together with its warnings and without error text; a
    failure carries an error text and no workflow. *)
Theorem buildWorkflow_result_well_formed :
  forall st userPrompt continueFrom,
    let run :=
      Builder.buildWorkflow env modelId messages_create service now
        zod_error_message stringify_value stringify_result stringify_data
        st userPrompt continueFrom in
    result_well_formed (fst run) (snd run).
Proof.
  intros st userPrompt continueFrom run.
  apply (loop_facts Builder.MAX_TURNS). now left.
Qed.

(** X24: the number of validation attempts a result reports lies between
    0 and the retry budget, or 1 when the budget is smaller: the loop never
    validates a failing workflow more often than [MAX_VALIDATION_RETRIES]
    allows, except for the first time. *)
Theorem validation_attempts_within_budget :
  forall st userPrompt continueFrom,
    exists a,
      Builder.validationAttempts
        (fst (Builder.buildWorkflow env modelId messages_create service now
                zod_error_message stringify_value stringify_result
                stringify_data st userPrompt continueFrom)) = Some a
      /\ 0 <= a <= Z.max 1 (MAX_VALIDATION_RETRIES env).
Proof.
  intros st userPrompt continueFrom.
  apply (loop_facts Builder.MAX_TURNS). now left.
Qed.

(** X25: the conversation log of a result starts with the lines the run
    was continued from (with none for a fresh run); a run only adds lines
    to the log. *)
Theorem conversation_log_extends_history :
  forall st userPrompt continueFrom,
    extends_log
      match continueFrom with Some l => l | None => [] end
      (Builder.conversationLog
         (fst (Builder.buildWorkflow env modelId messages_create service now
                 zod_error_message stringify_value stringify_result
                 stringify_data st userPrompt continueFrom))).
Proof.
  intros st userPrompt continueFrom.
  apply (loop_facts Builder.MAX_TURNS
           {| Builder.messages := [Builder.UserText userPrompt];
              Builder.log := match continueFrom with Some l => l | None => [] end;
              Builder.attempts := 0;
              Builder.workflowState :=
                match continueFrom with Some _ => st | None => reset st end |}).
  now left.
Qed.

End LoopFacts.

Lemma buildWorkflow_result_well_formed_witness :
  Builder.success (fst helpful_run) = true
  /\ Builder.workflow (fst helpful_run)
     = Some (toN8nWorkflow (snd helpful_run) "Generated Workflow")
  /\ Validator.valid
       (Validator.validateWorkflow
          (toN8nWorkflow (snd helpful_run) "Generated Workflow")) = true.
Proof.
  assert (Builder.success (fst helpful_run) = true) as Hs by reflexivity.
  split; [exact Hs|].
  destruct (proj1 (buildWorkflow_result_well_formed default_env
                     "claude-haiku-4-5-20251001" helpful_model
                     unreachable_service "2026-01-01T00:00:00.000Z"
                     plain_zod_message plain_stringify plain_stringify
                     plain_stringify init "Start on a webhook"
                     (Some ["User: hello"])) Hs) as (H1 & H2 & _).
  split; [exact H1 | exact H2].
Defined.

(** *** The tools over the HTTP client *)



Section ToolsOverHttp.
Variable fetch : N8nApi.Request -> N8nApi.FetchOutcome.
Variable stringify_workflow : N8nWorkflow -> string.
Variable stringify_json : JsValue -> string.
Variable String_of : JsValue -> string.
Variable as_CreateWorkflowResponse : JsValue -> CreateWorkflowResponse.
Variable syntax_error_message : string.
Variable config : N8nApi.N8nApiConfig.
Variable env : Env.
Variable zod_error_message : Tools.ToolName -> JsValue -> string.
Variable now : string.




End ToolsOverHttp.


(** A 2xx answer with the body [null] does not validate the workflow. *)
Lemma null_body_fails_validation :
  Tools.executeToolAsync default_env plain_zod_message
    "2026-01-01T00:00:00.000Z"
    (Some (N8nApi.client null_fetch plain_stringify plain_stringify
             plain_stringify read_response "Unexpected end of JSON input"
             sample_config))
    init "validate_workflow_with_n8n" validate_args
  = (Normal
       {| Tools.success := false;
          Tools.message :=
            "n8n validation failed: Cannot read properties of null (reading 'id')";
          Tools.data :=
            Some (Tools.DataValidationError
                    (Some {| statusCode := 0;
                             api_message :=
                               "Cannot read properties of null (reading 'id')";
                             errorType := NETWORK;
                             recoverable := true;
                             details := None |})) |},
     init).
Proof. reflexivity. Qed.


(** *** The two classifiers of validation errors *)

(** X28: a validation message the client calls recoverable is recoverable
    for the classifier of the generation loop too. *)
Theorem client_recoverable_is_agent_recoverable :
  forall message,
    N8nApi.isRecoverableValidationError message = true ->
    Builder.recoverable (Builder.analyzeValidationError message) = true.
Proof.
  intros message.
  unfold N8nApi.isRecoverableValidationError, Builder.analyzeValidationError.
  destruct (Js.includes (Js.toLowerCase message) "credential");
    destruct (Js.includes (Js.toLowerCase message) "authentication");
    destruct (Js.includes (Js.toLowerCase message) "oauth");
    destruct (Js.includes (Js.toLowerCase message) "api key");
    cbn [orb]; cbv iota; try discriminate.
  intros _.
  repeat match goal with
         | |- context [if ?b then _ else _] => destruct b
         end; reflexivity.
Qed.

Lemma client_recoverable_is_agent_recoverable_witness :
  Builder.recoverable
    (Builder.analyzeValidationError "Missing required property: settings")
  = true.
Proof.
  apply (client_recoverable_is_agent_recoverable
           "Missing required property: settings").
  reflexivity.
Defined.

(** *** Model names *)

Lemma existsb_eqb_In :
  forall (x : string) l, existsb (String.eqb x) l = true <-> In x l.
Proof.
  intros x l. rewrite existsb_exists. split.
  - intros [y [Hy He]]. apply String.eqb_eq in He. subst. exact Hy.
  - intros H. exists x. split; [exact H | apply String.eqb_refl].
Qed.

(** X29: [resolveModelId] returns a value that is no model id exactly for
    the names [CLAUDE_MODELS] inherits from [Object.prototype]; for every
    other input it returns one of the three model ids, which it maps to
    itself, and a model id is returned as it is. *)
Theorem resolveModelId_resolves :
  forall model,
    (Config.resolveModelId model = Config.InheritedValue
     <-> In model Tools.Object_prototype_members)
    /\ (~ In model Tools.Object_prototype_members ->
        exists id,
          In id Config.MODEL_IDS
          /\ Config.resolveModelId model = Config.ModelId id
          /\ Config.resolveModelId id = Config.ModelId id
          /\ (In model Config.MODEL_IDS -> id = model)).
Proof.
  intros model. unfold Config.resolveModelId.
  destruct (JsMap.get model Config.CLAUDE_MODELS) as [id|] eqn:Hget.
  - assert (Hid : (model = "haiku" /\ id = "claude-haiku-4-5-20251001")
                  \/ (model = "sonnet" /\ id = "claude-sonnet-4-5-20250929")
                  \/ (model = "opus" /\ id = "claude-opus-4-5-20251101")).
    { revert Hget. unfold Config.CLAUDE_MODELS. cbn [JsMap.get find fst snd].
      unfold key_eqb, string_KeyEq.
      destruct (String.eqb_spec "haiku" model) as [<-|_];
        [intros [= <-]; tauto|].
      destruct (String.eqb_spec "sonnet" model) as [<-|_];
        [intros [= <-]; tauto|].
      destruct (String.eqb_spec "opus" model) as [<-|_];
        [intros [= <-]; tauto|].
      discriminate. }
    destruct Hid as [[-> ->] | [[-> ->] | [-> ->]]].
    all: split;
      [ split; [discriminate | intros Hin; exfalso; revert Hin; cbn;
                               intuition discriminate]
      | intros _; eexists; split; [|split; [reflexivity|split;
          [vm_compute; reflexivity
          | cbn; intuition discriminate]]]; cbn; tauto ].
  - destruct (existsb (String.eqb model) Tools.Object_prototype_members)
      eqn:Hm.
    + apply existsb_eqb_In in Hm. split; [tauto|]. intros Hn. contradiction.
    + assert (Hn : ~ In model Tools.Object_prototype_members).
      { intros Hin. apply existsb_eqb_In in Hin. congruence. }
      destruct (existsb (String.eqb model) Config.MODEL_IDS) eqn:Hi.
      * apply existsb_eqb_In in Hi. split.
        { split; [discriminate | intros Hin; contradiction]. }
        intros _. exists model. split; [exact Hi|]. split; [reflexivity|].
        split; [|reflexivity].
        cbn in Hi. destruct Hi as [<- | [<- | [<- | []]]];
          vm_compute; reflexivity.
      * split.
        { split; [discriminate | intros Hin; contradiction]. }
        intros _. exists "claude-haiku-4-5-20251001".
        split; [cbn; tauto|]. split; [reflexivity|].
        split; [vm_compute; reflexivity|].
        intros Hin. apply existsb_eqb_In in Hin. congruence.
Qed.

Lemma resolveModelId_resolves_witness :
  exists id,
    In id Config.MODEL_IDS
    /\ Config.resolveModelId "gpt-4" = Config.ModelId id
    /\ Config.resolveModelId id = Config.ModelId id
    /\ (In "gpt-4" Config.MODEL_IDS -> id = "gpt-4").
Proof.
  apply (proj2 (resolveModelId_resolves "gpt-4")).
  cbn. intuition discriminate.
Defined.

(** *** The advertised tool definitions and the schemas *)

Lemma conforms_iff_safeParse :
  forall d args,
    In d ToolCatalog.getToolDefinitions ->
    exists tool,
      Tools.toolSchemas_lookup (ToolCatalog.name d) = Tools.OwnSchema tool
      /\ (conforms d args
          <-> exists parsed, Tools.safeParse tool args = Some parsed).
Proof.
  intros d args Hd. unfold ToolCatalog.getToolDefinitions in Hd.
  cbn [In] in Hd.
  destruct Hd as [<- | [<- | [<- | [<- | [<- | [<- | []]]]]]];
    cbn [ToolCatalog.name]; eexists; (split; [reflexivity|]);
    unfold conforms; cbn [ToolCatalog.properties ToolCatalog.required];
    (split;
     [ intros [fields [-> H]]; unfold Tools.safeParse;
       repeat match goal with
              | |- context [Tools.prop ?k fields] =>
                  let Hk := fresh "Hk" in
                  let Hr := fresh "Hr" in
                  first
                    [ pose proof (H k ToolCatalog.TString
                                    ltac:(cbn; tauto)) as Hk
                    | pose proof (H k ToolCatalog.TNumber
                                    ltac:(cbn; tauto)) as Hk
                    | pose proof (H k ToolCatalog.TObject
                                    ltac:(cbn; tauto)) as Hk ];
                  destruct Hk as [Hk | [Hk Hr]];
                  [ cbn [has_type] in Hk; destruct Hk as [? Hk]
                  | try (exfalso; apply Hr; cbn; tauto) ];
                  rewrite Hk
              end;
       cbn; eauto
     | intros [parsed Hp]; destruct args as [| | | | | |fields];
       try discriminate; exists fields; split; [reflexivity|];
       unfold Tools.safeParse in Hp;
       intros p ty Hin; cbn [In] in Hin;
       repeat match type of Hin with
              | _ \/ _ => destruct Hin as [Hin | Hin]
              end;
       try contradiction; injection Hin as <- <-;
       repeat match type of Hp with
              | context [Tools.prop ?k fields] =>
                  let E := fresh "E" in
                  destruct (Tools.prop k fields) eqn:E;
                  cbn in Hp; try discriminate
              end;
       cbn [has_type];
       first [ left; eexists; reflexivity
             | right; split; [reflexivity | cbn; intuition discriminate] ]
     ]).
Qed.

(** X30: every tool definition sent to the model names a declared schema,
    and the arguments that conform to its input schema are exactly those
    the schema accepts; every declared schema has such a definition. *)
Theorem advertised_schemas_match_zod :
  (forall d args,
      In d ToolCatalog.getToolDefinitions ->
      exists tool,
        Tools.toolSchemas_lookup (ToolCatalog.name d) = Tools.OwnSchema tool
        /\ (conforms d args
            <-> exists parsed, Tools.safeParse tool args = Some parsed))
  /\ (forall tool,
         exists d,
           In d ToolCatalog.getToolDefinitions
           /\ Tools.toolSchemas_lookup (ToolCatalog.name d)
              = Tools.OwnSchema tool).
Proof.
  split; [exact conforms_iff_safeParse|].
  intros tool. unfold ToolCatalog.getToolDefinitions.
  cbn [In].
  destruct tool; eexists;
    (split;
     [ (left; reflexivity) + (right; left; reflexivity)
       + (do 2 right; left; reflexivity) + (do 3 right; left; reflexivity)
       + (do 4 right; left; reflexivity) + (do 5 right; left; reflexivity)
     | reflexivity ]).
Qed.

Lemma advertised_schemas_match_zod_witness :
  exists tool,
    Tools.toolSchemas_lookup "add_node" = Tools.OwnSchema tool
    /\ (conforms (hd {| ToolCatalog.name := EmptyString;
                        ToolCatalog.properties := [];
                        ToolCatalog.required := [] |}
                    ToolCatalog.getToolDefinitions) webhook_args
        <-> exists parsed, Tools.safeParse tool webhook_args = Some parsed).
Proof.
  apply (proj1 advertised_schemas_match_zod
           (hd {| ToolCatalog.name := EmptyString;
                  ToolCatalog.properties := [];
                  ToolCatalog.required := [] |}
               ToolCatalog.getToolDefinitions) webhook_args).
  left. reflexivity.
Defined.
